(** * An animated binary search tree: the engine of [src/main.cpp]

    The C++ program keeps one binary search tree of heap nodes, mutates it
    with [Insert] and [DeleteNode], and drives three frame-paced state
    machines over it (search, delete, traversal) from the loop in [main].

    Modelling conventions.
    - A tree of exclusively owned [Node*] is an inductive [tree]; [Null] is
      [nullptr].  A [Node*] held by a global or by a stack slot is a path
      from the root ([ptr]); [None] is [nullptr].  Paths stay valid as long
      as the shape above them is unchanged, which is the only situation in
      which the program dereferences them.
    - [int] is [Z]: values are only compared, and the counters stay small.
    - [float] is [Q]: timers and coordinates are exact rationals, where
      the code rounds every sum to binary32.  The two agree at a frame time
      of 1/64 s: the multiples of 1/64 the timers then hold, and the steps
      300/64 and 3/64 of the delete animation, are exact in binary32, and
      they compare with 0.12, 0.6 and 0.8 as with the binary32 values of
      these literals ([sixty_fourths_thresholds]).  The runs that name the
      frame in which something happens are therefore stated at 1/64 s.
      The statements for arbitrary frame times that bound a number of
      frames leave a margin for the rounding: frames of at least 1 ms, the
      thresholds 0.59 and 0.79 where a wait is stated, one frame more per
      interval where an advance is.  Interpolated coordinates are kept in
      lowest terms ([Qred]), which changes no value.
    - Undefined behaviour (null dereference, write past a fixed array,
      write through an invalidated reference) is the result [Fault]. *)

From Stdlib Require Import ZArith QArith Qpower String List Bool Lia Lqa
  Sorted.
Import ListNotations.
Local Open Scope Z_scope.

(* ================================================================= *)
(** ** Nodes and trees *)

(** The colours a node can carry ([Node::color]). *)
Inductive Color : Set := LIGHTGRAY | RED | ORANGE.

(** The payload of [struct Node]; the links [left], [right] are the two
    subtrees of the constructor [Nd]. *)
Record Node : Set := mkNode {
  value : Z;
  x : Q;  y : Q;
  tx : Q; ty : Q;
  alpha : Q;
  color : Color
}.

Inductive tree : Set :=
| Null
| Nd (l : tree) (n : Node) (r : tree).

Definition TREE_START_X : Z := 350.
Definition TREE_START_Y : Z := 80.

Definition set_value (n : Node) (v : Z) : Node :=
  mkNode v (x n) (y n) (tx n) (ty n) (alpha n) (color n).
Definition set_xy (n : Node) (x' y' : Q) : Node :=
  mkNode (value n) x' y' (tx n) (ty n) (alpha n) (color n).
Definition set_y (n : Node) (y' : Q) : Node :=
  mkNode (value n) (x n) y' (tx n) (ty n) (alpha n) (color n).
Definition set_target (n : Node) (tx' ty' : Q) : Node :=
  mkNode (value n) (x n) (y n) tx' ty' (alpha n) (color n).
Definition set_alpha (n : Node) (a : Q) : Node :=
  mkNode (value n) (x n) (y n) (tx n) (ty n) a (color n).
Definition set_color (n : Node) (c : Color) : Node :=
  mkNode (value n) (x n) (y n) (tx n) (ty n) (alpha n) c.

(** [CreateNode]: a fresh leaf spawned above the window. *)
Definition CreateNode (v : Z) : tree :=
  Nd Null (mkNode v (inject_Z TREE_START_X) (-100)%Q
                    (inject_Z TREE_START_X) (inject_Z TREE_START_Y)
                    1%Q LIGHTGRAY) Null.

(** [Insert]: descend by comparison; an equal key returns [r] as it is. *)
Fixpoint Insert (r : tree) (v : Z) : tree :=
  match r with
  | Null => CreateNode v
  | Nd l n rt =>
      if v <? value n then Nd (Insert l v) n rt
      else if v >? value n then Nd l n (Insert rt v)
      else r
  end.

(** [MinNode]: follow [left] while there is one; the result is the node
    reached (as the subtree rooted there), [Null] only for [Null]. *)
Fixpoint MinNode (r : tree) : tree :=
  match r with
  | Null => Null
  | Nd Null _ _ => r
  | Nd l _ _ => MinNode l
  end.

(** [DeleteNode].  In the two-children case [MinNode (r->right)] is taken on
    a non-null tree, so its [Null] branch below is never reached (lemma
    [MinNode_not_Null]). *)
Fixpoint DeleteNode (r : tree) (v : Z) : tree :=
  match r with
  | Null => Null
  | Nd l n rt =>
      if v <? value n then Nd (DeleteNode l v) n rt
      else if v >? value n then Nd l n (DeleteNode rt v)
      else
        match l, rt with
        | Null, Null => Null
        | Null, _ => rt
        | _, Null => l
        | _, _ =>
            match MinNode rt with
            | Nd _ t _ =>
                Nd l (set_value n (value t)) (DeleteNode rt (value t))
            | Null => r
            end
        end
  end.

(** [SetPositions]: [int] coordinates, [offset / 2] truncating, stored into
    the [float] targets. *)
Fixpoint SetPositions (r : tree) (x0 y0 offset : Z) : tree :=
  match r with
  | Null => Null
  | Nd l n rt =>
      Nd (SetPositions l (x0 - offset) (y0 + 80) (offset ÷ 2))
         (set_target n (inject_Z x0) (inject_Z y0))
         (SetPositions rt (x0 + offset) (y0 + 80) (offset ÷ 2))
  end.

(* ----------------------------------------------------------------- *)
(** *** Observations on trees *)

Fixpoint size (t : tree) : nat :=
  match t with
  | Null => 0
  | Nd l _ r => S (size l + size r)
  end.

Fixpoint height (t : tree) : nat :=
  match t with
  | Null => 0
  | Nd l _ r => S (Nat.max (height l) (height r))
  end.

(** [InT v t]: some node of [t] has key [v]. *)
Fixpoint InT (v : Z) (t : tree) : Prop :=
  match t with
  | Null => False
  | Nd l n r => InT v l \/ v = value n \/ InT v r
  end.

Definition tree_lt (t : tree) (k : Z) : Prop := forall u, InT u t -> u < k.
Definition tree_gt (t : tree) (k : Z) : Prop := forall u, InT u t -> k < u.

(** The ordering invariant of the specification. *)
Fixpoint BST (t : tree) : Prop :=
  match t with
  | Null => True
  | Nd l n r => tree_lt l (value n) /\ tree_gt r (value n) /\ BST l /\ BST r
  end.

(** The three recursive traversals, as lists of keys. *)
Fixpoint inorder (t : tree) : list Z :=
  match t with
  | Null => []
  | Nd l n r => inorder l ++ value n :: inorder r
  end.

Fixpoint preorder (t : tree) : list Z :=
  match t with
  | Null => []
  | Nd l n r => value n :: preorder l ++ preorder r
  end.

Fixpoint postorder (t : tree) : list Z :=
  match t with
  | Null => []
  | Nd l n r => postorder l ++ postorder r ++ [value n]
  end.

(** Building a tree by successive inserts, as the INSERT button does. *)
Definition insert_all (vs : list Z) (t : tree) : tree :=
  fold_left Insert vs t.

(* ================================================================= *)
(** ** Pointers into the tree *)

(** A [Node*] is the path from [root] to the node. *)
Inductive dir : Set := L | R.
Definition ptr : Set := list dir.

(** The subtree a path leads to; [Null] when the path leaves the tree. *)
Fixpoint deref (t : tree) (p : ptr) {struct p} : tree :=
  match p with
  | [] => t
  | d :: q =>
      match t with
      | Null => Null
      | Nd l _ r => deref (match d with L => l | R => r end) q
      end
  end.

(** In-place change of the payload of the node at [p]. *)
Fixpoint update (t : tree) (p : ptr) (f : Node -> Node) : tree :=
  match t with
  | Null => Null
  | Nd l n r =>
      match p with
      | [] => Nd l (f n) r
      | L :: q => Nd (update l q f) n r
      | R :: q => Nd l n (update r q f)
      end
  end.

(** The pointer stored in a link: [nullptr] for an absent child. *)
Definition link (child : tree) (p : ptr) (d : dir) : option ptr :=
  match child with
  | Null => None
  | Nd _ _ _ => Some (p ++ [d])
  end.

(** The value of the global [root] as a pointer. *)
Definition root_ptr (t : tree) : option ptr :=
  match t with
  | Null => None
  | Nd _ _ _ => Some []
  end.

(* ----------------------------------------------------------------- *)
(** *** Results of code that can go wrong *)

Inductive fault : Set :=
| NullDeref      (* [n->f] with [n] null or not a live node *)
| OutOfBounds    (* write past the end of a fixed array *)
| DanglingRef    (* write through a reference invalidated by [push_back] *)
| OutOfFuel.     (* the bound given to a loop was too small *)

Inductive result (A : Type) : Type :=
| Ok (a : A)
| Fault (e : fault).
Arguments Ok {A} a.
Arguments Fault {A} e.

Definition bind {A B : Type} (c : result A) (k : A -> result B) : result B :=
  match c with
  | Ok a => k a
  | Fault e => Fault e
  end.

Notation "'do' v <- c ;; k" := (bind c (fun v => k))
  (at level 10, v name, c at level 100, k at level 200).

(** [n->f] read and [n->f = ...] write through a pointer. *)
Definition load (t : tree) (p : ptr) : result Node :=
  match deref t p with
  | Null => Fault NullDeref
  | Nd _ n _ => Ok n
  end.

Definition store (t : tree) (p : ptr) (f : Node -> Node) : result tree :=
  match deref t p with
  | Null => Fault NullDeref
  | Nd _ _ _ => Ok (update t p f)
  end.

(** [float] comparisons. *)
Definition Qlt_bool (a b : Q) : bool := negb (Qle_bool b a).

(* ================================================================= *)
(** ** The full-tree walks: [AnimateNodes] and [ResetTreeColors] *)

(** [lerp]; the result is stored in lowest terms. *)
Definition lerp (a b t : Q) : Q := Qred (a + (b - a) * t)%Q.

(** Both walks declare a local array of 100 pointers and an index [top].
    The list is [stack[0..top)], most recent slot first. *)
Definition HELPER_STACK_SIZE : nat := 100.

(** [stack[top++] = p]. *)
Definition push_slot (p : ptr) (st : list ptr) : result (list ptr) :=
  if (length st <? HELPER_STACK_SIZE)%nat then Ok (p :: st)
  else Fault OutOfBounds.

(** [if (n->left) stack[top++] = n->left;] and the same for [right]. *)
Definition push_child (child : tree) (p : ptr) (d : dir) (st : list ptr)
  : result (list ptr) :=
  match link child p d with
  | None => Ok st
  | Some c => push_slot c st
  end.

(** The loop [while (top > 0)] shared, word for word, by the two walks;
    [f] is the assignment made to the popped node.  Every turn pops one
    node, so [size root] turns suffice; [fuel] bounds the turns. *)
Fixpoint walk (fuel : nat) (f : Node -> Node) (rt : tree) (st : list ptr)
  : result tree :=
  match st with
  | [] => Ok rt
  | p :: st1 =>
      match fuel with
      | O => Fault OutOfFuel
      | S fuel' =>
          match deref rt p with
          | Null => Fault NullDeref
          | Nd l _ r =>
              let rt1 := update rt p f in
              do st2 <- push_child l p L st1 ;;
              do st3 <- push_child r p R st2 ;;
              walk fuel' f rt1 st3
          end
      end
  end.

Definition full_walk (f : Node -> Node) (rt : tree) : result tree :=
  match root_ptr rt with
  | None => Ok rt
  | Some p => do st <- push_slot p [] ;; walk (size rt) f rt st
  end.

Definition animate (dt : Q) (n : Node) : Node :=
  set_xy n (lerp (x n) (tx n) (dt * 5)) (lerp (y n) (ty n) (dt * 5)).

Definition AnimateNodes (dt : Q) (rt : tree) : result tree :=
  full_walk (animate dt) rt.

Definition ResetTreeColors (rt : tree) : result tree :=
  full_walk (fun n => set_color n LIGHTGRAY) rt.

(** What a walk is meant to compute: [f] applied to every node. *)
Fixpoint tmap (f : Node -> Node) (t : tree) : tree :=
  match t with
  | Null => Null
  | Nd l n r => Nd (tmap f l) (f n) (tmap f r)
  end.

(* ================================================================= *)
(** ** The globals *)

Inductive Mode : Set :=
| IDLE | INSERTING | SEARCHING | DELETING
| TRAVERSING_IN | TRAVERSING_PRE | TRAVERSING_POST.

(** [struct TravFrame]. *)
Record TravFrame : Set := mkFrame { node : option ptr; state : Z }.

(** All global variables, the function-static [moveTimer] of
    [UpdateSearch], and for the [std::vector] [travStack] its elements
    (last element first) and its capacity.  [travLog] is a history
    variable: it records, oldest first, every execution of
    [n->color = ORANGE] by the traversal and is read by no code. *)
Record State : Set := mkState {
  root : tree;
  inputValue : Z;
  current : option ptr;
  found : bool;
  mode : Mode;
  algoSteps : list string;
  algoStepIndex : Z;
  algoTimer : Q;
  moveTimer : Q;
  delNode : option ptr;
  delFlashTimer : Q;
  delFlashCount : Z;
  travStack : list TravFrame;
  travCap : nat;
  travHighlight : option ptr;
  edgeA : option ptr;
  edgeB : option ptr;
  travTimer : Q;
  travLog : list ptr
}.

(** Assignments to one global. *)
Definition with_root (v : tree) (s : State) : State :=
  mkState v (inputValue s) (current s) (found s) (mode s)
    (algoSteps s) (algoStepIndex s) (algoTimer s) (moveTimer s)
    (delNode s) (delFlashTimer s) (delFlashCount s) (travStack s)
    (travCap s) (travHighlight s) (edgeA s) (edgeB s) (travTimer s)
    (travLog s).
Definition with_inputValue (v : Z) (s : State) : State :=
  mkState (root s) v (current s) (found s) (mode s) (algoSteps s)
    (algoStepIndex s) (algoTimer s) (moveTimer s) (delNode s)
    (delFlashTimer s) (delFlashCount s) (travStack s) (travCap s)
    (travHighlight s) (edgeA s) (edgeB s) (travTimer s) (travLog s).
Definition with_current (v : option ptr) (s : State) : State :=
  mkState (root s) (inputValue s) v (found s) (mode s) (algoSteps s)
    (algoStepIndex s) (algoTimer s) (moveTimer s) (delNode s)
    (delFlashTimer s) (delFlashCount s) (travStack s) (travCap s)
    (travHighlight s) (edgeA s) (edgeB s) (travTimer s) (travLog s).
Definition with_found (v : bool) (s : State) : State :=
  mkState (root s) (inputValue s) (current s) v (mode s) (algoSteps s)
    (algoStepIndex s) (algoTimer s) (moveTimer s) (delNode s)
    (delFlashTimer s) (delFlashCount s) (travStack s) (travCap s)
    (travHighlight s) (edgeA s) (edgeB s) (travTimer s) (travLog s).
Definition with_mode (v : Mode) (s : State) : State :=
  mkState (root s) (inputValue s) (current s) (found s) v
    (algoSteps s) (algoStepIndex s) (algoTimer s) (moveTimer s)
    (delNode s) (delFlashTimer s) (delFlashCount s) (travStack s)
    (travCap s) (travHighlight s) (edgeA s) (edgeB s) (travTimer s)
    (travLog s).
Definition with_algoSteps (v : list string) (s : State) : State :=
  mkState (root s) (inputValue s) (current s) (found s) (mode s) v
    (algoStepIndex s) (algoTimer s) (moveTimer s) (delNode s)
    (delFlashTimer s) (delFlashCount s) (travStack s) (travCap s)
    (travHighlight s) (edgeA s) (edgeB s) (travTimer s) (travLog s).
Definition with_algoStepIndex (v : Z) (s : State) : State :=
  mkState (root s) (inputValue s) (current s) (found s) (mode s)
    (algoSteps s) v (algoTimer s) (moveTimer s) (delNode s)
    (delFlashTimer s) (delFlashCount s) (travStack s) (travCap s)
    (travHighlight s) (edgeA s) (edgeB s) (travTimer s) (travLog s).
Definition with_algoTimer (v : Q) (s : State) : State :=
  mkState (root s) (inputValue s) (current s) (found s) (mode s)
    (algoSteps s) (algoStepIndex s) v (moveTimer s) (delNode s)
    (delFlashTimer s) (delFlashCount s) (travStack s) (travCap s)
    (travHighlight s) (edgeA s) (edgeB s) (travTimer s) (travLog s).
Definition with_moveTimer (v : Q) (s : State) : State :=
  mkState (root s) (inputValue s) (current s) (found s) (mode s)
    (algoSteps s) (algoStepIndex s) (algoTimer s) v (delNode s)
    (delFlashTimer s) (delFlashCount s) (travStack s) (travCap s)
    (travHighlight s) (edgeA s) (edgeB s) (travTimer s) (travLog s).
Definition with_delNode (v : option ptr) (s : State) : State :=
  mkState (root s) (inputValue s) (current s) (found s) (mode s)
    (algoSteps s) (algoStepIndex s) (algoTimer s) (moveTimer s) v
    (delFlashTimer s) (delFlashCount s) (travStack s) (travCap s)
    (travHighlight s) (edgeA s) (edgeB s) (travTimer s) (travLog s).
Definition with_delFlashTimer (v : Q) (s : State) : State :=
  mkState (root s) (inputValue s) (current s) (found s) (mode s)
    (algoSteps s) (algoStepIndex s) (algoTimer s) (moveTimer s)
    (delNode s) v (delFlashCount s) (travStack s) (travCap s)
    (travHighlight s) (edgeA s) (edgeB s) (travTimer s) (travLog s).
Definition with_delFlashCount (v : Z) (s : State) : State :=
  mkState (root s) (inputValue s) (current s) (found s) (mode s)
    (algoSteps s) (algoStepIndex s) (algoTimer s) (moveTimer s)
    (delNode s) (delFlashTimer s) v (travStack s) (travCap s)
    (travHighlight s) (edgeA s) (edgeB s) (travTimer s) (travLog s).
Definition with_travStack (v : list TravFrame) (s : State) : State :=
  mkState (root s) (inputValue s) (current s) (found s) (mode s)
    (algoSteps s) (algoStepIndex s) (algoTimer s) (moveTimer s)
    (delNode s) (delFlashTimer s) (delFlashCount s) v (travCap s)
    (travHighlight s) (edgeA s) (edgeB s) (travTimer s) (travLog s).
Definition with_travCap (v : nat) (s : State) : State :=
  mkState (root s) (inputValue s) (current s) (found s) (mode s)
    (algoSteps s) (algoStepIndex s) (algoTimer s) (moveTimer s)
    (delNode s) (delFlashTimer s) (delFlashCount s) (travStack s) v
    (travHighlight s) (edgeA s) (edgeB s) (travTimer s) (travLog s).
Definition with_travHighlight (v : option ptr) (s : State) : State :=
  mkState (root s) (inputValue s) (current s) (found s) (mode s)
    (algoSteps s) (algoStepIndex s) (algoTimer s) (moveTimer s)
    (delNode s) (delFlashTimer s) (delFlashCount s) (travStack s)
    (travCap s) v (edgeA s) (edgeB s) (travTimer s) (travLog s).
Definition with_edgeA (v : option ptr) (s : State) : State :=
  mkState (root s) (inputValue s) (current s) (found s) (mode s)
    (algoSteps s) (algoStepIndex s) (algoTimer s) (moveTimer s)
    (delNode s) (delFlashTimer s) (delFlashCount s) (travStack s)
    (travCap s) (travHighlight s) v (edgeB s) (travTimer s)
    (travLog s).
Definition with_edgeB (v : option ptr) (s : State) : State :=
  mkState (root s) (inputValue s) (current s) (found s) (mode s)
    (algoSteps s) (algoStepIndex s) (algoTimer s) (moveTimer s)
    (delNode s) (delFlashTimer s) (delFlashCount s) (travStack s)
    (travCap s) (travHighlight s) (edgeA s) v (travTimer s)
    (travLog s).
Definition with_travTimer (v : Q) (s : State) : State :=
  mkState (root s) (inputValue s) (current s) (found s) (mode s)
    (algoSteps s) (algoStepIndex s) (algoTimer s) (moveTimer s)
    (delNode s) (delFlashTimer s) (delFlashCount s) (travStack s)
    (travCap s) (travHighlight s) (edgeA s) (edgeB s) v (travLog s).
Definition with_travLog (v : list ptr) (s : State) : State :=
  mkState (root s) (inputValue s) (current s) (found s) (mode s)
    (algoSteps s) (algoStepIndex s) (algoTimer s) (moveTimer s)
    (delNode s) (delFlashTimer s) (delFlashCount s) (travStack s)
    (travCap s) (travHighlight s) (edgeA s) (edgeB s) (travTimer s) v.

Definition algoSpeed : Q := 0.5%Q.

(** The state of the program when [main] starts. *)
Definition initial : State :=
  mkState Null 10 None false IDLE [] 0 0%Q 0%Q None 0%Q 0 [] 0%nat
          None None None 0%Q [].

(** Conversion of an [int] to [size_t] (64 bits) in a mixed comparison. *)
Definition to_size_t (z : Z) : Z := z mod 2 ^ 64.

(** The pacing block repeated in every update function:
    [algoTimer += dt; if (algoTimer > algoSpeed && algoStepIndex <
    algoSteps.size() - 1) { algoStepIndex++; algoTimer = 0; }].
    The sum is exact here and rounded to binary32 in the code: the call in
    which the timer passes 0.5 is the same in both when the frame times
    are multiples of 1/64 s, and can differ otherwise. *)
Definition pace (dt : Q) (s : State) : State :=
  let s1 := with_algoTimer (algoTimer s + dt)%Q s in
  if Qlt_bool algoSpeed (algoTimer s1)
     && (to_size_t (algoStepIndex s1)
         <? to_size_t (Z.of_nat (length (algoSteps s1)) - 1))
  then with_algoTimer 0%Q (with_algoStepIndex (algoStepIndex s1 + 1) s1)
  else s1.

Definition start_steps (labels : list string) (s : State) : State :=
  with_algoTimer 0%Q (with_algoStepIndex 0 (with_algoSteps labels s)).

(* ================================================================= *)
(** ** Insert and search animations *)

Definition StartInsertAnimation (s : State) : State :=
  let s1 := with_mode INSERTING s in
  let s2 := start_steps ["Start at root"; "Compare values";
                         "Move left / right"; "Insert at leaf";
                         "Recalculate layout"]%string s1 in
  with_current (root_ptr (root s2)) s2.

Definition StartSearchAnimation (s : State) : State :=
  let s1 := with_mode SEARCHING s in
  let s2 := with_found false s1 in
  let s3 := with_current (root_ptr (root s2)) s2 in
  start_steps ["Start at root"; "Compare target"; "Move left or right";
               "Repeat until found or NULL"]%string s3.

(** [UpdateSearch].  The null test on [current] comes before any timer is
    touched; [moveTimer] is the function-static dwell timer, an exact sum
    here and a sum rounded to binary32 in the code (see [pace]). *)
Definition UpdateSearch (dt : Q) (s : State) : result State :=
  match current s with
  | None => Ok (with_mode IDLE s)
  | Some p =>
      let s1 := pace dt s in
      let s2 := with_moveTimer (moveTimer s1 + dt)%Q s1 in
      if Qlt_bool (moveTimer s2) 0.6%Q then Ok s2
      else
        let s3 := with_moveTimer 0%Q s2 in
        match deref (root s3) p with
        | Null => Fault NullDeref
        | Nd l n r =>
            if inputValue s3 =? value n
            then Ok (with_mode IDLE (with_found true s3))
            else if inputValue s3 <? value n
            then Ok (with_current (link l p L) s3)
            else Ok (with_current (link r p R) s3)
        end
  end.

(* ================================================================= *)
(** ** Delete animation *)

(** The loop [while (temp)] of [StartDeleteAnimation]: [t] is the subtree
    at [temp], [p] the pointer [temp]. *)
Fixpoint locate (t : tree) (p : ptr) (v : Z) : option ptr :=
  match t with
  | Null => None
  | Nd l n r =>
      if value n =? v then Some p
      else if v <? value n then locate l (p ++ [L]) v
      else locate r (p ++ [R]) v
  end.

Definition StartDeleteAnimation (s : State) : State :=
  let s1 := with_mode DELETING s in
  let s2 := with_delFlashCount 0
              (with_delFlashTimer 0%Q (with_delNode None s1)) in
  let s3 := start_steps ["Find node"; "Flash target node"; "Drop node";
                         "Fade node"; "Delete & restructure"]%string s2 in
  let s4 := with_delNode (locate (root s3) [] (inputValue s3)) s3 in
  match delNode s4 with
  | None => with_mode IDLE s4
  | Some _ => s4
  end.

(** [UpdateDelete]: the pacing block first, then the block selected by
    [algoStepIndex].  [delFlashTimer], [y] and [alpha] are exact here and
    rounded to binary32 in the code (see [pace]). *)
Definition UpdateDelete (dt : Q) (s : State) : result State :=
  match delNode s with
  | None => Ok (with_mode IDLE s)
  | Some p =>
      let s1 := pace dt s in
      if algoStepIndex s1 =? 1 then
        (* Flash red *)
        let s2 := with_delFlashTimer (delFlashTimer s1 + dt)%Q s1 in
        do s3 <- (if Qlt_bool 0.12%Q (delFlashTimer s2) then
                 let c := delFlashCount s2 + 1 in
                 do rt <- store (root s2) p
                         (fun n => set_color n
                            (if Z.rem c 2 =? 0 then RED else LIGHTGRAY)) ;;
                 Ok (with_root rt
                       (with_delFlashCount c (with_delFlashTimer 0%Q s2)))
               else Ok s2) ;;
        Ok (if 6 <? delFlashCount s3 then with_algoStepIndex 2 s3 else s3)
      else if algoStepIndex s1 =? 2 then
        (* Drop *)
        do rt <- store (root s1) p
                (fun n => set_y n (y n + dt * 300)%Q) ;;
        do n <- load rt p ;;
        let s2 := with_root rt s1 in
        Ok (if Qlt_bool 900%Q (y n) then with_algoStepIndex 3 s2 else s2)
      else if algoStepIndex s1 =? 3 then
        (* Fade *)
        do rt <- store (root s1) p
                (fun n => set_alpha n (alpha n - dt * 3)%Q) ;;
        do n <- load rt p ;;
        let s2 := with_root rt s1 in
        Ok (if Qle_bool (alpha n) 0%Q then with_algoStepIndex 4 s2 else s2)
      else if algoStepIndex s1 =? 4 then
        (* Actual deletion *)
        let rt := DeleteNode (root s1) (inputValue s1) in
        let s2 := with_root
                    (SetPositions rt TREE_START_X TREE_START_Y 200) s1 in
        Ok (with_mode IDLE s2)
      else Ok s1
  end.

(* ================================================================= *)
(** ** Traversal engine *)

(** [clear(); push_back({root, 0})] and the other resets common to the
    three start functions.  [clear] keeps the capacity; the push
    reallocates only a vector of capacity 0, to the capacity [grow 0] chosen
    by the library.  No reference into the vector is live here. *)
Definition start_traversal (grow : nat -> nat) (m : Mode)
    (labels : list string) (s : State) : result State :=
  let s1 := with_mode m s in
  let s2 := with_travStack [mkFrame (root_ptr (root s1)) 0]
              (with_travCap (if (0 <? travCap s1)%nat then travCap s1
                             else grow 0%nat) s1) in
  let s3 := with_edgeB None (with_edgeA None (with_travHighlight None s2)) in
  let s4 := with_travLog [] (with_travTimer 0%Q (start_steps labels s3)) in
  do rt <- ResetTreeColors (root s4) ;;
  Ok (with_root rt s4).

Definition StartTraverseIn (grow : nat -> nat) : State -> result State :=
  start_traversal grow TRAVERSING_IN
    ["In-order traversal:"; "Go Left"; "Visit Node"; "Go Right"]%string.

Definition StartTraversePre (grow : nat -> nat) : State -> result State :=
  start_traversal grow TRAVERSING_PRE
    ["Pre-order traversal:"; "Visit Node"; "Go Left"; "Go Right"]%string.

Definition StartTraversePost (grow : nat -> nat) : State -> result State :=
  start_traversal grow TRAVERSING_POST
    ["Post-order traversal:"; "Go Left"; "Go Right"; "Visit Node"]%string.

(** In [UpdateTraversal], [frame] is a C++ reference to [travStack.back()].
    The three blocks below are the bodies of its [if (frame.state == k)]
    branches; [frame :: below] is the vector on entry.

    [descend d k]:
    [if (n->d) { edgeA = n; edgeB = n->d; travStack.push_back({n->d, 0}); }
     frame.state = k;].
    A [push_back] on a full vector reallocates and invalidates [frame]; the
    assignment to [frame.state] that follows is then a write through a
    dangling reference. *)
Definition descend (d : dir) (k : Z) (frame : TravFrame)
    (below : list TravFrame) (s : State) : result State :=
  match node frame with
  | None => Fault NullDeref
  | Some p =>
      match deref (root s) p with
      | Null => Fault NullDeref
      | Nd l _ r =>
          match link (match d with L => l | R => r end) p d with
          | None => Ok (with_travStack (mkFrame (node frame) k :: below) s)
          | Some c =>
              if (length (frame :: below) <? travCap s)%nat then
                Ok (with_travStack
                      (mkFrame (Some c) 0 :: mkFrame (node frame) k :: below)
                      (with_edgeB (Some c) (with_edgeA (Some p) s)))
              else Fault DanglingRef
          end
      end
  end.

(** [visit k]: [travHighlight = n; n->color = ORANGE; frame.state = k;]. *)
Definition visit (k : Z) (frame : TravFrame) (below : list TravFrame)
    (s : State) : result State :=
  match node frame with
  | None => Fault NullDeref
  | Some p =>
      do rt <- store (root s) p (fun n => set_color n ORANGE) ;;
      Ok (with_travStack (mkFrame (node frame) k :: below)
            (with_travLog (travLog s ++ [p])
               (with_root rt (with_travHighlight (node frame) s))))
  end.

(** [travStack.pop_back()]. *)
Definition pop_frame (below : list TravFrame) (s : State) : result State :=
  Ok (with_travStack below s).

(** The [switch (mode)] of [UpdateTraversal], run once the dwell has
    elapsed. *)
Definition traversal_phase (frame : TravFrame) (below : list TravFrame)
    (s : State) : result State :=
  let n := node frame in
  match mode s with
  | TRAVERSING_IN =>
      if state frame =? 0 then
        descend L 1 frame below (with_travHighlight n s)
      else if state frame =? 1 then visit 2 frame below s
      else if state frame =? 2 then descend R 3 frame below s
      else if state frame =? 3 then pop_frame below s
      else Ok s
  | TRAVERSING_PRE =>
      if state frame =? 0 then visit 1 frame below s
      else if state frame =? 1 then descend L 2 frame below s
      else if state frame =? 2 then descend R 3 frame below s
      else if state frame =? 3 then pop_frame below s
      else Ok s
  | TRAVERSING_POST =>
      if state frame =? 0 then
        do s' <- descend L 1 frame below s ;; Ok (with_travHighlight n s')
      else if state frame =? 1 then
        do s' <- descend R 2 frame below s ;; Ok (with_travHighlight n s')
      else if state frame =? 2 then visit 3 frame below s
      else if state frame =? 3 then pop_frame below s
      else Ok s
  | _ => Ok s
  end.

(** [UpdateTraversal]: the test on the stack, the pacing block, the dwell
    of 0.8 s on [travTimer] (an exact sum here, rounded to binary32 in the
    code, see [pace]), then one phase of the frame on top. *)
Definition UpdateTraversal (dt : Q) (s : State) : result State :=
  match travStack s with
  | [] =>
      Ok (with_edgeB None (with_edgeA None
            (with_travHighlight None (with_mode IDLE s))))
  | frame :: below =>
      let s1 := pace dt s in
      let s2 := with_travTimer (travTimer s1 + dt)%Q s1 in
      if Qlt_bool (travTimer s2) 0.8%Q then Ok s2
      else
        let s3 := with_travTimer 0%Q s2 in
        let s4 := with_edgeB None (with_edgeA None s3) in
        traversal_phase frame below s4
  end.

(* ================================================================= *)
(** ** One turn of the loop in [main] *)

(** What the window system reports in one frame. *)
Record Input : Set := mkInput {
  frame_time : Q;
  key_up : bool; key_down : bool;
  click_insert : bool; click_search : bool; click_delete : bool;
  click_reset : bool;
  click_in : bool; click_pre : bool; click_post : bool
}.

Definition when (b : bool) (f : State -> result State) (s : State)
  : result State := if b then f s else Ok s.

Definition on_insert (s : State) : result State :=
  let rt := Insert (root s) (inputValue s) in
  Ok (StartInsertAnimation
        (with_root (SetPositions rt TREE_START_X TREE_START_Y 200) s)).

Definition on_reset (s : State) : result State :=
  let s1 := with_travHighlight None (with_current None (with_root Null s)) in
  let s2 := with_mode IDLE (with_travStack [] s1) in
  let s3 := with_algoStepIndex 0 (with_algoSteps [] s2) in
  do rt <- ResetTreeColors (root s3) ;;
  Ok (with_root rt s3).

Definition update_mode (dt : Q) (s : State) : result State :=
  match mode s with
  | INSERTING => Ok (pace dt s)
  | SEARCHING => UpdateSearch dt s
  | DELETING => UpdateDelete dt s
  | TRAVERSING_IN | TRAVERSING_PRE | TRAVERSING_POST => UpdateTraversal dt s
  | IDLE => Ok s
  end.

(** The body of [while (!WindowShouldClose())], drawing left out. *)
Definition main_frame (grow : nat -> nat) (i : Input) (s : State)
  : result State :=
  let dt := frame_time i in
  let s := if key_up i then with_inputValue (inputValue s + 1) s else s in
  let s := if key_down i then with_inputValue (inputValue s - 1) s else s in
  do s <- when (click_insert i) on_insert s ;;
  do s <- when (click_search i) (fun s => Ok (StartSearchAnimation s)) s ;;
  do s <- when (click_delete i) (fun s => Ok (StartDeleteAnimation s)) s ;;
  do s <- when (click_reset i) on_reset s ;;
  do s <- when (click_in i) (StartTraverseIn grow) s ;;
  do s <- when (click_pre i) (StartTraversePre grow) s ;;
  do s <- when (click_post i) (StartTraversePost grow) s ;;
  do rt <- AnimateNodes dt (root s) ;;
  update_mode dt (with_root rt s).

(** A run of the program: the frames of [inputs], oldest first. *)
Fixpoint run (grow : nat -> nat) (inputs : list Input) (s : State)
  : result State :=
  match inputs with
  | [] => Ok s
  | i :: rest => do s' <- main_frame grow i s ;; run grow rest s'
  end.

(** [n] consecutive calls of an update function with the same frame time. *)
Fixpoint iterate (n : nat) (step : State -> result State) (s : State)
  : result State :=
  match n with
  | O => Ok s
  | S k => do s' <- step s ;; iterate k step s'
  end.

(** A frame with no key and no click. *)
Definition quiet (dt : Q) : Input :=
  mkInput dt false false false false false false false false false.

(** The growth policy of libstdc++ and libc++: double, at least 1. *)
Definition grow_double (c : nat) : nat := Nat.max 1 (2 * c).

(** Frames of a session: one key press, or one click on a button. *)
Definition press_up (dt : Q) : Input :=
  mkInput dt true false false false false false false false false.
Definition press_down (dt : Q) : Input :=
  mkInput dt false true false false false false false false false.
Definition do_insert (dt : Q) : Input :=
  mkInput dt false false true false false false false false false.
Definition do_search (dt : Q) : Input :=
  mkInput dt false false false true false false false false false.
Definition do_delete (dt : Q) : Input :=
  mkInput dt false false false false true false false false false.
Definition do_in (dt : Q) : Input :=
  mkInput dt false false false false false false true false false.
Definition do_pre (dt : Q) : Input :=
  mkInput dt false false false false false false false true false.
Definition do_post (dt : Q) : Input :=
  mkInput dt false false false false false false false false true.

(** The frames in which a user brings [inputValue] from [from] to [to] with
    the arrow keys and then clicks INSERT. *)
Definition typing (dt : Q) (from to : Z) : list Input :=
  if from <=? to then repeat (press_up dt) (Z.to_nat (to - from))
  else repeat (press_down dt) (Z.to_nat (from - to)).

Fixpoint insert_session (dt : Q) (from : Z) (vs : list Z) : list Input :=
  match vs with
  | [] => []
  | v :: rest => typing dt from v ++ do_insert dt :: insert_session dt v rest
  end.

(** The keys of the nodes a list of pointers leads to. *)
Definition keys_at (t : tree) (ps : list ptr) : list Z :=
  flat_map (fun p => match deref t p with
                     | Null => []
                     | Nd _ n _ => [value n]
                     end) ps.

(** Keys whose insertion, in this order, builds a right spine of [k] nodes
    [1, 3, 5, ...], each with a left child [0, 2, 4, ...]. *)
Definition zigzag (k : nat) : list Z :=
  flat_map (fun i => [2 * Z.of_nat i + 1; 2 * Z.of_nat i]) (seq 0 k).

(** The update functions as the loop in [main] calls them, one call per
    frame time in [dts], oldest first. *)
Fixpoint ticks (dts : list Q) (s : State) : result State :=
  match dts with
  | [] => Ok s
  | dt :: rest => do s' <- update_mode dt s ;; ticks rest s'
  end.

(** A history of committed mutations: what the INSERT button and the commit
    phase of the delete animation do to [root]. *)
Inductive op : Set := Ins (v : Z) | Del (v : Z).

Definition apply_op (t : tree) (o : op) : tree :=
  match o with
  | Ins v => SetPositions (Insert t v) TREE_START_X TREE_START_Y 200
  | Del v => SetPositions (DeleteNode t v) TREE_START_X TREE_START_Y 200
  end.

Definition build (ops : list op) : tree := fold_left apply_op ops Null.

(** The payload [CreateNode] gives a new node. *)
Definition fresh (v : Z) : Node :=
  mkNode v (inject_Z TREE_START_X) (-100)%Q
         (inject_Z TREE_START_X) (inject_Z TREE_START_Y) 1%Q LIGHTGRAY.

(** The node a pointer leads to, if any. *)
Definition node_at (t : tree) (p : option ptr) : option Node :=
  match p with
  | None => None
  | Some q => match deref t q with
              | Null => None
              | Nd _ n _ => Some n
              end
  end.

(** What an observer sees of the delete animation: the mode, the phase
    index, the number of colour toggles so far, and the height, opacity and
    key of the target node. *)
Definition delete_view (r : result State)
  : option (Mode * Z * Z * option (Z * Q * Q)) :=
  match r with
  | Fault _ => None
  | Ok s =>
      Some (mode s, algoStepIndex s, delFlashCount s,
            match node_at (root s) (delNode s) with
            | None => None
            | Some n => Some (value n, Qred (y n), Qred (alpha n))
            end)
  end.

(** The keys of the tree a run ends with, in order. *)
Definition final_keys (r : result State) : option (list Z) :=
  match r with
  | Fault _ => None
  | Ok s => Some (inorder (root s))
  end.

(** The key of the node [delNode] points to. *)
Definition target_key (r : result State) : option Z :=
  match r with
  | Fault _ => None
  | Ok s => option_map value (node_at (root s) (delNode s))
  end.

(** The comparisons of [UpdateSearch] run to their end on a subtree:
    [true] when an equal key is met, [false] when the cursor falls off. *)
Fixpoint lookup (v : Z) (t : tree) : bool :=
  match t with
  | Null => false
  | Nd l n r =>
      if v =? value n then true
      else if v <? value n then lookup v l
      else lookup v r
  end.

(** [k] frames of length [d]. *)
Fixpoint times (k : nat) (d : Q) : Q :=
  match k with
  | O => 0%Q
  | S j => (d + times j d)%Q
  end.

(** What one fired comparison of [UpdateSearch] does to a state whose cursor
    is the node [Nd l n r] at [p]. *)
Definition stepped (s : State) (p : ptr) (l : tree) (n : Node) (r : tree)
    (s1 : State) : Prop :=
  root s1 = root s /\ inputValue s1 = inputValue s /\ moveTimer s1 = 0%Q
  /\ if inputValue s =? value n then found s1 = true /\ mode s1 = IDLE
     else found s1 = found s /\ mode s1 = SEARCHING
          /\ current s1 = if inputValue s <? value n then link l p L
                          else link r p R.

(** The cursor [c] designates the subtree [sub] of [t]. *)
Definition cursor_at (t : tree) (c : option ptr) (sub : tree) : Prop :=
  match c with
  | None => sub = Null
  | Some p => deref t p = sub /\ sub <> Null
  end.

(** The tree [t] with the subtree at [p] replaced by [sub]. *)
Fixpoint graft (t : tree) (p : ptr) (sub : tree) {struct p} : tree :=
  match p with
  | [] => sub
  | d :: q =>
      match t with
      | Null => Null
      | Nd l n r =>
          match d with
          | L => Nd (graft l q sub) n r
          | R => Nd l n (graft r q sub)
          end
      end
  end.

(** The stack slots a subtree at [p] occupies before it is walked: one
    pointer, none for an absent subtree. *)
Definition pending (sub : tree) (p : ptr) : list ptr :=
  match sub with
  | Null => []
  | Nd _ _ _ => [p]
  end.

(** The pointers to the nodes of the subtree [t] found at [p], in the order
    of the three recursive traversals. *)
Fixpoint inorder_from (p : ptr) (t : tree) : list ptr :=
  match t with
  | Null => []
  | Nd l _ r => inorder_from (p ++ [L]) l ++ p :: inorder_from (p ++ [R]) r
  end.

Fixpoint preorder_from (p : ptr) (t : tree) : list ptr :=
  match t with
  | Null => []
  | Nd l _ r => p :: preorder_from (p ++ [L]) l ++ preorder_from (p ++ [R]) r
  end.

Fixpoint postorder_from (p : ptr) (t : tree) : list ptr :=
  match t with
  | Null => []
  | Nd l _ r =>
      postorder_from (p ++ [L]) l ++ postorder_from (p ++ [R]) r ++ [p]
  end.

(** The frames a subtree at [p] occupies before the engine enters it. *)
Definition frames0 (sub : tree) (p : ptr) : list TravFrame :=
  match sub with
  | Null => []
  | Nd _ _ _ => [mkFrame (Some p) 0]
  end.

(** The colour given by the visit phase. *)
Definition orange (n : Node) : Node := set_color n ORANGE.

(** The state in which [UpdateTraversal] enters its [switch] when the dwell
    has elapsed: pacing done, [travTimer] reset, edge highlight cleared. *)
Definition fired (dt : Q) (s : State) : State :=
  with_edgeB None
    (with_edgeA None
       (with_travTimer 0%Q
          (with_travTimer (travTimer (pace dt s) + dt)%Q (pace dt s)))).

(** What the engine needs to know of a state between two phases: the mode,
    the capacity and elements of [travStack], the tree and the log, with the
    dwell timer at zero. *)
Definition engine_at (s : State) (m : Mode) (cap : nat)
    (stack : list TravFrame) (rt : tree) (log : list ptr) : Prop :=
  mode s = m /\ travCap s = cap /\ travTimer s = 0%Q
  /\ travStack s = stack /\ root s = rt /\ travLog s = log.

(** The table of [UpdateTraversal]: what the branch for frame state [st]
    does in each traversal mode. *)
Inductive action : Set :=
| Descend (d : dir) (k : Z)
| Visit (k : Z)
| Pop.

Definition phase_action (m : Mode) (st : Z) : option action :=
  match m with
  | TRAVERSING_IN =>
      if st =? 0 then Some (Descend L 1)
      else if st =? 1 then Some (Visit 2)
      else if st =? 2 then Some (Descend R 3)
      else if st =? 3 then Some Pop else None
  | TRAVERSING_PRE =>
      if st =? 0 then Some (Visit 1)
      else if st =? 1 then Some (Descend L 2)
      else if st =? 2 then Some (Descend R 3)
      else if st =? 3 then Some Pop else None
  | TRAVERSING_POST =>
      if st =? 0 then Some (Descend L 1)
      else if st =? 1 then Some (Descend R 2)
      else if st =? 2 then Some (Visit 3)
      else if st =? 3 then Some Pop else None
  | _ => None
  end.

(** The invariant of the delete animation that bounds the Flash phase: in
    Flash ([algoStepIndex = 1]) every toggle so far has used up more than
    0.12 s of the at most 0.5 s the pacing block grants. *)
Definition flash_inv (s : State) : Prop :=
  length (algoSteps s) = 5%nat /\ (0 <= algoTimer s)%Q
  /\ (0 <= delFlashTimer s)%Q /\ 0 <= delFlashCount s
  /\ ((algoStepIndex s = 0 /\ delFlashCount s = 0 /\ (delFlashTimer s == 0)%Q)
      \/ (algoStepIndex s = 1
          /\ (delFlashTimer s + 0.12 * inject_Z (delFlashCount s)
              <= algoTimer s + 0.12)%Q
          /\ (algoTimer s <= 0.5)%Q)
      \/ (2 <= algoStepIndex s <= 4 /\ delFlashCount s <= 5)).

(** The number of colour toggles made so far. *)
Definition toggles (r : result State) : Z :=
  match r with
  | Ok s => delFlashCount s
  | Fault _ => 0
  end.

(** The target [SetPositions] computes for the position [p], from the
    arguments it is called with at the root. *)
Fixpoint target_of (p : ptr) (x0 y0 offset : Z) : Z * Z :=
  match p with
  | [] => (x0, y0)
  | L :: q => target_of q (x0 - offset) (y0 + 80) (offset ÷ 2)
  | R :: q => target_of q (x0 + offset) (y0 + 80) (offset ÷ 2)
  end.

(** A click on RESET. *)
Definition do_reset (dt : Q) : Input :=
  mkInput dt false false false false false true false false false.

(** The shape and keys of a tree: every node reduced to its key. *)
Definition skel (t : tree) : tree := tmap (fun n => fresh (value n)) t.

(** The delete animation is running on the node at [p] for the key [v], on
    a tree with the shape and keys of [t0]. *)
Definition deleting (v : Z) (p : ptr) (t0 : tree) (s : State) : Prop :=
  mode s = DELETING /\ delNode s = Some p /\ inputValue s = v
  /\ skel (root s) = skel t0 /\ deref t0 p <> Null
  /\ length (algoSteps s) = 5%nat /\ 0 <= algoStepIndex s <= 4
  /\ (0 <= algoTimer s)%Q.

(** The animation has committed: the machine is idle and the tree has the
    shape and keys of [DeleteNode t0 v]. *)
Definition delete_committed (v : Z) (t0 : tree) (s : State) : Prop :=
  mode s = IDLE /\ skel (root s) = skel (DeleteNode t0 v).

(** The tree after a call of an update function, or the tree before it if
    the call faults. *)
Definition tree_after (t : tree) (r : result State) : tree :=
  match r with
  | Ok s => root s
  | Fault _ => t
  end.

(** The insert animation is showing, on a tree with the shape and keys of
    [t0], with the cursor [current] on the root. *)
Definition inserting (t0 : tree) (s : State) : Prop :=
  mode s = INSERTING /\ skel (root s) = skel t0 /\ current s = Some []
  /\ length (algoSteps s) = 5%nat /\ 0 <= algoStepIndex s <= 4.

(** The lines [DrawAlgorithmPanel] writes under its heading: the labels
    [algoSteps[i]] for [i = 0; i <= algoStepIndex && i < algoSteps.size()]. *)
Definition panel (s : State) : list string :=
  firstn (Z.to_nat (algoStepIndex s + 1)) (algoSteps s).

(** What an observer sees of the search: mode, cursor and [found]. *)
Definition search_view (r : result State)
  : option (Mode * option ptr * bool) :=
  match r with
  | Fault _ => None
  | Ok s => Some (mode s, current s, found s)
  end.

(** The time a list of frames takes. *)
Fixpoint total (dts : list Q) : Q :=
  match dts with
  | [] => 0%Q
  | dt :: rest => (dt + total rest)%Q
  end.

(** The values the [float] literals [0.12f], [0.6f] and [0.8f] of the
    code denote in binary32 ([0.5f] denotes 1/2). *)
Definition binary32_0_12 : Q := 16106127 # 134217728.
Definition binary32_0_6 : Q := 5033165 # 8388608.
Definition binary32_0_8 : Q := 13421773 # 16777216.

(** The three traversal modes. *)
Definition traversing (m : Mode) : Prop :=
  m = TRAVERSING_IN \/ m = TRAVERSING_PRE \/ m = TRAVERSING_POST.

(* ================================================================= *)
(** * Properties *)

(* ----------------------------------------------------------------- *)
(** ** The mutation engine: [Insert] *)

Ltac cmp :=
  repeat match goal with
    | H : (_ >? _) = _ |- _ => rewrite Z.gtb_ltb in H
    | H : (_ <? _) = true |- _ => apply Z.ltb_lt in H
    | H : (_ <? _) = false |- _ => apply Z.ltb_ge in H
    | H : (_ =? _) = true |- _ => apply Z.eqb_eq in H
    | H : (_ =? _) = false |- _ => apply Z.eqb_neq in H
    end.

Lemma InT_Insert (t : tree) (v u : Z) :
  InT u (Insert t v) <-> u = v \/ InT u t.
Proof.
  induction t as [|l IHl n r IHr]; simpl.
  - tauto.
  - destruct (v <? value n) eqn:E1; [|destruct (v >? value n) eqn:E2];
      simpl; cmp; rewrite ?IHl, ?IHr; intuition lia.
Qed.

Lemma BST_Insert (t : tree) (v : Z) : BST t -> BST (Insert t v).
Proof.
  induction t as [|l IHl n r IHr]; simpl.
  - unfold tree_lt, tree_gt; simpl; tauto.
  - intros (Hl & Hr & Bl & Br).
    destruct (v <? value n) eqn:E1; [|destruct (v >? value n) eqn:E2];
      simpl; cmp; repeat split; auto.
    + intros u Hu. apply InT_Insert in Hu. destruct Hu; [lia | auto].
    + intros u Hu. apply InT_Insert in Hu. destruct Hu; [lia | auto].
Qed.

Lemma BST_insert_all (vs : list Z) (t : tree) :
  BST t -> BST (insert_all vs t).
Proof.
  revert t. induction vs as [|v vs IH]; intros t Ht; simpl; auto.
  apply IH, BST_Insert, Ht.
Qed.

Lemma InT_insert_all (vs : list Z) (t : tree) (u : Z) :
  InT u (insert_all vs t) <-> In u vs \/ InT u t.
Proof.
  revert t. induction vs as [|v vs IH]; intros t; simpl.
  - tauto.
  - unfold insert_all in IH. rewrite IH, InT_Insert. intuition.
Qed.

Lemma Insert_present (t : tree) (v : Z) : BST t -> InT v t -> Insert t v = t.
Proof.
  induction t as [|l IHl n r IHr]; simpl; [tauto|].
  intros (Hl & Hr & Bl & Br) Hin.
  destruct (v <? value n) eqn:E1; [|destruct (v >? value n) eqn:E2];
    cmp; auto.
  - destruct Hin as [H|[H|H]]; [ | lia | apply Hr in H; lia ].
    now rewrite IHl.
  - destruct Hin as [H|[H|H]]; [ apply Hl in H; lia | lia | ].
    now rewrite IHr.
Qed.

Lemma Insert_twice (t : tree) (v : Z) : Insert (Insert t v) v = Insert t v.
Proof.
  induction t as [|l IHl n r IHr]; simpl.
  - now rewrite Z.ltb_irrefl, Z.gtb_ltb, Z.ltb_irrefl.
  - destruct (v <? value n) eqn:E1; [|destruct (v >? value n) eqn:E2];
      simpl; rewrite E1, ?E2, ?IHl, ?IHr; reflexivity.
Qed.

(** C3.  Whatever finite sequence of integers is inserted, in order, into
    the empty tree, the tree obtained satisfies the ordering invariant: at
    every node the keys of the left subtree are strictly smaller and the
    keys of the right subtree strictly greater than the node's key. *)
Theorem C3_inserts_keep_BST (vs : list Z) : BST (insert_all vs Null).
Proof. apply BST_insert_all. exact I. Qed.

(** C8.  Inserting a key that a search tree already holds returns the very
    same tree: no node is added and no field of any node changes.  Hence a
    second insertion of a key changes nothing after the first. *)
Theorem C8_duplicate_insert_noop (t : tree) (v : Z) :
  BST t -> InT v t ->
  Insert t v = t /\ Insert (Insert t v) v = Insert t v.
Proof.
  intros B H. split; [now apply Insert_present | apply Insert_twice].
Qed.

Lemma C8_duplicate_insert_noop_witness :
  let t := insert_all [50; 30; 70] Null in
  Insert t 30 = t /\ Insert (Insert t 30) 30 = Insert t 30.
Proof.
  apply (C8_duplicate_insert_noop (insert_all [50; 30; 70] Null) 30).
  - apply BST_insert_all. exact I.
  - simpl. tauto.
Defined.

(* ----------------------------------------------------------------- *)
(** ** The mutation engine: [DeleteNode] *)

Lemma MinNode_not_Null (t : tree) : t <> Null -> MinNode t <> Null.
Proof.
  induction t as [|l IHl n r _]; [congruence|].
  intros _. destruct l as [|ll ln lr]; [discriminate|].
  apply IHl. discriminate.
Qed.

(** The node [MinNode] returns has no left child, and its key is the least
    key of the tree. *)
Lemma MinNode_spec (t ml mr : tree) (m : Node) :
  BST t -> MinNode t = Nd ml m mr ->
  ml = Null /\ InT (value m) t /\ forall u, InT u t -> value m <= u.
Proof.
  induction t as [|l IHl n r _]; [discriminate|].
  intros (Hl & Hr & Bl & Br) E.
  destruct l as [|ll ln lr].
  - injection E as <- <- <-. split; [reflexivity|].
    split; [simpl; tauto|].
    intros u Hu. simpl in Hu.
    destruct Hu as [[]|[->|H]]; [lia | apply Hr in H; lia].
  - change (MinNode (Nd ll ln lr) = Nd ml m mr) in E.
    destruct (IHl Bl E) as (-> & Hin & Hmin).
    split; [reflexivity|]. split; [left; exact Hin|].
    intros u [H|[->|H]].
    + now apply Hmin.
    + apply Hl in Hin. lia.
    + apply Hl in Hin. apply Hr in H. lia.
Qed.

(** One unfolding of [DeleteNode]. *)
Lemma DeleteNode_Nd (l r : tree) (n : Node) (v : Z) :
  DeleteNode (Nd l n r) v =
  if v <? value n then Nd (DeleteNode l v) n r
  else if v >? value n then Nd l n (DeleteNode r v)
  else match l, r with
       | Null, Null => Null
       | Null, _ => r
       | _, Null => l
       | _, _ =>
           match MinNode r with
           | Nd _ t _ => Nd l (set_value n (value t)) (DeleteNode r (value t))
           | Null => Nd l n r
           end
       end.
Proof. reflexivity. Qed.

(** The two-children branch of [DeleteNode], as an equation. *)
Lemma DeleteNode_two_children (l r ml mr : tree) (n m : Node) :
  l <> Null -> r <> Null -> MinNode r = Nd ml m mr ->
  DeleteNode (Nd l n r) (value n)
  = Nd l (set_value n (value m)) (DeleteNode r (value m)).
Proof.
  intros Hl Hr E.
  rewrite DeleteNode_Nd, Z.ltb_irrefl, Z.gtb_ltb, Z.ltb_irrefl, E.
  destruct l; [congruence|]. destruct r; [congruence|]. reflexivity.
Qed.

Lemma InT_DeleteNode (t : tree) :
  BST t -> forall v u, InT u (DeleteNode t v) <-> InT u t /\ u <> v.
Proof.
  induction t as [|l IHl n r IHr]; intros B v u; [simpl; tauto|].
  destruct B as (Hl & Hr & Bl & Br).
  assert (Ll : forall w, InT w l -> w < value n) by exact Hl.
  assert (Lr : forall w, InT w r -> value n < w) by exact Hr.
  destruct (Z.lt_trichotomy v (value n)) as [C|[C|C]].
  - simpl. apply Z.ltb_lt in C as C'. rewrite C'. simpl.
    rewrite (IHl Bl). specialize (Ll u). specialize (Lr u).
    intuition lia.
  - subst v.
    destruct l as [|ll ln lr]; [|destruct r as [|rl rn rr]].
    + simpl. rewrite Z.ltb_irrefl, Z.gtb_ltb, Z.ltb_irrefl.
      specialize (Lr u).
      destruct r; simpl in *; intuition lia.
    + simpl. rewrite Z.ltb_irrefl, Z.gtb_ltb, Z.ltb_irrefl.
      specialize (Ll u). simpl in *. intuition lia.
    + destruct (MinNode (Nd rl rn rr)) as [|ml m mr] eqn:E.
      { exfalso. revert E. apply MinNode_not_Null. discriminate. }
      assert (Nl : Nd ll ln lr <> Null) by discriminate.
      assert (Nr : Nd rl rn rr <> Null) by discriminate.
      rewrite (DeleteNode_two_children _ _ _ _ n _ Nl Nr E).
      destruct (MinNode_spec _ _ _ _ Br E) as (_ & Hin & Hmin).
      change (InT u (Nd ll ln lr) \/ u = value m
              \/ InT u (DeleteNode (Nd rl rn rr) (value m))
              <-> (InT u (Nd ll ln lr) \/ u = value n
                   \/ InT u (Nd rl rn rr)) /\ u <> value n).
      rewrite (IHr Br).
      pose proof (Lr _ Hin) as Hm.
      specialize (Ll u). specialize (Lr u).
      destruct (Z.eq_dec u (value m)); intuition (subst; auto; lia).
  - simpl. assert (C1 : (v <? value n) = false) by (apply Z.ltb_ge; lia).
    assert (C2 : (v >? value n) = true) by (rewrite Z.gtb_ltb; apply Z.ltb_lt; lia).
    rewrite C1, C2. simpl.
    rewrite (IHr Br). specialize (Ll u). specialize (Lr u).
    intuition lia.
Qed.

Lemma BST_DeleteNode (t : tree) : BST t -> forall v, BST (DeleteNode t v).
Proof.
  induction t as [|l IHl n r IHr]; intros B v; [exact I|].
  pose proof B as (Hl & Hr & Bl & Br).
  destruct (Z.lt_trichotomy v (value n)) as [C|[C|C]].
  - simpl. apply Z.ltb_lt in C as C'. rewrite C'. simpl.
    repeat split; auto.
    intros u Hu. apply (InT_DeleteNode _ Bl) in Hu. apply Hl, Hu.
  - subst v.
    destruct l as [|ll ln lr]; [|destruct r as [|rl rn rr]].
    + simpl. rewrite Z.ltb_irrefl, Z.gtb_ltb, Z.ltb_irrefl.
      destruct r; [exact I | exact Br].
    + simpl. rewrite Z.ltb_irrefl, Z.gtb_ltb, Z.ltb_irrefl. exact Bl.
    + destruct (MinNode (Nd rl rn rr)) as [|ml m mr] eqn:E.
      { exfalso. revert E. apply MinNode_not_Null. discriminate. }
      assert (Nl : Nd ll ln lr <> Null) by discriminate.
      assert (Nr : Nd rl rn rr <> Null) by discriminate.
      rewrite (DeleteNode_two_children _ _ _ _ n _ Nl Nr E).
      destruct (MinNode_spec _ _ _ _ Br E) as (_ & Hin & Hmin).
      change (tree_lt (Nd ll ln lr) (value m)
              /\ tree_gt (DeleteNode (Nd rl rn rr) (value m)) (value m)
              /\ BST (Nd ll ln lr)
              /\ BST (DeleteNode (Nd rl rn rr) (value m))).
      pose proof (Hr _ Hin) as Hm.
      split; [|split; [|split; [exact Bl | apply (IHr Br)]]].
      * intros u Hu. apply Hl in Hu. lia.
      * intros u Hu. apply (InT_DeleteNode _ Br) in Hu.
        destruct Hu as [Hu Hne]. apply Hmin in Hu. lia.
  - simpl. assert (C1 : (v <? value n) = false) by (apply Z.ltb_ge; lia).
    assert (C2 : (v >? value n) = true) by (rewrite Z.gtb_ltb; apply Z.ltb_lt; lia).
    rewrite C1, C2. simpl. repeat split; auto.
    intros u Hu. apply (InT_DeleteNode _ Br) in Hu. apply Hr, Hu.
Qed.

Lemma size_DeleteNode (t : tree) :
  BST t -> forall v, InT v t -> S (size (DeleteNode t v)) = size t.
Proof.
  induction t as [|l IHl n r IHr]; intros B v Hin; [destruct Hin|].
  pose proof B as (Hl & Hr & Bl & Br).
  destruct (Z.lt_trichotomy v (value n)) as [C|[C|C]].
  - simpl. apply Z.ltb_lt in C as C'. rewrite C'. simpl.
    destruct Hin as [H|[H|H]]; [ | lia | apply Hr in H; lia].
    rewrite <- (IHl Bl v H). lia.
  - subst v.
    destruct l as [|ll ln lr]; [|destruct r as [|rl rn rr]].
    + simpl. rewrite Z.ltb_irrefl, Z.gtb_ltb, Z.ltb_irrefl.
      destruct r; reflexivity.
    + simpl. rewrite Z.ltb_irrefl, Z.gtb_ltb, Z.ltb_irrefl. simpl. lia.
    + destruct (MinNode (Nd rl rn rr)) as [|ml m mr] eqn:E.
      { exfalso. revert E. apply MinNode_not_Null. discriminate. }
      assert (Nl : Nd ll ln lr <> Null) by discriminate.
      assert (Nr : Nd rl rn rr <> Null) by discriminate.
      rewrite (DeleteNode_two_children _ _ _ _ n _ Nl Nr E).
      destruct (MinNode_spec _ _ _ _ Br E) as (_ & Hm & _).
      change (S (S (size (Nd ll ln lr)
                    + size (DeleteNode (Nd rl rn rr) (value m))))
              = S (size (Nd ll ln lr) + size (Nd rl rn rr))).
      rewrite <- (IHr Br _ Hm). lia.
  - simpl. assert (C1 : (v <? value n) = false) by (apply Z.ltb_ge; lia).
    assert (C2 : (v >? value n) = true) by (rewrite Z.gtb_ltb; apply Z.ltb_lt; lia).
    rewrite C1, C2. simpl.
    destruct Hin as [H|[H|H]]; [apply Hl in H; lia | lia | ].
    rewrite <- (IHr Br v H). lia.
Qed.

Lemma DeleteNode_absent (t : tree) (v : Z) : ~ InT v t -> DeleteNode t v = t.
Proof.
  induction t as [|l IHl n r IHr]; simpl; [reflexivity|].
  intros H.
  destruct (v <? value n) eqn:E1; [|destruct (v >? value n) eqn:E2]; cmp.
  - rewrite IHl; tauto.
  - rewrite IHr; tauto.
  - exfalso. apply H. right. left. lia.
Qed.

Lemma In_inorder (t : tree) (u : Z) : In u (inorder t) <-> InT u t.
Proof.
  induction t as [|l IHl n r IHr]; simpl; [tauto|].
  rewrite in_app_iff. simpl. rewrite IHl, IHr. intuition.
Qed.

(** The keys of a search tree are pairwise distinct. *)
Lemma BST_NoDup (t : tree) : BST t -> NoDup (inorder t).
Proof.
  induction t as [|l IHl n r IHr]; simpl; [constructor|].
  intros (Hl & Hr & Bl & Br).
  apply NoDup_app; [auto | |].
  - constructor; [|auto].
    rewrite In_inorder. intros H. apply Hr in H. lia.
  - intros u Hu [<-|Hv]; apply In_inorder in Hu; apply Hl in Hu; [lia|].
    apply In_inorder in Hv. apply Hr in Hv. lia.
Qed.

Lemma InT_deref (p : ptr) :
  forall t l n r, deref t p = Nd l n r -> InT (value n) t.
Proof.
  induction p as [|d q IH]; intros t l n r H.
  - simpl in H. subst t. simpl. tauto.
  - destruct t as [|tl tn tr]; [discriminate H|].
    destruct d; simpl in H; apply IH in H; simpl; tauto.
Qed.

Lemma BST_deref (p : ptr) : forall t, BST t -> BST (deref t p).
Proof.
  induction p as [|d q IH]; intros t B; [exact B|].
  destruct t as [|tl tn tr]; [exact I|].
  destruct B as (_ & _ & Bl & Br). destruct d; simpl; now apply IH.
Qed.

(** In a search tree, deleting the key of the node at [p] rebuilds the
    path to [p] as it was and deletes at the subtree of [p]. *)
Lemma DeleteNode_at (p : ptr) :
  forall t l n r,
    BST t -> deref t p = Nd l n r ->
    DeleteNode t (value n) = graft t p (DeleteNode (Nd l n r) (value n)).
Proof.
  induction p as [|d q IH]; intros t l n r B H.
  - simpl in H. now subst t.
  - destruct t as [|tl tn tr]; [discriminate H|].
    destruct B as (Hl & Hr & Bl & Br).
    rewrite DeleteNode_Nd.
    destruct d; simpl in H; pose proof (InT_deref _ _ _ _ _ H) as Hin.
    + apply Hl in Hin. apply Z.ltb_lt in Hin. rewrite Hin.
      cbn [graft]. now rewrite (IH tl l n r Bl H).
    + apply Hr in Hin.
      assert (C1 : (value n <? value tn) = false) by (apply Z.ltb_ge; lia).
      assert (C2 : (value n >? value tn) = true)
        by (rewrite Z.gtb_ltb; apply Z.ltb_lt; lia).
      rewrite C1, C2. cbn [graft]. now rewrite (IH tr l n r Br H).
Qed.

(** C2.  Deleting a key that a search tree holds removes exactly one node
    and leaves a search tree, whichever of the three structural cases
    applies; the deleted key is gone, every other key stays, and no key
    occurs twice.  Wherever in the tree the node holding the key is, the
    rest of the tree is untouched and the subtree of the node is replaced:
    by its right subtree when it has no left child (by nothing when it is
    a leaf), by its left subtree when it has no right child; and when it
    has two children, the node keeps its place and its children, receives
    the least key of its right subtree, and that key is then deleted from
    the right subtree, which loses exactly one node and no longer holds
    it. *)
Theorem C2_delete_present (t : tree) (v : Z) :
  BST t -> InT v t ->
  S (size (DeleteNode t v)) = size t
  /\ BST (DeleteNode t v)
  /\ (forall u, InT u (DeleteNode t v) <-> InT u t /\ u <> v)
  /\ NoDup (inorder (DeleteNode t v))
  /\ (exists p l n r, deref t p = Nd l n r /\ value n = v)
  /\ (forall p l n r,
        deref t p = Nd l n r -> value n = v ->
        (l = Null -> DeleteNode t v = graft t p r)
        /\ (l <> Null -> r = Null -> DeleteNode t v = graft t p l)
        /\ (l <> Null -> r <> Null ->
            exists m mr,
              MinNode r = Nd Null m mr
              /\ InT (value m) r
              /\ (forall u, InT u r -> value m <= u)
              /\ DeleteNode t v
                 = graft t p (Nd l (set_value n (value m))
                                   (DeleteNode r (value m)))
              /\ S (size (DeleteNode r (value m))) = size r
              /\ ~ InT (value m) (DeleteNode r (value m)))).
Proof.
  intros B Hin.
  split; [now apply size_DeleteNode|].
  split; [now apply BST_DeleteNode|].
  split; [now apply InT_DeleteNode|].
  split; [now apply BST_NoDup, BST_DeleteNode|].
  split.
  { clear B. induction t as [|l IHl n r IHr]; [destruct Hin|].
    destruct Hin as [H|[H|H]].
    - destruct (IHl H) as (p & a & m & b & E & Hv).
      exists (L :: p), a, m, b. now split.
    - exists [], l, n, r. now split.
    - destruct (IHr H) as (p & a & m & b & E & Hv).
      exists (R :: p), a, m, b. now split. }
  intros p l n r Hd <-.
  rewrite (DeleteNode_at p t l n r B Hd).
  pose proof (BST_deref p t B) as Bs. rewrite Hd in Bs.
  destruct Bs as (_ & _ & _ & Br).
  rewrite DeleteNode_Nd, Z.ltb_irrefl, Z.gtb_ltb, Z.ltb_irrefl.
  split; [|split].
  - intros ->. destruct r; reflexivity.
  - intros Nl ->. destruct l; [congruence | reflexivity].
  - intros Nl Nr.
    destruct (MinNode r) as [|ml m mr] eqn:E.
    { exfalso. revert E. now apply MinNode_not_Null. }
    destruct (MinNode_spec _ _ _ _ Br E) as (-> & Hm & Hmin).
    exists m, mr. split; [reflexivity|]. split; [exact Hm|].
    split; [exact Hmin|]. split.
    + destruct l; [congruence|]. destruct r; [congruence|]. reflexivity.
    + split; [now apply size_DeleteNode|].
      intros H. apply (InT_DeleteNode _ Br) in H. now destruct H.
Qed.

Lemma C2_delete_present_witness :
  let t := insert_all [50; 30; 70; 20; 40; 35] Null in
  (DeleteNode t 30
   = graft t [L] (Nd (CreateNode 20) (fresh 35) (CreateNode 40))
   /\ deref t [L]
      = Nd (CreateNode 20) (fresh 30)
           (Nd (CreateNode 35) (fresh 40) Null))
  /\ S (size (DeleteNode t 30)) = size t
  /\ BST (DeleteNode t 30)
  /\ (forall u, InT u (DeleteNode t 30) <-> InT u t /\ u <> 30)
  /\ NoDup (inorder (DeleteNode t 30))
  /\ (exists p l n r, deref t p = Nd l n r /\ value n = 30)
  /\ (forall p l n r,
        deref t p = Nd l n r -> value n = 30 ->
        (l = Null -> DeleteNode t 30 = graft t p r)
        /\ (l <> Null -> r = Null -> DeleteNode t 30 = graft t p l)
        /\ (l <> Null -> r <> Null ->
            exists m mr,
              MinNode r = Nd Null m mr
              /\ InT (value m) r
              /\ (forall u, InT u r -> value m <= u)
              /\ DeleteNode t 30
                 = graft t p (Nd l (set_value n (value m))
                                   (DeleteNode r (value m)))
              /\ S (size (DeleteNode r (value m))) = size r
              /\ ~ InT (value m) (DeleteNode r (value m)))).
Proof.
  split; [split; reflexivity|].
  apply (C2_delete_present (insert_all [50; 30; 70; 20; 40; 35] Null) 30).
  - apply BST_insert_all. exact I.
  - simpl. tauto.
Defined.

(* ----------------------------------------------------------------- *)
(** ** Locating the node to delete *)

Lemma locate_absent (t : tree) (p : ptr) (v : Z) :
  ~ InT v t -> locate t p v = None.
Proof.
  revert p. induction t as [|l IHl n r IHr]; intros p H; simpl; [reflexivity|].
  simpl in H.
  destruct (value n =? v) eqn:E; cmp; [exfalso; auto|].
  destruct (v <? value n); [apply IHl | apply IHr]; tauto.
Qed.

(** C7, where the code departs from the claim.  On the program as it
    starts (empty tree, nothing in the side panel) a delete finds no node,
    yet the panel shows a line afterwards; and a delete of an absent key
    while a search is running ends the search, leaving its cursor drawn. *)
Lemma C7_absent_delete_is_visible :
  (~ InT (inputValue initial) (root initial)
   /\ panel initial = []
   /\ panel (StartDeleteAnimation initial) = ["Find node"%string])
  /\ (let s := StartSearchAnimation
                 (with_inputValue 60
                    (with_root (insert_all [50; 30; 70] Null) initial)) in
      ~ InT (inputValue s) (root s)
      /\ mode s = SEARCHING /\ current s = Some []
      /\ mode (StartDeleteAnimation s) = IDLE
      /\ current (StartDeleteAnimation s) = Some []
      /\ panel s = ["Start at root"%string]
      /\ panel (StartDeleteAnimation s) = ["Find node"%string]).
Proof.
  split.
  - split; [simpl; tauto|]. split; reflexivity.
  - cbv zeta. split; [simpl; lia|]. repeat split.
Qed.

(** C7, amended.  When the key in [inputValue] is not in the tree (in
    particular when the tree is empty), [DeleteNode] returns the tree as it
    is, and [StartDeleteAnimation] returns in mode [IDLE] with the tree
    untouched (every node keeps its key, links, position, opacity and
    colour) and no delete phase is run by the frames that follow.  It is
    not without effect: it replaces the labels of the side panel by the
    five of the delete animation with the cursor on the first, so that the
    panel shows the line "Find node", it zeroes [algoTimer], [delNode],
    [delFlashTimer] and [delFlashCount], and by forcing [IDLE] it ends
    whatever animation was running.  Everything else is left as it was:
    [inputValue], the search cursor and [found], the dwell timers, the
    traversal stack, its highlights and its timer. *)
Theorem C7_delete_absent (s : State) :
  ~ InT (inputValue s) (root s) ->
  DeleteNode (root s) (inputValue s) = root s
  /\ StartDeleteAnimation s
     = mkState (root s) (inputValue s) (current s) (found s) IDLE
         ["Find node"; "Flash target node"; "Drop node"; "Fade node";
          "Delete & restructure"]%string
         0 0%Q (moveTimer s) None 0%Q 0
         (travStack s) (travCap s) (travHighlight s) (edgeA s) (edgeB s)
         (travTimer s) (travLog s)
  /\ panel (StartDeleteAnimation s) = ["Find node"%string]
  /\ forall dt, update_mode dt (StartDeleteAnimation s)
                = Ok (StartDeleteAnimation s).
Proof.
  intros H.
  split; [now apply DeleteNode_absent|].
  unfold StartDeleteAnimation, start_steps. cbn.
  rewrite (locate_absent _ [] _ H). cbn.
  repeat split.
Qed.

Lemma C7_delete_absent_witness :
  let s := StartSearchAnimation
             (with_inputValue 60
                (with_root (insert_all [50; 30; 70] Null) initial)) in
  DeleteNode (root s) (inputValue s) = root s
  /\ StartDeleteAnimation s
     = mkState (root s) (inputValue s) (current s) (found s) IDLE
         ["Find node"; "Flash target node"; "Drop node"; "Fade node";
          "Delete & restructure"]%string
         0 0%Q (moveTimer s) None 0%Q 0
         (travStack s) (travCap s) (travHighlight s) (edgeA s) (edgeB s)
         (travTimer s) (travLog s)
  /\ panel (StartDeleteAnimation s) = ["Find node"%string]
  /\ forall dt, update_mode dt (StartDeleteAnimation s)
                = Ok (StartDeleteAnimation s).
Proof.
  apply (C7_delete_absent
           (StartSearchAnimation
              (with_inputValue 60
                 (with_root (insert_all [50; 30; 70] Null) initial)))).
  simpl. lia.
Defined.

(* ----------------------------------------------------------------- *)
(** ** Timers and the pacing block *)

Lemma Qlt_bool_true (a b : Q) : Qlt_bool a b = true <-> (a < b)%Q.
Proof.
  unfold Qlt_bool. rewrite negb_true_iff. split; intros H.
  - apply Qnot_le_lt. intros C. apply Qle_bool_iff in C. congruence.
  - destruct (Qle_bool b a) eqn:E; [|reflexivity].
    apply Qle_bool_iff in E. exfalso. revert E. now apply Qlt_not_le.
Qed.

Lemma Qlt_bool_false (a b : Q) : Qlt_bool a b = false <-> (b <= a)%Q.
Proof.
  unfold Qlt_bool. rewrite negb_false_iff. apply Qle_bool_iff.
Qed.

(** The pacing block assigns to [algoTimer] and [algoStepIndex] only. *)
Lemma pace_assigns (dt : Q) (s : State) :
  exists a i, pace dt s = with_algoTimer a (with_algoStepIndex i s).
Proof.
  unfold pace.
  destruct (Qlt_bool _ _ && _).
  - eexists _, _. reflexivity.
  - exists (algoTimer s + dt)%Q, (algoStepIndex s). destruct s; reflexivity.
Qed.

Ltac pace_proj :=
  let a := fresh "a" in let i := fresh "i" in let E := fresh "E" in
  intros; match goal with
  | |- context [pace ?dt ?s] =>
      destruct (pace_assigns dt s) as (a & i & E); rewrite E; reflexivity
  end.

Lemma root_pace dt s : root (pace dt s) = root s.
Proof. pace_proj. Qed.
Lemma inputValue_pace dt s : inputValue (pace dt s) = inputValue s.
Proof. pace_proj. Qed.
Lemma current_pace dt s : current (pace dt s) = current s.
Proof. pace_proj. Qed.
Lemma found_pace dt s : found (pace dt s) = found s.
Proof. pace_proj. Qed.
Lemma mode_pace dt s : mode (pace dt s) = mode s.
Proof. pace_proj. Qed.
Lemma algoSteps_pace dt s : algoSteps (pace dt s) = algoSteps s.
Proof. pace_proj. Qed.
Lemma moveTimer_pace dt s : moveTimer (pace dt s) = moveTimer s.
Proof. pace_proj. Qed.
Lemma delNode_pace dt s : delNode (pace dt s) = delNode s.
Proof. pace_proj. Qed.
Lemma delFlashTimer_pace dt s : delFlashTimer (pace dt s) = delFlashTimer s.
Proof. pace_proj. Qed.
Lemma delFlashCount_pace dt s : delFlashCount (pace dt s) = delFlashCount s.
Proof. pace_proj. Qed.
Lemma travStack_pace dt s : travStack (pace dt s) = travStack s.
Proof. pace_proj. Qed.
Lemma travCap_pace dt s : travCap (pace dt s) = travCap s.
Proof. pace_proj. Qed.
Lemma travHighlight_pace dt s : travHighlight (pace dt s) = travHighlight s.
Proof. pace_proj. Qed.
Lemma travTimer_pace dt s : travTimer (pace dt s) = travTimer s.
Proof. pace_proj. Qed.
Lemma travLog_pace dt s : travLog (pace dt s) = travLog s.
Proof. pace_proj. Qed.

Create Rewrite HintDb pace.
#[global] Hint Rewrite root_pace inputValue_pace current_pace found_pace
  mode_pace algoSteps_pace moveTimer_pace delNode_pace delFlashTimer_pace
  delFlashCount_pace travStack_pace travCap_pace travHighlight_pace
  travTimer_pace travLog_pace : pace.

(* ----------------------------------------------------------------- *)
(** ** The traversal engine on an empty tree *)

Lemma start_traversal_empty (grow : nat -> nat) (m : Mode)
    (labels : list string) (s : State) :
  root s = Null ->
  exists s1, start_traversal grow m labels s = Ok s1
             /\ travStack s1 = [mkFrame None 0] /\ mode s1 = m
             /\ travTimer s1 = 0%Q.
Proof.
  intros H. unfold start_traversal, start_steps. cbn. rewrite H. cbn.
  eexists. split; [reflexivity|]. cbn. auto.
Qed.

Lemma UpdateTraversal_null_frame (dt : Q) (s : State) (below : list TravFrame) :
  travStack s = mkFrame None 0 :: below -> travTimer s = 0%Q ->
  (0.8 <= dt)%Q ->
  mode s = TRAVERSING_IN \/ mode s = TRAVERSING_PRE
  \/ mode s = TRAVERSING_POST ->
  UpdateTraversal dt s = Fault NullDeref.
Proof.
  intros Hst Ht Hdt Hm. unfold UpdateTraversal. rewrite Hst. cbn.
  autorewrite with pace. rewrite Ht.
  assert (E : Qlt_bool (0 + dt) 0.8 = false) by (apply Qlt_bool_false; lra).
  rewrite E. unfold traversal_phase. cbn. autorewrite with pace.
  destruct Hm as [ -> | [ -> | -> ] ]; reflexivity.
Qed.

(** C1, at the input on which the code fails.  With an empty tree each of
    the three start functions still pushes the frame [{root, 0}], whose node
    is null; the first call of [UpdateTraversal] after the dwell
    dereferences it.  The engine therefore does not produce the (empty)
    visit sequence of the recursive traversal of the empty tree. *)
Theorem C1_empty_tree_traversal_faults
    (grow : nat -> nat) (s : State) (dt : Q) :
  root s = Null -> (0.8 <= dt)%Q ->
  (exists s1, StartTraverseIn grow s = Ok s1
              /\ travStack s1 = [mkFrame None 0]
              /\ UpdateTraversal dt s1 = Fault NullDeref)
  /\ (exists s1, StartTraversePre grow s = Ok s1
                 /\ travStack s1 = [mkFrame None 0]
                 /\ UpdateTraversal dt s1 = Fault NullDeref)
  /\ (exists s1, StartTraversePost grow s = Ok s1
                 /\ travStack s1 = [mkFrame None 0]
                 /\ UpdateTraversal dt s1 = Fault NullDeref).
Proof.
  intros H Hdt.
  repeat split;
    match goal with
    | |- exists s1, ?start grow s = _ /\ _ =>
        unfold start;
        match goal with
        | |- exists s1, start_traversal grow ?m ?lab s = _ /\ _ =>
            destruct (start_traversal_empty grow m lab s H)
              as (s1 & E & Hst & Hm & Ht)
        end;
        exists s1; split; [exact E|]; split; [exact Hst|];
        apply (UpdateTraversal_null_frame dt s1 []); auto
    end.
Qed.

Lemma C1_empty_tree_traversal_faults_witness :
  (exists s1, StartTraverseIn grow_double initial = Ok s1
              /\ travStack s1 = [mkFrame None 0]
              /\ UpdateTraversal 1 s1 = Fault NullDeref)
  /\ (exists s1, StartTraversePre grow_double initial = Ok s1
                 /\ travStack s1 = [mkFrame None 0]
                 /\ UpdateTraversal 1 s1 = Fault NullDeref)
  /\ (exists s1, StartTraversePost grow_double initial = Ok s1
                 /\ travStack s1 = [mkFrame None 0]
                 /\ UpdateTraversal 1 s1 = Fault NullDeref).
Proof.
  apply (C1_empty_tree_traversal_faults grow_double initial 1%Q).
  - reflexivity.
  - vm_compute. discriminate.
Defined.

(* ----------------------------------------------------------------- *)
(** ** The fixed helper stack of the full-tree walks *)

(** C9, at an input on which the code fails.  After the 202 insertions
    [1, 0, 3, 2, ..., 201, 200] the tree is a right spine of 101 nodes, the
    first hundred of which also have a left child.  On that tree the walk of
    [AnimateNodes], and likewise that of [ResetTreeColors], writes slot 100
    of its array of 100 slots. *)
Theorem C9_helper_stack_overflow :
  let t := insert_all (zigzag 101) Null in
  BST t /\ size t = 202%nat
  /\ AnimateNodes (1 # 60) t = Fault OutOfBounds
  /\ ResetTreeColors t = Fault OutOfBounds.
Proof.
  split; [apply BST_insert_all; exact I|].
  split; [vm_compute; reflexivity|].
  split; vm_compute; reflexivity.
Qed.

(* ----------------------------------------------------------------- *)
(** ** The example session *)

(** C6, at the input on which the code fails.  The five insertions give the
    tree whose recursive in-order and pre-order listings are those of the
    example, and [DeleteNode] of 30 gives root 50 with left child 40 (whose
    left child is 20) and right child 70.  But in a program that has just
    started, has received exactly these insertions and then a click on
    IN-ORDER or PRE, the traversal engine does not visit the nodes: the
    first push of a child frame reallocates [travStack], and the engine
    then assigns to [frame.state] through the invalidated reference.  The
    frames last 1/64 s, a frame time whose sums in [travTimer] are exact in
    the [float] arithmetic of the code: the dwell of 0.8 s elapses in the
    52nd frame after a click, the click frame included, so that the
    in-order traversal fails in the 51st frame after the click and the
    pre-order traversal, whose first action is the visit of the root, in
    the 103rd. *)
Theorem C6_example_session :
  let t := insert_all [50; 30; 70; 20; 40] Null in
  let d := (1 # 64)%Q in
  let session := insert_session d 10 [50; 30; 70; 20; 40] in
  inorder t = [20; 30; 40; 50; 70]
  /\ preorder t = [50; 30; 20; 40; 70]
  /\ DeleteNode t 30
     = Nd (Nd (CreateNode 20) (fresh 40) Null) (fresh 50) (CreateNode 70)
  /\ final_keys (run grow_double session initial)
     = Some [20; 30; 40; 50; 70]
  /\ final_keys (run grow_double
                   (session ++ do_in d :: repeat (quiet d) 50) initial)
     = Some [20; 30; 40; 50; 70]
  /\ run grow_double (session ++ do_in d :: repeat (quiet d) 51) initial
     = Fault DanglingRef
  /\ final_keys (run grow_double
                   (session ++ do_pre d :: repeat (quiet d) 102) initial)
     = Some [20; 30; 40; 50; 70]
  /\ run grow_double (session ++ do_pre d :: repeat (quiet d) 103) initial
     = Fault DanglingRef.
Proof.
  repeat split; vm_compute; reflexivity.
Qed.

(* ----------------------------------------------------------------- *)
(** ** The delete animation at 60 frames per second *)

(** C4, at an input on which the code fails.  Key 30 is deleted from the
    example tree and [UpdateDelete] is called with a frame time of 1/64 s
    (a frame time for which every sum the function forms is exact in the
    [float] arithmetic of the code).  The pacing block, which shares
    [algoStepIndex] with the phases, moves the machine from Flash to Drop
    in call 66, after 4 colour toggles instead of 7, and from Drop to Fade
    in call 99, with the node at height 54.6875 and not below 900; Fade
    ends by its own test in call 120, and the commit in call 121 removes
    the key. *)
Theorem C4_phases_cut_short_by_pacing :
  let t := insert_all [50; 30; 70; 20; 40] Null in
  let s0 := StartDeleteAnimation (with_inputValue 30 (with_root t initial)) in
  let after n := iterate n (UpdateDelete (1 # 64)) s0 in
  delete_view (after 32%nat)
    = Some (DELETING, 0, 0, Some (30, (-100)%Q, 1%Q))
  /\ delete_view (after 33%nat)
    = Some (DELETING, 1, 0, Some (30, (-100)%Q, 1%Q))
  /\ delete_view (after 65%nat)
    = Some (DELETING, 1, 4, Some (30, (-100)%Q, 1%Q))
  /\ delete_view (after 66%nat)
    = Some (DELETING, 2, 4, Some (30, (-1525 # 16)%Q, 1%Q))
  /\ delete_view (after 98%nat)
    = Some (DELETING, 2, 4, Some (30, (875 # 16)%Q, 1%Q))
  /\ delete_view (after 99%nat)
    = Some (DELETING, 3, 4, Some (30, (875 # 16)%Q, (61 # 64)%Q))
  /\ delete_view (after 119%nat)
    = Some (DELETING, 3, 4, Some (30, (875 # 16)%Q, (1 # 64)%Q))
  /\ delete_view (after 120%nat)
    = Some (DELETING, 4, 4, Some (30, (875 # 16)%Q, (-1 # 32)%Q))
  /\ final_keys (after 120%nat) = Some [20; 30; 40; 50; 70]
  /\ final_keys (after 121%nat) = Some [20; 40; 50; 70].
Proof.
  repeat split; vm_compute; reflexivity.
Qed.

(* ----------------------------------------------------------------- *)
(** ** The key deleted at commit *)

Lemma UpdateDelete_commit (s : State) (dt : Q) (p : ptr) :
  delNode s = Some p -> algoStepIndex (pace dt s) = 4 ->
  UpdateDelete dt s
  = Ok (with_mode IDLE
          (with_root (SetPositions (DeleteNode (root s) (inputValue s))
                        TREE_START_X TREE_START_Y 200) (pace dt s))).
Proof.
  intros Hp Hi. unfold UpdateDelete. rewrite Hp, Hi. cbn.
  now autorewrite with pace.
Qed.

(** C10.  The commit phase deletes the key that [inputValue] holds when it
    runs; the node found by [StartDeleteAnimation] plays no part in it.  In
    the session shown, key 10 is located and animated, the UP key then
    changes [inputValue] to 11, and the commit removes key 11 and keeps the
    animated key 10. *)
Theorem C10_commit_deletes_current_inputValue :
  (forall s dt p,
      delNode s = Some p -> algoStepIndex (pace dt s) = 4 ->
      exists s', UpdateDelete dt s = Ok s' /\ mode s' = IDLE
                 /\ root s' = SetPositions
                                (DeleteNode (root s) (inputValue s))
                                TREE_START_X TREE_START_Y 200)
  /\ (let dt := (1 # 10)%Q in
      let located := [do_insert dt; press_up dt; do_insert dt;
                      press_down dt; do_delete dt] in
      let later n := located ++ press_up dt :: repeat (quiet dt) n in
      final_keys (run grow_double located initial) = Some [10; 11]
      /\ target_key (run grow_double located initial) = Some 10
      /\ target_key (run grow_double (later 19%nat) initial) = Some 10
      /\ final_keys (run grow_double (later 19%nat) initial) = Some [10; 11]
      /\ final_keys (run grow_double (later 20%nat) initial) = Some [10]).
Proof.
  split.
  - intros s dt p Hp Hi. eexists. split.
    + apply (UpdateDelete_commit s dt p Hp Hi).
    + cbn. now autorewrite with pace.
  - repeat split; vm_compute; reflexivity.
Qed.

Lemma C10_commit_deletes_current_inputValue_witness :
  let s := with_inputValue 11
             (with_algoStepIndex 4
                (StartDeleteAnimation
                   (with_root (insert_all [10; 11] Null) initial))) in
  exists s', UpdateDelete (1 # 60) s = Ok s' /\ mode s' = IDLE
             /\ root s' = SetPositions (DeleteNode (root s) (inputValue s))
                            TREE_START_X TREE_START_Y 200.
Proof.
  apply (proj1 C10_commit_deletes_current_inputValue _ (1 # 60)%Q []).
  - reflexivity.
  - vm_compute. reflexivity.
Defined.

(* ----------------------------------------------------------------- *)
(** ** Pointers *)

Lemma deref_Null (p : ptr) : deref Null p = Null.
Proof. destruct p; reflexivity. Qed.

Lemma deref_app (t : tree) (p q : ptr) :
  deref t (p ++ q) = deref (deref t p) q.
Proof.
  revert t. induction p as [|d p IH]; intros t; [reflexivity|].
  destruct t as [|l n r]; simpl.
  - now rewrite deref_Null.
  - apply IH.
Qed.

Lemma deref_child (t : tree) (p : ptr) (l r : tree) (n : Node) :
  deref t p = Nd l n r ->
  deref t (p ++ [L]) = l /\ deref t (p ++ [R]) = r.
Proof. intros H. rewrite !deref_app, H. split; reflexivity. Qed.

(* ----------------------------------------------------------------- *)
(** ** The search machine *)

Lemma UpdateSearch_absent (dt : Q) (s : State) :
  current s = None -> UpdateSearch dt s = Ok (with_mode IDLE s).
Proof. intros H. unfold UpdateSearch. now rewrite H. Qed.

Lemma UpdateSearch_wait (dt : Q) (s : State) (p : ptr) :
  current s = Some p -> (moveTimer s + dt < 0.6)%Q ->
  UpdateSearch dt s = Ok (with_moveTimer (moveTimer s + dt)%Q (pace dt s)).
Proof.
  intros Hc Ht. unfold UpdateSearch. rewrite Hc. cbn.
  autorewrite with pace.
  now rewrite (proj2 (Qlt_bool_true _ _) Ht).
Qed.

Lemma UpdateSearch_step (dt : Q) (s : State) (p : ptr) (l r : tree) (n : Node) :
  current s = Some p -> deref (root s) p = Nd l n r ->
  (0.6 <= moveTimer s + dt)%Q ->
  UpdateSearch dt s =
  Ok (let s3 := with_moveTimer 0%Q (pace dt s) in
      if inputValue s =? value n then with_mode IDLE (with_found true s3)
      else if inputValue s <? value n then with_current (link l p L) s3
      else with_current (link r p R) s3).
Proof.
  intros Hc Hd Ht. unfold UpdateSearch. rewrite Hc. cbn.
  autorewrite with pace.
  rewrite (proj2 (Qlt_bool_false _ _) Ht), Hd.
  destruct (inputValue s =? value n); [reflexivity|].
  destruct (inputValue s <? value n); reflexivity.
Qed.

Lemma ticks_app (d1 d2 : list Q) (s : State) :
  ticks (d1 ++ d2) s = do s' <- ticks d1 s ;; ticks d2 s'.
Proof.
  revert s. induction d1 as [|dt d1 IH]; intros s; [reflexivity|].
  simpl. destruct (update_mode dt s); [apply IH | reflexivity].
Qed.

Lemma ticks_idle (dts : list Q) (s : State) :
  mode s = IDLE -> ticks dts s = Ok s.
Proof.
  intros H. induction dts as [|dt dts IH]; [reflexivity|].
  simpl. unfold update_mode. rewrite H. exact IH.
Qed.

Lemma lookup_InT (t : tree) (v : Z) :
  BST t -> (lookup v t = true <-> InT v t).
Proof.
  induction t as [|l IHl n r IHr]; simpl; [intuition discriminate|].
  intros (Hl & Hr & Bl & Br).
  destruct (v =? value n) eqn:E; cmp; [tauto|].
  destruct (v <? value n) eqn:E1; cmp.
  - rewrite (IHl Bl). split; [tauto|].
    intros [H|[H|H]]; [auto | lia | apply Hr in H; lia].
  - rewrite (IHr Br). split; [tauto|].
    intros [H|[H|H]]; [apply Hl in H; lia | lia | auto].
Qed.

Lemma link_cursor (t : tree) (p : ptr) (l r : tree) (n : Node) :
  deref t p = Nd l n r ->
  cursor_at t (link l p L) l /\ cursor_at t (link r p R) r.
Proof.
  intros H. destruct (deref_child _ _ _ _ _ H) as [Hl Hr].
  split; [destruct l | destruct r]; simpl; auto; split; auto; discriminate.
Qed.

Section SearchRun.

Variable delta : Q.
Hypothesis delta_pos : (0 < delta)%Q.

(** Frames of at least [delta] seconds fire the next comparison within
    [S j] frames when [S j] such frames fill what is left of the dwell. *)
Lemma search_dwell (j : nat) :
  forall (dts : list Q) (s : State) p l n r,
    mode s = SEARCHING -> current s = Some p ->
    deref (root s) p = Nd l n r ->
    (0.6 <= moveTimer s + times (S j) delta)%Q ->
    Forall (fun dt => (delta <= dt)%Q) dts ->
    (S j <= length dts)%nat ->
    exists d1 d2 s1,
      dts = d1 ++ d2 /\ (length d1 <= S j)%nat
      /\ ticks d1 s = Ok s1 /\ stepped s p l n r s1.
Proof.
  induction j as [|j IH]; intros dts s p l n r Hm Hc Hd Ht Hall Hlen;
    (destruct dts as [|dt rest]; [simpl in Hlen; lia|]);
    inversion Hall as [|? ? Hdt Hrest]; subst;
    destruct (Qlt_le_dec (moveTimer s + dt) 0.6) as [Hw|Hs].
  - exfalso. simpl in Ht. lra.
  - exists [dt], rest. eexists. split; [reflexivity|].
    split; [simpl; lia|]. simpl. unfold update_mode. rewrite Hm.
    rewrite (UpdateSearch_step dt s p l r n Hc Hd Hs). cbn.
    split; [reflexivity|]. unfold stepped.
    destruct (inputValue s =? value n); [|destruct (inputValue s <? value n)];
      cbn; autorewrite with pace; repeat split; auto.
  - set (s' := with_moveTimer (moveTimer s + dt)%Q (pace dt s)).
    assert (Hm' : mode s' = SEARCHING)
      by (unfold s'; cbn; now autorewrite with pace).
    assert (Hc' : current s' = Some p)
      by (unfold s'; cbn; now autorewrite with pace).
    assert (Hd' : deref (root s') p = Nd l n r)
      by (unfold s'; cbn; now autorewrite with pace).
    assert (Ht' : (0.6 <= moveTimer s' + times (S j) delta)%Q).
    { unfold s', with_moveTimer. cbn [moveTimer].
      change (times (S (S j)) delta)
        with (delta + times (S j) delta)%Q in Ht. lra. }
    assert (Hlen' : (S j <= length rest)%nat) by (simpl in Hlen; lia).
    destruct (IH rest s' p l n r Hm' Hc' Hd' Ht' Hrest Hlen')
      as (d1 & d2 & s1 & -> & Hl1 & Hrun & Hstep).
    exists (dt :: d1), d2, s1. split; [reflexivity|].
    split; [simpl; lia|]. split.
    + simpl. unfold update_mode. rewrite Hm.
      rewrite (UpdateSearch_wait dt s p Hc Hw). exact Hrun.
    + unfold stepped in *. unfold s' in Hstep. cbn in Hstep.
      autorewrite with pace in Hstep. exact Hstep.
  - exists [dt], rest. eexists. split; [reflexivity|].
    split; [simpl; lia|]. simpl. unfold update_mode. rewrite Hm.
    rewrite (UpdateSearch_step dt s p l r n Hc Hd Hs). cbn.
    split; [reflexivity|]. unfold stepped.
    destruct (inputValue s =? value n); [|destruct (inputValue s <? value n)];
      cbn; autorewrite with pace; repeat split; auto.
Qed.

Variable M : nat.
Hypothesis dwell_filled : (0.6 <= times (S M) delta)%Q.

(** From any cursor the machine reaches [IDLE] with [found] telling
    whether the comparisons met the key. *)
Lemma search_runs (sub : tree) :
  forall (s : State) (dts : list Q),
    mode s = SEARCHING -> found s = false -> (0 <= moveTimer s)%Q ->
    cursor_at (root s) (current s) sub ->
    Forall (fun dt => (delta <= dt)%Q) dts ->
    (S (height sub * S M) <= length dts)%nat ->
    exists s', ticks dts s = Ok s' /\ mode s' = IDLE
               /\ root s' = root s
               /\ found s' = lookup (inputValue s) sub.
Proof.
  induction sub as [|l IHl n r IHr];
    intros s dts Hm Hf Ht Hcur Hall Hlen.
  - destruct (current s) as [p|] eqn:Hc;
      [destruct Hcur as [_ C]; congruence|].
    destruct dts as [|dt rest]; [simpl in Hlen; lia|].
    exists (with_mode IDLE s). simpl. unfold update_mode. rewrite Hm.
    rewrite (UpdateSearch_absent dt s Hc). cbn.
    split; [now apply ticks_idle|]. auto.
  - destruct (current s) as [p|] eqn:Hc; [|discriminate Hcur].
    destruct Hcur as [Hd _].
    assert (Ht' : (0.6 <= moveTimer s + times (S M) delta)%Q) by lra.
    assert (Hlen' : (S M <= length dts)%nat) by (simpl in Hlen; lia).
    destruct (search_dwell M dts s p l n r Hm Hc Hd Ht' Hall Hlen')
      as (d1 & d2 & s1 & -> & Hl1 & Hrun & Hr1 & Hi1 & Ht1 & Hstep).
    rewrite ticks_app, Hrun. cbn [bind].
    apply Forall_app in Hall as [_ Hall2].
    rewrite length_app in Hlen.
    destruct (link_cursor _ _ _ _ _ Hd) as [Cl Cr].
    cbn [lookup].
    destruct (inputValue s =? value n) eqn:E.
    + destruct Hstep as [Hf1 Hm1]. exists s1.
      split; [now apply ticks_idle|]. auto.
    + destruct Hstep as (Hf1 & Hm1 & Hc1).
      destruct (inputValue s <? value n) eqn:E1.
      * destruct (IHl s1 d2) as (s' & Hrun' & Hm' & Hr' & Hf'); auto.
        { congruence. }
        { rewrite Ht1. lra. }
        { rewrite Hr1, Hc1. exact Cl. }
        { pose proof (Nat.le_max_l (height l) (height r)).
          cbn [height] in Hlen. nia. }
        exists s'. rewrite Hr', Hf', Hr1, Hi1. auto.
      * destruct (IHr s1 d2) as (s' & Hrun' & Hm' & Hr' & Hf'); auto.
        { congruence. }
        { rewrite Ht1. lra. }
        { rewrite Hr1, Hc1. exact Cr. }
        { pose proof (Nat.le_max_r (height l) (height r)).
          cbn [height] in Hlen. nia. }
        exists s'. rewrite Hr', Hf', Hr1, Hi1. auto.
Qed.

End SearchRun.

Lemma times_inject (k : nat) (d : Q) :
  (times k d == inject_Z (Z.of_nat k) * d)%Q.
Proof.
  induction k as [|k IH].
  - simpl. ring.
  - change (times (S k) d) with (d + times k d)%Q.
    rewrite IH, Nat2Z.inj_succ. unfold Z.succ.
    rewrite inject_Z_plus. ring.
Qed.

(* ----------------------------------------------------------------- *)
(** ** The layout pass and histories of mutations *)

Lemma InT_SetPositions (t : tree) (x0 y0 o v : Z) :
  InT v (SetPositions t x0 y0 o) <-> InT v t.
Proof.
  revert x0 y0 o. induction t as [|l IHl n r IHr]; intros; simpl; [tauto|].
  rewrite IHl, IHr. tauto.
Qed.

Lemma BST_SetPositions (t : tree) (x0 y0 o : Z) :
  BST t -> BST (SetPositions t x0 y0 o).
Proof.
  revert x0 y0 o. induction t as [|l IHl n r IHr]; intros; simpl; [exact I|].
  destruct H as (Hl & Hr & Bl & Br).
  repeat split; auto; intros u Hu; apply InT_SetPositions in Hu; auto.
Qed.

Lemma BST_apply_op (t : tree) (o : op) : BST t -> BST (apply_op t o).
Proof.
  intros B. destruct o; simpl; apply BST_SetPositions;
    [now apply BST_Insert | now apply BST_DeleteNode].
Qed.

Lemma InT_apply_op (t : tree) (o : op) (u : Z) :
  BST t ->
  (InT u (apply_op t o) <->
   match o with
   | Ins v => u = v \/ InT u t
   | Del v => InT u t /\ u <> v
   end).
Proof.
  intros B. destruct o; simpl; rewrite InT_SetPositions.
  - apply InT_Insert.
  - now apply InT_DeleteNode.
Qed.

Lemma fold_apply_op (ops : list op) (v : Z) :
  forall t, BST t ->
    BST (fold_left apply_op ops t)
    /\ (InT v t \/ In (Ins v) ops -> ~ In (Del v) ops ->
        InT v (fold_left apply_op ops t))
    /\ (~ InT v t -> ~ In (Ins v) ops ->
        ~ InT v (fold_left apply_op ops t)).
Proof.
  induction ops as [|o ops IH]; intros t B; simpl.
  - split; [exact B|]. tauto.
  - destruct (IH (apply_op t o) (BST_apply_op t o B)) as (B' & Hin & Hout).
    pose proof (InT_apply_op t o v B) as E.
    split; [exact B'|]. split.
    + intros H ND. apply Hin; [|tauto].
      destruct H as [H|[H|H]]; [| |now right]; left; apply E.
      * destruct o as [w|w]; [now right|].
        split; [exact H|]. intros ->. apply ND. now left.
      * subst o. now left.
    + intros HN NI. apply Hout; [|tauto].
      intros H. apply E in H. destruct o as [w|w].
      * destruct H as [->|H]; [apply NI; now left | auto].
      * tauto.
Qed.

(* ----------------------------------------------------------------- *)
(** ** The search machine, as the code runs it *)

(* ----------------------------------------------------------------- *)
(** ** Frame times of 1/64 s *)

(** A timer that holds a multiple of 1/64 s compares with the rational
    thresholds of the model as it does with the [float] literals of the
    code. *)
Lemma sixty_fourths_thresholds (k : Z) :
  ((0.12 < k # 64)%Q <-> (binary32_0_12 < k # 64)%Q)
  /\ ((k # 64 < 0.6)%Q <-> (k # 64 < binary32_0_6)%Q)
  /\ ((k # 64 < 0.8)%Q <-> (k # 64 < binary32_0_8)%Q).
Proof.
  unfold Qlt, binary32_0_12, binary32_0_6, binary32_0_8. simpl. lia.
Qed.

Lemma total_nonneg (dts : list Q) :
  Forall (fun dt => (0 <= dt)%Q) dts -> (0 <= total dts)%Q.
Proof.
  induction 1 as [|dt rest Hdt _ IH]; simpl; lra.
Qed.

(** While the dwell timer, with the frame times added, stays below 0.6 s,
    no comparison is made. *)
Lemma search_waits (dts : list Q) :
  forall (s : State) (p : ptr),
    mode s = SEARCHING -> current s = Some p ->
    Forall (fun dt => (0 <= dt)%Q) dts ->
    (moveTimer s + total dts < 0.6)%Q ->
    exists s',
      ticks dts s = Ok s' /\ mode s' = SEARCHING /\ current s' = Some p
      /\ found s' = found s /\ root s' = root s
      /\ inputValue s' = inputValue s.
Proof.
  induction dts as [|dt rest IH]; intros s p Hm Hc Hall Ht.
  - exists s. repeat split; auto.
  - inversion Hall as [|? ? Hdt Hrest]; subst.
    pose proof (total_nonneg rest Hrest) as Hn. simpl in Ht.
    assert (Hw : (moveTimer s + dt < 0.6)%Q) by lra.
    simpl. unfold update_mode. rewrite Hm.
    rewrite (UpdateSearch_wait dt s p Hc Hw). cbn [bind].
    destruct (IH (with_moveTimer (moveTimer s + dt)%Q (pace dt s)) p)
      as (s' & R & Hm' & Hc' & Hf' & Hr' & Hi'); auto.
    + cbn. now autorewrite with pace.
    + cbn. now autorewrite with pace.
    + cbn. lra.
    + exists s'. split; [exact R|]. split; [exact Hm'|].
      split; [exact Hc'|].
      cbn in Hf', Hr', Hi'. autorewrite with pace in Hf', Hr', Hi'. auto.
Qed.




(* ----------------------------------------------------------------- *)
(** ** Grafting subtrees *)

Lemma graft_deref (t : tree) (p : ptr) : graft t p (deref t p) = t.
Proof.
  revert t. induction p as [|d p IH]; intros t; [reflexivity|].
  destruct t as [|l n r]; [reflexivity|].
  destruct d; simpl; now rewrite IH.
Qed.

Lemma graft_graft (t : tree) (p : ptr) (a b : tree) :
  graft (graft t p a) p b = graft t p b.
Proof.
  revert t. induction p as [|d p IH]; intros t; [reflexivity|].
  destruct t as [|l n r]; [reflexivity|].
  destruct d; simpl; now rewrite IH.
Qed.

Lemma graft_app (t : tree) (p q : ptr) (a : tree) :
  graft t (p ++ q) a = graft t p (graft (deref t p) q a).
Proof.
  revert t. induction p as [|d p IH]; intros t; [reflexivity|].
  destruct t as [|l n r]; [reflexivity|].
  destruct d; simpl; now rewrite IH.
Qed.

Lemma deref_graft (t : tree) (p : ptr) (a : tree) :
  deref t p <> Null -> deref (graft t p a) p = a.
Proof.
  revert t. induction p as [|d p IH]; intros t H; [reflexivity|].
  destruct t as [|l n r]; [now elim H|].
  destruct d; simpl in *; now apply IH.
Qed.

Lemma update_graft (t : tree) (p : ptr) (f : Node -> Node)
    (l r : tree) (n : Node) :
  deref t p = Nd l n r -> update t p f = graft t p (Nd l (f n) r).
Proof.
  revert t. induction p as [|d p IH]; intros t H.
  - simpl in H. subst t. reflexivity.
  - destruct t as [|tl tn tr]; [discriminate|].
    destruct d; simpl in *; now rewrite (IH _ H).
Qed.

(** Grafting at a child of [p], after a graft at [p]. *)
Lemma graft_child (t : tree) (p : ptr) (l r a : tree) (n : Node) :
  deref t p <> Null ->
  graft (graft t p (Nd l n r)) (p ++ [L]) a = graft t p (Nd a n r)
  /\ graft (graft t p (Nd l n r)) (p ++ [R]) a = graft t p (Nd l n a).
Proof.
  intros H. rewrite !graft_app, (deref_graft _ _ _ H), !graft_graft.
  split; reflexivity.
Qed.

Lemma deref_graft_child (t : tree) (p : ptr) (l r : tree) (n : Node) :
  deref t p <> Null ->
  deref (graft t p (Nd l n r)) (p ++ [L]) = l
  /\ deref (graft t p (Nd l n r)) (p ++ [R]) = r.
Proof.
  intros H. rewrite !deref_app, (deref_graft _ _ _ H). split; reflexivity.
Qed.

(* ----------------------------------------------------------------- *)
(** ** The full-tree walks within their stack *)

Lemma push_child_pending (child : tree) (p : ptr) (d : dir) (st : list ptr) :
  (child <> Null -> (length st < HELPER_STACK_SIZE)%nat) ->
  push_child child p d st = Ok (pending child (p ++ [d]) ++ st).
Proof.
  intros H. destruct child as [|cl cn cr]; [reflexivity|].
  unfold push_child, push_slot. simpl.
  assert (E : (length st <? HELPER_STACK_SIZE)%nat = true)
    by (apply Nat.ltb_lt, H; discriminate).
  now rewrite E.
Qed.

Lemma length_pending (sub : tree) (p : ptr) :
  (length (pending sub p) <= 1)%nat
  /\ (sub = Null -> length (pending sub p) = 0%nat).
Proof. destruct sub; simpl; split; auto; discriminate. Qed.

(** Walking the slots of one subtree applies [f] to each of its nodes and
    leaves the rest of the stack as it was, provided the array can hold the
    slots below plus one slot per level of the subtree. *)
Lemma walk_subtree (f : Node -> Node) (sub : tree) :
  forall (rt : tree) (p : ptr) (rest : list ptr) (fuel : nat),
    deref rt p = sub ->
    (length rest + height sub <= HELPER_STACK_SIZE)%nat ->
    (size sub <= fuel)%nat ->
    walk fuel f rt (pending sub p ++ rest)
    = walk (fuel - size sub) f (graft rt p (tmap f sub)) rest.
Proof.
  induction sub as [|l IHl n r IHr]; intros rt p rest fuel Hd Hh Hf.
  - simpl. rewrite <- Hd, graft_deref, Nat.sub_0_r. reflexivity.
  - destruct fuel as [|fuel]; [simpl in Hf; lia|].
    assert (Hnn : deref rt p <> Null) by (rewrite Hd; discriminate).
    cbn [pending app walk]. rewrite Hd.
    cbn [height size] in *.
    pose proof (length_pending l (p ++ [L])) as [Ll Ll0].
    rewrite (push_child_pending l p L rest).
    2:{ intros Hl. destruct l; [congruence|]. cbn [height] in Hh. lia. }
    cbn [bind].
    rewrite (push_child_pending r p R).
    2:{ intros Hr. rewrite length_app.
        destruct r; [congruence|]. cbn [height] in Hh.
        destruct l; [simpl; lia|]. cbn [height pending length] in *. lia. }
    cbn [bind].
    rewrite (update_graft _ _ f _ _ _ Hd).
    destruct (deref_graft_child rt p l r (f n) Hnn) as [Dl Dr].
    rewrite (IHr _ (p ++ [R]) _ fuel Dr); [| rewrite length_app; lia | lia].
    destruct (graft_child rt p l r (tmap f r) (f n) Hnn) as [_ ->].
    destruct (deref_graft_child rt p l (tmap f r) (f n) Hnn) as [Dl' _].
    rewrite (IHl _ (p ++ [L]) _ _ Dl'); [| lia | lia].
    destruct (graft_child rt p l (tmap f r) (tmap f l) (f n) Hnn) as [-> _].
    f_equal. lia.
Qed.

Lemma full_walk_tmap (f : Node -> Node) (t : tree) :
  (height t <= HELPER_STACK_SIZE)%nat -> full_walk f t = Ok (tmap f t).
Proof.
  intros H. unfold full_walk. destruct t as [|l n r] eqn:E; [reflexivity|].
  rewrite <- E in *. assert (Hr : root_ptr t = Some []) by now subst.
  rewrite Hr. change (push_slot [] []) with (Ok [@nil dir]). cbn [bind].
  assert (P : [[]] = pending t [] ++ []) by now subst.
  rewrite P, (walk_subtree f t t [] [] (size t));
    [now rewrite Nat.sub_diag | reflexivity | simpl; lia | lia].
Qed.

Lemma push_child_cases (child : tree) (p : ptr) (d : dir) (st : list ptr) :
  push_child child p d st = Ok (pending child (p ++ [d]) ++ st)
  \/ push_child child p d st = Fault OutOfBounds.
Proof.
  destruct child as [|cl cn cr]; [now left|].
  unfold push_child, push_slot. simpl.
  destruct (length st <? HELPER_STACK_SIZE)%nat; [now left | now right].
Qed.

(** Without any bound on the tree: the walk of a subtree either overflows
    the array or does its work; it never runs out of turns and never meets
    a dead pointer. *)
Lemma walk_subtree_total (f : Node -> Node) (sub : tree) :
  forall (rt : tree) (p : ptr) (rest : list ptr) (fuel : nat),
    deref rt p = sub -> (size sub <= fuel)%nat ->
    walk fuel f rt (pending sub p ++ rest) = Fault OutOfBounds
    \/ walk fuel f rt (pending sub p ++ rest)
       = walk (fuel - size sub) f (graft rt p (tmap f sub)) rest.
Proof.
  induction sub as [|l IHl n r IHr]; intros rt p rest fuel Hd Hf.
  - right. simpl. rewrite <- Hd, graft_deref, Nat.sub_0_r. reflexivity.
  - destruct fuel as [|fuel]; [simpl in Hf; lia|].
    assert (Hnn : deref rt p <> Null) by (rewrite Hd; discriminate).
    cbn [pending app walk]. rewrite Hd. cbn [size] in *.
    destruct (push_child_cases l p L rest) as [-> | ->]; [|now left].
    cbn [bind].
    destruct (push_child_cases r p R (pending l (p ++ [L]) ++ rest))
      as [-> | ->]; [|now left].
    cbn [bind].
    rewrite (update_graft _ _ f _ _ _ Hd).
    destruct (deref_graft_child rt p l r (f n) Hnn) as [Dl Dr].
    destruct (IHr _ (p ++ [R]) (pending l (p ++ [L]) ++ rest) fuel Dr)
      as [-> | ->]; [lia | now left |].
    destruct (graft_child rt p l r (tmap f r) (f n) Hnn) as [_ ->].
    destruct (deref_graft_child rt p l (tmap f r) (f n) Hnn) as [Dl' _].
    destruct (IHl _ (p ++ [L]) rest (fuel - size r)%nat Dl')
      as [-> | ->]; [lia | now left |].
    destruct (graft_child rt p l (tmap f r) (tmap f l) (f n) Hnn) as [-> _].
    right. f_equal. lia.
Qed.

Lemma full_walk_total (f : Node -> Node) (t : tree) :
  full_walk f t = Ok (tmap f t) \/ full_walk f t = Fault OutOfBounds.
Proof.
  unfold full_walk. destruct t as [|l n r] eqn:E; [now left|].
  rewrite <- E in *. assert (Hr : root_ptr t = Some []) by now subst.
  rewrite Hr. change (push_slot [] []) with (Ok [@nil dir]). cbn [bind].
  assert (P : [[]] = pending t [] ++ []) by now subst.
  rewrite P.
  destruct (walk_subtree_total f t t [] [] (size t)) as [-> | ->];
    [reflexivity | lia | now right |].
  left. now rewrite Nat.sub_diag.
Qed.

(** X1.  On a tree of height at most 100, [AnimateNodes] stays inside its
    array and moves every node, and only its [x] and [y], by the
    interpolation step towards the node's own target. *)
Theorem AnimateNodes_moves_every_node (dt : Q) (t : tree) :
  (height t <= 100)%nat ->
  AnimateNodes dt t = Ok (tmap (animate dt) t).
Proof. apply full_walk_tmap. Qed.

Lemma AnimateNodes_moves_every_node_witness :
  let t := insert_all [50; 30; 70; 20; 40] Null in
  AnimateNodes (1 # 60) t = Ok (tmap (animate (1 # 60)) t).
Proof.
  apply (AnimateNodes_moves_every_node (1 # 60)
           (insert_all [50; 30; 70; 20; 40] Null)).
  simpl. lia.
Defined.

(** X2.  On a tree of height at most 100, [ResetTreeColors] stays inside its
    array and sets the colour of every node to [LIGHTGRAY], changing nothing
    else. *)
Theorem ResetTreeColors_resets_every_node (t : tree) :
  (height t <= 100)%nat ->
  ResetTreeColors t = Ok (tmap (fun n => set_color n LIGHTGRAY) t).
Proof. apply full_walk_tmap. Qed.

Lemma ResetTreeColors_resets_every_node_witness :
  let t := update (insert_all [50; 30; 70] Null) [L]
             (fun n => set_color n ORANGE) in
  ResetTreeColors t = Ok (tmap (fun n => set_color n LIGHTGRAY) t).
Proof.
  apply (ResetTreeColors_resets_every_node
           (update (insert_all [50; 30; 70] Null) [L]
              (fun n => set_color n ORANGE))).
  simpl. lia.
Defined.

(** X3.  Whatever the tree, the two walks can fail in one way only, by
    writing past their array of 100 slots; otherwise they end having
    updated every node.  They never follow a dead pointer, and the loop
    needs no more turns than the tree has nodes. *)
Theorem walks_fail_only_by_overflow (dt : Q) (t : tree) :
  (AnimateNodes dt t = Ok (tmap (animate dt) t)
   \/ AnimateNodes dt t = Fault OutOfBounds)
  /\ (ResetTreeColors t = Ok (tmap (fun n => set_color n LIGHTGRAY) t)
      \/ ResetTreeColors t = Fault OutOfBounds).
Proof. split; apply full_walk_total. Qed.

(* ----------------------------------------------------------------- *)
(** ** The traversal engine, phase by phase *)

Lemma iterate_add (a b : nat) (step : State -> result State) (s : State) :
  iterate (a + b) step s = do s' <- iterate a step s ;; iterate b step s'.
Proof.
  revert s. induction a as [|a IH]; intros s; [reflexivity|].
  simpl. destruct (step s); [apply IH | reflexivity].
Qed.

Lemma UpdateTraversal_fires (dt : Q) (s : State) (fr : TravFrame)
    (below : list TravFrame) :
  travStack s = fr :: below -> travTimer s = 0%Q -> (0.8 <= dt)%Q ->
  UpdateTraversal dt s = traversal_phase fr below (fired dt s).
Proof.
  intros Hst Ht Hdt. unfold UpdateTraversal. rewrite Hst. cbn.
  autorewrite with pace. rewrite Ht.
  assert (E : Qlt_bool (0 + dt) 0.8 = false) by (apply Qlt_bool_false; lra).
  rewrite E. unfold fired. autorewrite with pace. rewrite Ht. reflexivity.
Qed.

Lemma graft_left (t : tree) (p : ptr) (l r a : tree) (n : Node) :
  deref t p = Nd l n r -> graft t (p ++ [L]) a = graft t p (Nd a n r).
Proof. intros H. now rewrite graft_app, H. Qed.

Lemma graft_right (t : tree) (p : ptr) (l r a : tree) (n : Node) :
  deref t p = Nd l n r -> graft t (p ++ [R]) a = graft t p (Nd l n a).
Proof. intros H. now rewrite graft_app, H. Qed.

Lemma fired_at (dt : Q) (s : State) m cap stack rt log :
  mode s = m -> travCap s = cap -> travStack s = stack -> root s = rt ->
  travLog s = log ->
  engine_at (fired dt s) m cap stack rt log.
Proof.
  intros. unfold engine_at, fired. cbn. autorewrite with pace.
  repeat split; assumption.
Qed.

Lemma descend_at (d : dir) (k st : Z) (p : ptr) (below : list TravFrame)
    (s : State) m cap rt log (l r : tree) (n : Node) :
  engine_at s m cap (mkFrame (Some p) st :: below) rt log ->
  deref rt p = Nd l n r ->
  (match d with L => l | R => r end <> Null ->
   (S (length below) < cap)%nat) ->
  exists s1,
    descend d k (mkFrame (Some p) st) below s = Ok s1
    /\ engine_at s1 m cap
         (frames0 (match d with L => l | R => r end) (p ++ [d])
          ++ mkFrame (Some p) k :: below) rt log.
Proof.
  intros (Hm & Hc & Ht & Hs & Hr & Hl) Hd Hcap.
  unfold descend. cbn [node]. rewrite Hr, Hd.
  destruct (match d with L => l | R => r end) as [|cl cn cr] eqn:E.
  - eexists. split; [reflexivity|]. repeat split; assumption.
  - cbn [link length]. rewrite Hc.
    assert (C : (S (length below) <? cap)%nat = true)
      by (apply Nat.ltb_lt, Hcap; discriminate).
    rewrite C. eexists. split; [reflexivity|]. repeat split; assumption.
Qed.

Lemma visit_at (k st : Z) (p : ptr) (below : list TravFrame)
    (s : State) m cap rt log (l r : tree) (n : Node) :
  engine_at s m cap (mkFrame (Some p) st :: below) rt log ->
  deref rt p = Nd l n r ->
  exists s1,
    visit k (mkFrame (Some p) st) below s = Ok s1
    /\ engine_at s1 m cap (mkFrame (Some p) k :: below)
         (graft rt p (Nd l (orange n) r)) (log ++ [p]).
Proof.
  intros (Hm & Hc & Ht & Hs & Hr & Hl) Hd.
  unfold visit, store. cbn [node]. rewrite Hr, Hd. cbn [bind].
  eexists. split; [reflexivity|].
  repeat split; try assumption; cbn.
  - apply (update_graft _ _ _ _ _ _ Hd).
  - now rewrite Hl.
Qed.

Lemma with_travHighlight_at (h : option ptr) (s : State) m cap stack rt log :
  engine_at s m cap stack rt log ->
  engine_at (with_travHighlight h s) m cap stack rt log.
Proof. intros H. exact H. Qed.

(** After the dwell, [UpdateTraversal] runs the phase of the top frame in a
    state that the engine sees as the one it was called in. *)
Lemma UpdateTraversal_enters (dt : Q) (s : State) m cap fr below rt log :
  (0.8 <= dt)%Q ->
  engine_at s m cap (fr :: below) rt log ->
  exists s', UpdateTraversal dt s = traversal_phase fr below s'
             /\ engine_at s' m cap (fr :: below) rt log.
Proof.
  intros Hdt (Hm & Hc & Ht & Hs & Hr & Hl).
  exists (fired dt s). split.
  - apply (UpdateTraversal_fires dt s _ _ Hs Ht Hdt).
  - apply fired_at; assumption.
Qed.

Ltac pin_state Ha :=
  repeat match type of Ha with
    | (if ?st =? ?c then _ else _) = _ =>
        destruct (Z.eqb_spec st c) as [->|_]; try discriminate Ha
    end.

(** One call of [UpdateTraversal] after the dwell, by the action of the top
    frame. *)
Lemma tick_descend (dt : Q) (s : State) m cap st p below rt log d k l n r :
  (0.8 <= dt)%Q ->
  engine_at s m cap (mkFrame (Some p) st :: below) rt log ->
  phase_action m st = Some (Descend d k) ->
  deref rt p = Nd l n r ->
  (match d with L => l | R => r end <> Null ->
   (S (length below) < cap)%nat) ->
  exists s1,
    UpdateTraversal dt s = Ok s1
    /\ engine_at s1 m cap
         (frames0 (match d with L => l | R => r end) (p ++ [d])
          ++ mkFrame (Some p) k :: below) rt log.
Proof.
  intros Hdt Hat Ha Hd Hcap.
  destruct (UpdateTraversal_enters dt s m cap _ below rt log Hdt Hat)
    as (s' & -> & F).
  clear Hat. unfold traversal_phase. rewrite (proj1 F).
  unfold phase_action in Ha.
  destruct m; try discriminate Ha; pin_state Ha; injection Ha as <- <-;
    cbn [node state Z.eqb Pos.eqb].
  - apply (descend_at L 1 0 p below _ _ cap rt log l r n); auto.
  - apply (descend_at R 3 2 p below _ _ cap rt log l r n); auto.
  - apply (descend_at L 2 1 p below _ _ cap rt log l r n); auto.
  - apply (descend_at R 3 2 p below _ _ cap rt log l r n); auto.
  - destruct (descend_at L 1 0 p below _ _ cap rt log l r n F Hd Hcap)
      as (s1 & -> & H1). eexists. split; [reflexivity|]. exact H1.
  - destruct (descend_at R 2 1 p below _ _ cap rt log l r n F Hd Hcap)
      as (s1 & -> & H1). eexists. split; [reflexivity|]. exact H1.
Qed.

Lemma tick_visit (dt : Q) (s : State) m cap st p below rt log k l n r :
  (0.8 <= dt)%Q ->
  engine_at s m cap (mkFrame (Some p) st :: below) rt log ->
  phase_action m st = Some (Visit k) ->
  deref rt p = Nd l n r ->
  exists s1,
    UpdateTraversal dt s = Ok s1
    /\ engine_at s1 m cap (mkFrame (Some p) k :: below)
         (graft rt p (Nd l (orange n) r)) (log ++ [p]).
Proof.
  intros Hdt Hat Ha Hd.
  destruct (UpdateTraversal_enters dt s m cap _ below rt log Hdt Hat)
    as (s' & -> & F).
  clear Hat. unfold traversal_phase. rewrite (proj1 F).
  unfold phase_action in Ha.
  destruct m; try discriminate Ha; pin_state Ha; injection Ha as <-;
    cbn [node state Z.eqb Pos.eqb];
    apply (visit_at _ _ p below _ _ cap rt log l r n); auto.
Qed.

Lemma tick_pop (dt : Q) (s : State) m cap st p below rt log :
  (0.8 <= dt)%Q ->
  engine_at s m cap (mkFrame (Some p) st :: below) rt log ->
  phase_action m st = Some Pop ->
  exists s1,
    UpdateTraversal dt s = Ok s1 /\ engine_at s1 m cap below rt log.
Proof.
  intros Hdt Hat Ha.
  destruct (UpdateTraversal_enters dt s m cap _ below rt log Hdt Hat)
    as (s' & -> & F).
  clear Hat. destruct F as (Fm & F2 & F3 & F4 & F5 & F6).
  unfold traversal_phase. rewrite Fm.
  unfold phase_action in Ha.
  destruct m; try discriminate Ha; pin_state Ha;
    (exists (with_travStack below s'); split; [reflexivity|]);
    repeat split; assumption.
Qed.

Lemma iterate_S (n : nat) (step : State -> result State) (s : State) :
  iterate (S n) step s = do s' <- step s ;; iterate n step s'.
Proof. reflexivity. Qed.

Section Engine.

Variable dt : Q.
Hypothesis dwell_elapsed : (0.8 <= dt)%Q.

(** The engine, entered in in-order mode on the frame of a subtree, leaves
    after four calls per node with the frames below untouched, the nodes of
    the subtree coloured, and their pointers logged in in-order. *)
Lemma engine_inorder (sub : tree) :
  forall s cap p below rt log,
    engine_at s TRAVERSING_IN cap (frames0 sub p ++ below) rt log ->
    deref rt p = sub ->
    (length below + height sub <= cap)%nat ->
    exists s',
      iterate (4 * size sub) (UpdateTraversal dt) s = Ok s'
      /\ engine_at s' TRAVERSING_IN cap below
           (graft rt p (tmap orange sub)) (log ++ inorder_from p sub).
Proof.
  induction sub as [|l IHl n r IHr]; intros s cap p below rt log Hat Hd Hh.
  - exists s. split; [reflexivity|].
    cbn [tmap inorder_from]. rewrite <- Hd, graft_deref, app_nil_r. exact Hat.
  - cbn [frames0 app] in Hat. cbn [height] in Hh.
    assert (Hnn : deref rt p <> Null) by (rewrite Hd; discriminate).
    destruct (deref_child _ _ _ _ _ Hd) as [DL DR].
    destruct (tick_descend dt s _ cap 0 p below rt log L 1 l n r
                dwell_elapsed Hat eq_refl Hd) as (s1 & E1 & H1).
    { intros Hl. destruct l; [congruence|]. cbn [height] in Hh. lia. }
    destruct (IHl s1 cap (p ++ [L]) (mkFrame (Some p) 1 :: below) rt log
                H1 DL) as (s2 & E2 & H2).
    { cbn [length]. lia. }
    rewrite (graft_left _ _ _ _ _ _ Hd) in H2.
    destruct (tick_visit dt s2 _ cap 1 p below _ _ 2 _ n r
                dwell_elapsed H2 eq_refl (deref_graft _ _ _ Hnn))
      as (s3 & E3 & H3).
    rewrite graft_graft in H3.
    destruct (tick_descend dt s3 _ cap 2 p below _ _ R 3 _ _ r
                dwell_elapsed H3 eq_refl (deref_graft _ _ _ Hnn))
      as (s4 & E4 & H4).
    { intros Hr. destruct r; [congruence|]. cbn [height] in Hh. lia. }
    destruct (deref_graft_child rt p (tmap orange l) r (orange n) Hnn)
      as [_ DR'].
    destruct (IHr s4 cap (p ++ [R]) (mkFrame (Some p) 3 :: below) _ _
                H4 DR') as (s5 & E5 & H5).
    { cbn [length]. lia. }
    destruct (graft_child rt p (tmap orange l) r (tmap orange r) (orange n)
                Hnn) as [_ G]. rewrite G in H5.
    destruct (tick_pop dt s5 _ cap 3 p below _ _ dwell_elapsed H5 eq_refl)
      as (s6 & E6 & H6).
    exists s6. split.
    + replace (4 * size (Nd l n r))%nat
        with (S (4 * size l + S (S (4 * size r + 1))))%nat
        by (cbn [size]; lia).
      rewrite iterate_S, E1. cbn [bind].
      rewrite iterate_add, E2. cbn [bind].
      rewrite iterate_S, E3. cbn [bind].
      rewrite iterate_S, E4. cbn [bind].
      rewrite iterate_add, E5. cbn [bind].
      rewrite iterate_S, E6. reflexivity.
    + cbn [inorder_from tmap]. rewrite <- !app_assoc in H6. exact H6.
Qed.

Lemma engine_preorder (sub : tree) :
  forall s cap p below rt log,
    engine_at s TRAVERSING_PRE cap (frames0 sub p ++ below) rt log ->
    deref rt p = sub ->
    (length below + height sub <= cap)%nat ->
    exists s',
      iterate (4 * size sub) (UpdateTraversal dt) s = Ok s'
      /\ engine_at s' TRAVERSING_PRE cap below
           (graft rt p (tmap orange sub)) (log ++ preorder_from p sub).
Proof.
  induction sub as [|l IHl n r IHr]; intros s cap p below rt log Hat Hd Hh.
  - exists s. split; [reflexivity|].
    cbn [tmap preorder_from]. rewrite <- Hd, graft_deref, app_nil_r. exact Hat.
  - cbn [frames0 app] in Hat. cbn [height] in Hh.
    assert (Hnn : deref rt p <> Null) by (rewrite Hd; discriminate).
    destruct (tick_visit dt s _ cap 0 p below _ _ 1 _ n r
                dwell_elapsed Hat eq_refl Hd) as (s1 & E1 & H1).
    destruct (tick_descend dt s1 _ cap 1 p below _ _ L 2 l _ r
                dwell_elapsed H1 eq_refl (deref_graft _ _ _ Hnn))
      as (s2 & E2 & H2).
    { intros Hl. destruct l; [congruence|]. cbn [height] in Hh. lia. }
    destruct (deref_graft_child rt p l r (orange n) Hnn) as [DL _].
    destruct (IHl s2 cap (p ++ [L]) (mkFrame (Some p) 2 :: below) _ _
                H2 DL) as (s3 & E3 & H3).
    { cbn [length]. lia. }
    destruct (graft_child rt p l r (tmap orange l) (orange n) Hnn)
      as [G _]. rewrite G in H3.
    destruct (tick_descend dt s3 _ cap 2 p below _ _ R 3 _ _ r
                dwell_elapsed H3 eq_refl (deref_graft _ _ _ Hnn))
      as (s4 & E4 & H4).
    { intros Hr. destruct r; [congruence|]. cbn [height] in Hh. lia. }
    destruct (deref_graft_child rt p (tmap orange l) r (orange n) Hnn)
      as [_ DR].
    destruct (IHr s4 cap (p ++ [R]) (mkFrame (Some p) 3 :: below) _ _
                H4 DR) as (s5 & E5 & H5).
    { cbn [length]. lia. }
    destruct (graft_child rt p (tmap orange l) r (tmap orange r) (orange n)
                Hnn) as [_ G']. rewrite G' in H5.
    destruct (tick_pop dt s5 _ cap 3 p below _ _ dwell_elapsed H5 eq_refl)
      as (s6 & E6 & H6).
    exists s6. split.
    + replace (4 * size (Nd l n r))%nat
        with (S (S (4 * size l + S (4 * size r + 1))))%nat
        by (cbn [size]; lia).
      rewrite iterate_S, E1. cbn [bind].
      rewrite iterate_S, E2. cbn [bind].
      rewrite iterate_add, E3. cbn [bind].
      rewrite iterate_S, E4. cbn [bind].
      rewrite iterate_add, E5. cbn [bind].
      rewrite iterate_S, E6. reflexivity.
    + cbn [preorder_from tmap]. rewrite <- !app_assoc in H6. exact H6.
Qed.

Lemma engine_postorder (sub : tree) :
  forall s cap p below rt log,
    engine_at s TRAVERSING_POST cap (frames0 sub p ++ below) rt log ->
    deref rt p = sub ->
    (length below + height sub <= cap)%nat ->
    exists s',
      iterate (4 * size sub) (UpdateTraversal dt) s = Ok s'
      /\ engine_at s' TRAVERSING_POST cap below
           (graft rt p (tmap orange sub)) (log ++ postorder_from p sub).
Proof.
  induction sub as [|l IHl n r IHr]; intros s cap p below rt log Hat Hd Hh.
  - exists s. split; [reflexivity|].
    cbn [tmap postorder_from]. rewrite <- Hd, graft_deref, app_nil_r. exact Hat.
  - cbn [frames0 app] in Hat. cbn [height] in Hh.
    assert (Hnn : deref rt p <> Null) by (rewrite Hd; discriminate).
    destruct (deref_child _ _ _ _ _ Hd) as [DL DR].
    destruct (tick_descend dt s _ cap 0 p below rt log L 1 l n r
                dwell_elapsed Hat eq_refl Hd) as (s1 & E1 & H1).
    { intros Hl. destruct l; [congruence|]. cbn [height] in Hh. lia. }
    destruct (IHl s1 cap (p ++ [L]) (mkFrame (Some p) 1 :: below) rt log
                H1 DL) as (s2 & E2 & H2).
    { cbn [length]. lia. }
    rewrite (graft_left _ _ _ _ _ _ Hd) in H2.
    destruct (tick_descend dt s2 _ cap 1 p below _ _ R 2 _ n r
                dwell_elapsed H2 eq_refl (deref_graft _ _ _ Hnn))
      as (s3 & E3 & H3).
    { intros Hr. destruct r; [congruence|]. cbn [height] in Hh. lia. }
    destruct (deref_graft_child rt p (tmap orange l) r n Hnn) as [_ DR'].
    destruct (IHr s3 cap (p ++ [R]) (mkFrame (Some p) 2 :: below) _ _
                H3 DR') as (s4 & E4 & H4).
    { cbn [length]. lia. }
    destruct (graft_child rt p (tmap orange l) r (tmap orange r) n Hnn)
      as [_ G]. rewrite G in H4.
    destruct (tick_visit dt s4 _ cap 2 p below _ _ 3 _ n _
                dwell_elapsed H4 eq_refl (deref_graft _ _ _ Hnn))
      as (s5 & E5 & H5).
    rewrite graft_graft in H5.
    destruct (tick_pop dt s5 _ cap 3 p below _ _ dwell_elapsed H5 eq_refl)
      as (s6 & E6 & H6).
    exists s6. split.
    + replace (4 * size (Nd l n r))%nat
        with (S (4 * size l + S (4 * size r + 2)))%nat
        by (cbn [size]; lia).
      rewrite iterate_S, E1. cbn [bind].
      rewrite iterate_add, E2. cbn [bind].
      rewrite iterate_S, E3. cbn [bind].
      rewrite iterate_add, E4. cbn [bind].
      replace 2%nat with (S 1) by reflexivity.
      rewrite iterate_S, E5. cbn [bind].
      rewrite iterate_S, E6. reflexivity.
    + cbn [postorder_from tmap]. rewrite <- !app_assoc in H6. exact H6.
Qed.

End Engine.

(* ----------------------------------------------------------------- *)
(** ** Complete traversals *)

Lemma inorder_from_tmap (f : Node -> Node) (t : tree) :
  forall p, inorder_from p (tmap f t) = inorder_from p t.
Proof.
  induction t as [|l IHl n r IHr]; intros p; simpl; [reflexivity|].
  now rewrite IHl, IHr.
Qed.

Lemma preorder_from_tmap (f : Node -> Node) (t : tree) :
  forall p, preorder_from p (tmap f t) = preorder_from p t.
Proof.
  induction t as [|l IHl n r IHr]; intros p; simpl; [reflexivity|].
  now rewrite IHl, IHr.
Qed.

Lemma postorder_from_tmap (f : Node -> Node) (t : tree) :
  forall p, postorder_from p (tmap f t) = postorder_from p t.
Proof.
  induction t as [|l IHl n r IHr]; intros p; simpl; [reflexivity|].
  now rewrite IHl, IHr.
Qed.

Lemma keys_at_app (t : tree) (a b : list ptr) :
  keys_at t (a ++ b) = keys_at t a ++ keys_at t b.
Proof. apply flat_map_app. Qed.

Lemma keys_at_cons (t : tree) (p : ptr) (ps : list ptr) l n r :
  deref t p = Nd l n r -> keys_at t (p :: ps) = value n :: keys_at t ps.
Proof. intros H. unfold keys_at. simpl. now rewrite H. Qed.

Lemma keys_at_inorder_from (t sub : tree) :
  forall p, deref t p = sub -> keys_at t (inorder_from p sub) = inorder sub.
Proof.
  induction sub as [|l IHl n r IHr]; intros p H;
    [reflexivity | cbn [inorder_from preorder_from postorder_from inorder
                     preorder postorder]].
  destruct (deref_child _ _ _ _ _ H) as [Hl Hr].
  rewrite keys_at_app, (keys_at_cons _ _ _ _ _ _ H), (IHl _ Hl), (IHr _ Hr).
  reflexivity.
Qed.

Lemma keys_at_preorder_from (t sub : tree) :
  forall p, deref t p = sub -> keys_at t (preorder_from p sub) = preorder sub.
Proof.
  induction sub as [|l IHl n r IHr]; intros p H;
    [reflexivity | cbn [inorder_from preorder_from postorder_from inorder
                     preorder postorder]].
  destruct (deref_child _ _ _ _ _ H) as [Hl Hr].
  rewrite (keys_at_cons _ _ _ _ _ _ H), keys_at_app, (IHl _ Hl), (IHr _ Hr).
  reflexivity.
Qed.

Lemma keys_at_postorder_from (t sub : tree) :
  forall p, deref t p = sub ->
            keys_at t (postorder_from p sub) = postorder sub.
Proof.
  induction sub as [|l IHl n r IHr]; intros p H;
    [reflexivity | cbn [inorder_from preorder_from postorder_from inorder
                     preorder postorder]].
  destruct (deref_child _ _ _ _ _ H) as [Hl Hr].
  rewrite !keys_at_app, (keys_at_cons _ _ _ _ _ _ H), (IHl _ Hl), (IHr _ Hr).
  reflexivity.
Qed.

Lemma height_tmap (f : Node -> Node) (t : tree) : height (tmap f t) = height t.
Proof. induction t; simpl; congruence. Qed.

Lemma size_tmap (f : Node -> Node) (t : tree) : size (tmap f t) = size t.
Proof. induction t; simpl; congruence. Qed.

(** The start functions on a tree that has a root, fits the helper stack
    and has a vector with room for one frame per level. *)
Lemma start_traversal_at (grow : nat -> nat) (m : Mode)
    (labels : list string) (s : State) :
  root s <> Null -> (height (root s) <= 100)%nat ->
  (height (root s) <= travCap s)%nat ->
  exists s1,
    start_traversal grow m labels s = Ok s1
    /\ engine_at s1 m (travCap s) [mkFrame (Some []) 0]
         (tmap (fun n => set_color n LIGHTGRAY) (root s)) [].
Proof.
  intros Hn Hh Hc. unfold start_traversal, start_steps. cbn.
  unfold ResetTreeColors. rewrite (full_walk_tmap _ _ Hh). cbn.
  eexists. split; [reflexivity|].
  unfold engine_at. cbn.
  destruct (root s) as [|l n r]; [congruence|].
  destruct (travCap s) as [|c]; [simpl in Hc; lia|].
  repeat split.
Qed.

Lemma UpdateTraversal_done (dt : Q) (s : State) :
  travStack s = [] ->
  exists s', UpdateTraversal dt s = Ok s' /\ mode s' = IDLE
             /\ root s' = root s /\ travLog s' = travLog s.
Proof.
  intros H. unfold UpdateTraversal. rewrite H.
  eexists. split; [reflexivity|]. repeat split.
Qed.

(** X4.  In-order traversal.  On a tree with a root, of height at most 100
    and at most the capacity of [travStack], the engine started by
    [StartTraverseIn] and called after each dwell ends with an empty stack
    after four calls per node; the visit phase has then marked every node
    exactly in the order of the recursive in-order traversal, all nodes are
    orange, and the next call returns to [IDLE]. *)
Theorem traversal_inorder_follows_recursion
    (grow : nat -> nat) (s : State) (dt : Q) :
  root s <> Null -> (height (root s) <= 100)%nat ->
  (height (root s) <= travCap s)%nat -> (0.8 <= dt)%Q ->
  exists s1 s2 s3,
    StartTraverseIn grow s = Ok s1
    /\ iterate (4 * size (root s)) (UpdateTraversal dt) s1 = Ok s2
    /\ travStack s2 = []
    /\ travLog s2 = inorder_from [] (root s)
    /\ keys_at (root s) (travLog s2) = inorder (root s)
    /\ root s2 = tmap orange (tmap (fun n => set_color n LIGHTGRAY) (root s))
    /\ UpdateTraversal dt s2 = Ok s3 /\ mode s3 = IDLE.
Proof.
  intros Hn Hh Hc Hdt.
  destruct (start_traversal_at grow TRAVERSING_IN
              ["In-order traversal:"; "Go Left"; "Visit Node"; "Go Right"]%string
              s Hn Hh Hc) as (s1 & E1 & H1).
  set (t' := tmap (fun n => set_color n LIGHTGRAY) (root s)) in *.
  destruct (engine_inorder dt Hdt t' s1 (travCap s) [] [] t' []) as (s2 & E2 & H2).
  { destruct (root s); [congruence|]. exact H1. }
  { reflexivity. }
  { unfold t'. rewrite height_tmap. simpl. lia. }
  destruct H2 as (_ & _ & _ & Hst & Hrt & Hlog).
  destruct (UpdateTraversal_done dt s2 Hst) as (s3 & E3 & Hm3 & _).
  exists s1, s2, s3.
  unfold t' in *. rewrite size_tmap in E2. rewrite inorder_from_tmap in Hlog.
  cbn [graft app] in *.
  repeat split; auto.
  rewrite Hlog. now apply keys_at_inorder_from.
Qed.

Lemma traversal_inorder_follows_recursion_witness :
  let s := with_travCap 3 (with_root (insert_all [50; 30; 70; 20; 40] Null) initial) in
  exists s1 s2 s3,
    StartTraverseIn grow_double s = Ok s1
    /\ iterate (4 * size (root s)) (UpdateTraversal 1) s1 = Ok s2
    /\ travStack s2 = []
    /\ travLog s2 = inorder_from [] (root s)
    /\ keys_at (root s) (travLog s2) = inorder (root s)
    /\ root s2 = tmap orange (tmap (fun n => set_color n LIGHTGRAY) (root s))
    /\ UpdateTraversal 1 s2 = Ok s3 /\ mode s3 = IDLE.
Proof.
  apply (traversal_inorder_follows_recursion grow_double
           (with_travCap 3
              (with_root (insert_all [50; 30; 70; 20; 40] Null) initial)) 1%Q).
  - discriminate.
  - simpl. lia.
  - simpl. lia.
  - vm_compute. discriminate.
Defined.

(** X5.  Pre-order traversal.  On a tree with a root, of height at most 100
    and at most the capacity of [travStack], the engine started by
    [StartTraversePre] and called after each dwell ends with an empty stack
    after four calls per node; the visit phase has then marked every node
    exactly in the order of the recursive pre-order traversal, all nodes are
    orange, and the next call returns to [IDLE]. *)
Theorem traversal_preorder_follows_recursion
    (grow : nat -> nat) (s : State) (dt : Q) :
  root s <> Null -> (height (root s) <= 100)%nat ->
  (height (root s) <= travCap s)%nat -> (0.8 <= dt)%Q ->
  exists s1 s2 s3,
    StartTraversePre grow s = Ok s1
    /\ iterate (4 * size (root s)) (UpdateTraversal dt) s1 = Ok s2
    /\ travStack s2 = []
    /\ travLog s2 = preorder_from [] (root s)
    /\ keys_at (root s) (travLog s2) = preorder (root s)
    /\ root s2 = tmap orange (tmap (fun n => set_color n LIGHTGRAY) (root s))
    /\ UpdateTraversal dt s2 = Ok s3 /\ mode s3 = IDLE.
Proof.
  intros Hn Hh Hc Hdt.
  destruct (start_traversal_at grow TRAVERSING_PRE
              ["Pre-order traversal:"; "Visit Node"; "Go Left"; "Go Right"]%string
              s Hn Hh Hc) as (s1 & E1 & H1).
  set (t' := tmap (fun n => set_color n LIGHTGRAY) (root s)) in *.
  destruct (engine_preorder dt Hdt t' s1 (travCap s) [] [] t' []) as (s2 & E2 & H2).
  { destruct (root s); [congruence|]. exact H1. }
  { reflexivity. }
  { unfold t'. rewrite height_tmap. simpl. lia. }
  destruct H2 as (_ & _ & _ & Hst & Hrt & Hlog).
  destruct (UpdateTraversal_done dt s2 Hst) as (s3 & E3 & Hm3 & _).
  exists s1, s2, s3.
  unfold t' in *. rewrite size_tmap in E2. rewrite preorder_from_tmap in Hlog.
  cbn [graft app] in *.
  repeat split; auto.
  rewrite Hlog. now apply keys_at_preorder_from.
Qed.

Lemma traversal_preorder_follows_recursion_witness :
  let s := with_travCap 3 (with_root (insert_all [50; 30; 70; 20; 40] Null) initial) in
  exists s1 s2 s3,
    StartTraversePre grow_double s = Ok s1
    /\ iterate (4 * size (root s)) (UpdateTraversal 1) s1 = Ok s2
    /\ travStack s2 = []
    /\ travLog s2 = preorder_from [] (root s)
    /\ keys_at (root s) (travLog s2) = preorder (root s)
    /\ root s2 = tmap orange (tmap (fun n => set_color n LIGHTGRAY) (root s))
    /\ UpdateTraversal 1 s2 = Ok s3 /\ mode s3 = IDLE.
Proof.
  apply (traversal_preorder_follows_recursion grow_double
           (with_travCap 3
              (with_root (insert_all [50; 30; 70; 20; 40] Null) initial)) 1%Q).
  - discriminate.
  - simpl. lia.
  - simpl. lia.
  - vm_compute. discriminate.
Defined.

(** X6.  Post-order traversal.  On a tree with a root, of height at most 100
    and at most the capacity of [travStack], the engine started by
    [StartTraversePost] and called after each dwell ends with an empty stack
    after four calls per node; the visit phase has then marked every node
    exactly in the order of the recursive post-order traversal, all nodes are
    orange, and the next call returns to [IDLE]. *)
Theorem traversal_postorder_follows_recursion
    (grow : nat -> nat) (s : State) (dt : Q) :
  root s <> Null -> (height (root s) <= 100)%nat ->
  (height (root s) <= travCap s)%nat -> (0.8 <= dt)%Q ->
  exists s1 s2 s3,
    StartTraversePost grow s = Ok s1
    /\ iterate (4 * size (root s)) (UpdateTraversal dt) s1 = Ok s2
    /\ travStack s2 = []
    /\ travLog s2 = postorder_from [] (root s)
    /\ keys_at (root s) (travLog s2) = postorder (root s)
    /\ root s2 = tmap orange (tmap (fun n => set_color n LIGHTGRAY) (root s))
    /\ UpdateTraversal dt s2 = Ok s3 /\ mode s3 = IDLE.
Proof.
  intros Hn Hh Hc Hdt.
  destruct (start_traversal_at grow TRAVERSING_POST
              ["Post-order traversal:"; "Go Left"; "Go Right"; "Visit Node"]%string
              s Hn Hh Hc) as (s1 & E1 & H1).
  set (t' := tmap (fun n => set_color n LIGHTGRAY) (root s)) in *.
  destruct (engine_postorder dt Hdt t' s1 (travCap s) [] [] t' []) as (s2 & E2 & H2).
  { destruct (root s); [congruence|]. exact H1. }
  { reflexivity. }
  { unfold t'. rewrite height_tmap. simpl. lia. }
  destruct H2 as (_ & _ & _ & Hst & Hrt & Hlog).
  destruct (UpdateTraversal_done dt s2 Hst) as (s3 & E3 & Hm3 & _).
  exists s1, s2, s3.
  unfold t' in *. rewrite size_tmap in E2. rewrite postorder_from_tmap in Hlog.
  cbn [graft app] in *.
  repeat split; auto.
  rewrite Hlog. now apply keys_at_postorder_from.
Qed.

Lemma traversal_postorder_follows_recursion_witness :
  let s := with_travCap 3 (with_root (insert_all [50; 30; 70; 20; 40] Null) initial) in
  exists s1 s2 s3,
    StartTraversePost grow_double s = Ok s1
    /\ iterate (4 * size (root s)) (UpdateTraversal 1) s1 = Ok s2
    /\ travStack s2 = []
    /\ travLog s2 = postorder_from [] (root s)
    /\ keys_at (root s) (travLog s2) = postorder (root s)
    /\ root s2 = tmap orange (tmap (fun n => set_color n LIGHTGRAY) (root s))
    /\ UpdateTraversal 1 s2 = Ok s3 /\ mode s3 = IDLE.
Proof.
  apply (traversal_postorder_follows_recursion grow_double
           (with_travCap 3
              (with_root (insert_all [50; 30; 70; 20; 40] Null) initial)) 1%Q).
  - discriminate.
  - simpl. lia.
  - simpl. lia.
  - vm_compute. discriminate.
Defined.

(* ----------------------------------------------------------------- *)
(** ** The reference kept across [push_back] *)

Lemma tick_descend_full (dt : Q) (s : State) m cap st p below rt log d k l n r :
  (0.8 <= dt)%Q ->
  engine_at s m cap (mkFrame (Some p) st :: below) rt log ->
  phase_action m st = Some (Descend d k) ->
  deref rt p = Nd l n r ->
  match d with L => l | R => r end <> Null ->
  (cap <= S (length below))%nat ->
  UpdateTraversal dt s = Fault DanglingRef.
Proof.
  intros Hdt Hat Ha Hd Hch Hcap.
  destruct (UpdateTraversal_enters dt s m cap _ below rt log Hdt Hat)
    as (s' & -> & F).
  clear Hat. destruct F as (Fm & F2 & F3 & F4 & F5 & F6).
  assert (D : forall s'', root s'' = rt -> travCap s'' = cap ->
                descend d k (mkFrame (Some p) st) below s'' = Fault DanglingRef).
  { intros s'' Hr Hc. unfold descend. cbn [node]. rewrite Hr, Hd.
    destruct (match d with L => l | R => r end); [congruence|].
    cbn [link length]. rewrite Hc.
    assert (C : (S (length below) <? cap)%nat = false)
      by (apply Nat.ltb_ge; exact Hcap).
    now rewrite C. }
  unfold traversal_phase. rewrite Fm.
  unfold phase_action in Ha.
  destruct m; try discriminate Ha; pin_state Ha; injection Ha as <- <-;
    cbn [node state Z.eqb Pos.eqb]; rewrite D; auto.
Qed.

Lemma start_traversal_fresh (grow : nat -> nat) (m : Mode)
    (labels : list string) (s : State) :
  root s <> Null -> (height (root s) <= 100)%nat -> travCap s = 0%nat ->
  exists s1,
    start_traversal grow m labels s = Ok s1
    /\ engine_at s1 m (grow 0%nat) [mkFrame (Some []) 0]
         (tmap (fun n => set_color n LIGHTGRAY) (root s)) [].
Proof.
  intros Hn Hh Hc. unfold start_traversal, start_steps. cbn.
  unfold ResetTreeColors. rewrite (full_walk_tmap _ _ Hh). cbn.
  eexists. split; [reflexivity|].
  unfold engine_at. cbn. rewrite Hc.
  destruct (root s) as [|l n r]; [congruence|].
  repeat split.
Qed.

(** X7.  The first traversal of a program that has just started.  The
    vector [travStack] then has capacity 0, and one push gives it capacity
    [grow 0 = 1] (the value in libstdc++, libc++ and the MSVC library).  On
    any tree whose root has a child, each of the three traversals, within
    its first three calls after the dwell, pushes a child frame on the full
    vector and then assigns to [frame.state] through the reference the push
    has invalidated. *)
Theorem first_traversal_uses_invalidated_reference
    (grow : nat -> nat) (s : State) (dt : Q) (l r : tree) (n : Node) :
  root s = Nd l n r -> l <> Null \/ r <> Null ->
  (height (root s) <= 100)%nat -> travCap s = 0%nat -> grow 0%nat = 1%nat ->
  (0.8 <= dt)%Q ->
  (exists s1, StartTraverseIn grow s = Ok s1
              /\ iterate 3 (UpdateTraversal dt) s1 = Fault DanglingRef)
  /\ (exists s1, StartTraversePre grow s = Ok s1
                 /\ iterate 3 (UpdateTraversal dt) s1 = Fault DanglingRef)
  /\ (exists s1, StartTraversePost grow s = Ok s1
                 /\ iterate 3 (UpdateTraversal dt) s1 = Fault DanglingRef).
Proof.
  intros Hr Hch Hh Hc Hg Hdt.
  assert (Hn : root s <> Null) by (rewrite Hr; discriminate).
  assert (start : forall m labels, exists s1,
             start_traversal grow m labels s = Ok s1
             /\ engine_at s1 m 1%nat [mkFrame (Some []) 0]
                  (tmap (fun n => set_color n LIGHTGRAY) (Nd l n r)) []).
  { intros m labels.
    destruct (start_traversal_fresh grow m labels s Hn Hh Hc) as (s1 & E & H).
    rewrite Hg, Hr in H. eauto. }
  cbn [tmap] in start.
  set (g := fun n0 : Node => set_color n0 LIGHTGRAY) in *.
  assert (Hl : l <> Null -> tmap g l <> Null) by (destruct l; simpl; congruence).
  assert (Hrr : r <> Null -> tmap g r <> Null) by (destruct r; simpl; congruence).
  assert (Hl0 : l = Null -> tmap g l = Null) by (intros ->; reflexivity).
  split; [|split].
  - destruct (start TRAVERSING_IN
                ["In-order traversal:"; "Go Left"; "Visit Node"; "Go Right"]%string)
      as (s1 & E & H1).
    exists s1. split; [exact E|].
    destruct l as [|ll ln lr].
    + destruct Hch as [C|Hr']; [congruence|].
      destruct (tick_descend dt s1 _ _ 0 [] [] _ _ L 1 _ _ _ Hdt H1 eq_refl eq_refl)
        as (s2 & E2 & H2); [simpl; congruence|].
      destruct (tick_visit dt s2 _ _ 1 [] [] _ _ 2 _ _ _ Hdt H2 eq_refl eq_refl)
        as (s3 & E3 & H3).
      rewrite iterate_S, E2. cbn [bind]. rewrite iterate_S, E3. cbn [bind].
      rewrite iterate_S.
      rewrite (tick_descend_full dt s3 _ _ 2 [] [] _ _ R 3 _ _ _ Hdt H3
                 eq_refl eq_refl); auto.
    + rewrite iterate_S.
      rewrite (tick_descend_full dt s1 _ _ 0 [] [] _ _ L 1 _ _ _ Hdt H1
                 eq_refl eq_refl); auto. discriminate.
  - destruct (start TRAVERSING_PRE
                ["Pre-order traversal:"; "Visit Node"; "Go Left"; "Go Right"]%string)
      as (s1 & E & H1).
    exists s1. split; [exact E|].
    destruct (tick_visit dt s1 _ _ 0 [] [] _ _ 1 _ _ _ Hdt H1 eq_refl eq_refl)
      as (s2 & E2 & H2).
    rewrite iterate_S, E2. cbn [bind].
    destruct l as [|ll ln lr].
    + destruct Hch as [C|Hr']; [congruence|].
      destruct (tick_descend dt s2 _ _ 1 [] [] _ _ L 2 _ _ _ Hdt H2 eq_refl eq_refl)
        as (s3 & E3 & H3); [simpl; congruence|].
      rewrite iterate_S, E3. cbn [bind]. rewrite iterate_S.
      rewrite (tick_descend_full dt s3 _ _ 2 [] [] _ _ R 3 _ _ _ Hdt H3
                 eq_refl eq_refl); auto.
    + rewrite iterate_S.
      rewrite (tick_descend_full dt s2 _ _ 1 [] [] _ _ L 2 _ _ _ Hdt H2
                 eq_refl eq_refl); auto. discriminate.
  - destruct (start TRAVERSING_POST
                ["Post-order traversal:"; "Go Left"; "Go Right"; "Visit Node"]%string)
      as (s1 & E & H1).
    exists s1. split; [exact E|].
    destruct l as [|ll ln lr].
    + destruct Hch as [C|Hr']; [congruence|].
      destruct (tick_descend dt s1 _ _ 0 [] [] _ _ L 1 _ _ _ Hdt H1 eq_refl eq_refl)
        as (s2 & E2 & H2); [simpl; congruence|].
      rewrite iterate_S, E2. cbn [bind]. rewrite iterate_S.
      rewrite (tick_descend_full dt s2 _ _ 1 [] [] _ _ R 2 _ _ _ Hdt H2
                 eq_refl eq_refl); auto.
    + rewrite iterate_S.
      rewrite (tick_descend_full dt s1 _ _ 0 [] [] _ _ L 1 _ _ _ Hdt H1
                 eq_refl eq_refl); auto. discriminate.
Qed.

Lemma first_traversal_uses_invalidated_reference_witness :
  let s := with_root (insert_all [50; 30] Null) initial in
  (exists s1, StartTraverseIn grow_double s = Ok s1
              /\ iterate 3 (UpdateTraversal 1) s1 = Fault DanglingRef)
  /\ (exists s1, StartTraversePre grow_double s = Ok s1
                 /\ iterate 3 (UpdateTraversal 1) s1 = Fault DanglingRef)
  /\ (exists s1, StartTraversePost grow_double s = Ok s1
                 /\ iterate 3 (UpdateTraversal 1) s1 = Fault DanglingRef).
Proof.
  apply (first_traversal_uses_invalidated_reference grow_double
           (with_root (insert_all [50; 30] Null) initial) 1%Q
           (CreateNode 30) Null (fresh 50)).
  - reflexivity.
  - left. discriminate.
  - simpl. lia.
  - reflexivity.
  - reflexivity.
  - vm_compute. discriminate.
Defined.

(* ----------------------------------------------------------------- *)
(** ** The Flash phase of the delete animation *)

Lemma pace_cases (dt : Q) (s : State) :
  length (algoSteps s) = 5%nat -> 0 <= algoStepIndex s <= 4 ->
  (pace dt s = with_algoTimer 0%Q
                 (with_algoStepIndex (algoStepIndex s + 1)
                    (with_algoTimer (algoTimer s + dt)%Q s))
   /\ algoStepIndex s < 4 /\ (0.5 < algoTimer s + dt)%Q)
  \/ (pace dt s = with_algoTimer (algoTimer s + dt)%Q s
      /\ (algoStepIndex s = 4 \/ (algoTimer s + dt <= 0.5)%Q)).
Proof.
  intros Hlen Hi. unfold pace. cbn. rewrite Hlen.
  change (to_size_t (Z.of_nat 5 - 1)) with 4.
  assert (E : to_size_t (algoStepIndex s) = algoStepIndex s).
  { unfold to_size_t. apply Z.mod_small. lia. }
  rewrite E.
  destruct (Qlt_bool algoSpeed (algoTimer s + dt)) eqn:Q1;
    destruct (algoStepIndex s <? 4) eqn:Z1; cbn [andb].
  - left. apply Qlt_bool_true in Q1. apply Z.ltb_lt in Z1. auto.
  - right. apply Z.ltb_ge in Z1. split; [reflexivity|]. left. lia.
  - right. apply Qlt_bool_false in Q1. split; [reflexivity|]. now right.
  - right. apply Qlt_bool_false in Q1. split; [reflexivity|]. now right.
Qed.

Lemma count_bound (c : Z) (F A : Q) :
  (0 <= F)%Q -> (A <= 0.5)%Q -> (F + 0.12 * inject_Z c <= A + 0.12)%Q ->
  c <= 5.
Proof.
  intros HF HA H.
  destruct (Z_le_gt_dec c 5) as [|G]; [assumption|exfalso].
  assert (H6 : (inject_Z 6 <= inject_Z c)%Q) by (rewrite <- Zle_Qle; lia).
  change (inject_Z 6) with 6%Q in H6. lra.
Qed.

Lemma store_Ok (t : tree) (p : ptr) (f : Node -> Node) (t' : tree) :
  store t p f = Ok t' -> t' = update t p f.
Proof.
  unfold store. destruct (deref t p); [discriminate|]. now intros [= <-].
Qed.

Lemma UpdateDelete_flash_inv (dt : Q) (s s' : State) :
  (0 <= dt)%Q -> flash_inv s -> UpdateDelete dt s = Ok s' -> flash_inv s'.
Proof.
  intros Hdt (Hlen & HA & HF & Hc & Hcase) E.
  unfold UpdateDelete in E. destruct (delNode s) as [p|].
  2:{ injection E as <-. repeat split; auto. }
  assert (Hi : 0 <= algoStepIndex s <= 4) by (destruct Hcase as [(?&?)|[(?&?)|(?&?)]]; lia).
  pose proof (pace_cases dt s Hlen Hi) as P.
  assert (V : length (algoSteps (pace dt s)) = 5%nat
              /\ delFlashTimer (pace dt s) = delFlashTimer s
              /\ delFlashCount (pace dt s) = delFlashCount s)
    by (autorewrite with pace; auto).
  remember (pace dt s) as s1 eqn:Hs1.
  assert (W : (algoStepIndex s1 = algoStepIndex s + 1 /\ algoTimer s1 = 0%Q
               /\ algoStepIndex s < 4 /\ (0.5 < algoTimer s + dt)%Q)
              \/ (algoStepIndex s1 = algoStepIndex s
                  /\ algoTimer s1 = (algoTimer s + dt)%Q
                  /\ (algoStepIndex s = 4 \/ (algoTimer s + dt <= 0.5)%Q))).
  { destruct P as [(-> & ? & ?)|(-> & ?)]; [left | right]; auto. }
  clear P Hs1. destruct V as (Hlen1 & HF1 & Hc1).
  cbn zeta in E.
  destruct (algoStepIndex s1 =? 1) eqn:I1.
  { (* Flash *)
    apply Z.eqb_eq in I1.
    assert (HA1 : (algoTimer s1 <= 0.5)%Q /\ (0 <= algoTimer s1)%Q
                  /\ ((delFlashCount s = 0 /\ (delFlashTimer s == 0)%Q
                       /\ algoTimer s1 = 0%Q)
                      \/ (delFlashTimer s + dt
                          + 0.12 * inject_Z (delFlashCount s)
                          <= algoTimer s1 + 0.12)%Q)).
    { destruct W as [(Wi & -> & _ & _)|(Wi & -> & Wc)].
      - assert (I0 : algoStepIndex s = 0) by lia.
        destruct Hcase as [(_ & C0 & F0)|[(C & _)|(C & _)]]; try lia.
        split; [lra|]. split; [lra|]. left. auto.
      - destruct Hcase as [(C & _)|[(_ & B & _)|(C & _)]]; try lia.
        destruct Wc as [Wc|Wc]; [lia|].
        split; [lra|]. split; [lra|]. right. lra. }
    destruct HA1 as (HA1 & HA1' & HB).
    cbn in E. rewrite HF1, Hc1 in E.
    destruct (Qlt_bool 0.12 (delFlashTimer s + dt)) eqn:T.
    - apply Qlt_bool_true in T.
      destruct (store _ p _) as [rt|] eqn:St; [|discriminate E].
      cbn in E.
      assert (B' : (0 + 0.12 * inject_Z (delFlashCount s + 1)
                    <= algoTimer s1 + 0.12)%Q).
      { rewrite inject_Z_plus. change (inject_Z 1) with 1%Q.
        destruct HB as [(C0 & F0 & A0)|HB].
        - rewrite C0, A0. change (inject_Z 0) with 0%Q. lra.
        - lra. }
      assert (C5 : delFlashCount s + 1 <= 5)
        by (apply (count_bound _ 0 (algoTimer s1)); auto; lra).
      assert (G : (6 <? delFlashCount s + 1) = false) by (apply Z.ltb_ge; lia).
      rewrite G in E. injection E as <-.
      unfold flash_inv. cbn.
      repeat split; auto; try lra; try lia;
        right; left; repeat split; auto; lra.
    - apply Qlt_bool_false in T.
      cbn in E. rewrite Hc1 in E.
      assert (B' : (delFlashTimer s + dt + 0.12 * inject_Z (delFlashCount s)
                    <= algoTimer s1 + 0.12)%Q).
      { destruct HB as [(C0 & F0 & A0)|HB]; [|exact HB].
        rewrite C0, A0. change (inject_Z 0) with 0%Q. lra. }
      assert (C5 : delFlashCount s <= 5)
        by (apply (count_bound _ (delFlashTimer s + dt) (algoTimer s1)); auto; lra).
      assert (G : (6 <? delFlashCount s) = false) by (apply Z.ltb_ge; lia).
      rewrite G in E. injection E as <-.
      unfold flash_inv. cbn. rewrite ?HF1, ?Hc1.
      repeat split; auto; try lra;
        right; left; repeat split; auto; lra. }
  apply Z.eqb_neq in I1.
  assert (HA1 : (0 <= algoTimer s1)%Q)
    by (destruct W as [(_ & -> & _)|(_ & -> & _)]; lra).
  assert (Hi1 : 0 <= algoStepIndex s1 <= 4)
    by (destruct W as [(-> & _ & ? & _)|(-> & _)]; lia).
  assert (C5 : algoStepIndex s1 <> 0 -> delFlashCount s <= 5).
  { intros N0. destruct Hcase as [(C & C0 & _)|[(C & B & A5)|(_ & C)]]; try lia.
    apply (count_bound _ (delFlashTimer s) (algoTimer s)); auto. }
  assert (Z0 : algoStepIndex s1 = 0 ->
               delFlashCount s = 0 /\ (delFlashTimer s == 0)%Q).
  { intros N0. destruct Hcase as [(C & C0 & F0)|[(C & _)|(C & _)]]; auto;
      destruct W as [(W1 & _)|(W1 & _)]; lia. }
  assert (Fin : forall s2,
             length (algoSteps s2) = 5%nat -> algoTimer s2 = algoTimer s1 ->
             delFlashTimer s2 = delFlashTimer s ->
             delFlashCount s2 = delFlashCount s ->
             (algoStepIndex s2 = algoStepIndex s1
              \/ (2 <= algoStepIndex s2 <= 4 /\ algoStepIndex s1 <> 0)) ->
             flash_inv s2).
  { intros s2 L2 A2 F2 C2 I2. unfold flash_inv.
    rewrite L2, A2, F2, C2. repeat split; auto.
    destruct I2 as [I2|(I2 & N0)].
    - rewrite I2.
      destruct (Z.eq_dec (algoStepIndex s1) 0) as [e|ne].
      + left. destruct (Z0 e). auto.
      + right. right. split; [lia | auto].
    - right. right. auto. }
  destruct (algoStepIndex s1 =? 2) eqn:I2.
  { apply Z.eqb_eq in I2.
    destruct (store _ p _) as [rt|] eqn:St; [|cbn [bind] in E; discriminate]. cbn [bind] in E.
    destruct (load rt p) as [nd|]; [|cbn [bind] in E; discriminate]. cbn [bind] in E.
    destruct (Qlt_bool 900 (y nd)); injection E as <-; apply Fin; cbn; auto;
      right; split; lia. }
  destruct (algoStepIndex s1 =? 3) eqn:I3.
  { apply Z.eqb_eq in I3.
    destruct (store _ p _) as [rt|] eqn:St; [|cbn [bind] in E; discriminate]. cbn [bind] in E.
    destruct (load rt p) as [nd|]; [|cbn [bind] in E; discriminate]. cbn [bind] in E.
    destruct (Qle_bool (alpha nd) 0); injection E as <-; apply Fin; cbn; auto;
      right; split; lia. }
  destruct (algoStepIndex s1 =? 4) eqn:I4; injection E as <-; apply Fin; cbn; auto.
Qed.

Lemma flash_inv_start (s0 : State) : flash_inv (StartDeleteAnimation s0).
Proof.
  unfold StartDeleteAnimation, start_steps. cbn.
  destruct (locate (root s0) [] (inputValue s0)); unfold flash_inv; cbn;
    repeat split; try lra; try lia; left; repeat split; reflexivity.
Qed.

Lemma flash_inv_count (s : State) : flash_inv s -> delFlashCount s <= 5.
Proof.
  intros (_ & HA & HF & Hc & [(_ & C & _)|[(_ & B & A5)|(_ & C)]]);
    [lia | | exact C].
  apply (count_bound _ (delFlashTimer s) (algoTimer s)); auto.
Qed.

Lemma UpdateDelete_mode (dt : Q) (s s' : State) :
  UpdateDelete dt s = Ok s' -> mode s' = IDLE \/ mode s' = mode s.
Proof.
  unfold UpdateDelete. destruct (delNode s) as [p|];
    [|intros [= <-]; now left].
  cbn zeta. intros E.
  assert (M : mode (pace dt s) = mode s) by apply mode_pace.
  remember (pace dt s) as s1 eqn:Hs1. clear Hs1.
  destruct (algoStepIndex s1 =? 1).
  { destruct (Qlt_bool _ _).
    - destruct (store _ p _); [|discriminate E]. cbn in E.
      destruct (6 <? _); injection E as <-; right; exact M.
    - cbn in E. destruct (6 <? _); injection E as <-; right; exact M. }
  destruct (algoStepIndex s1 =? 2).
  { destruct (store _ p _); [|discriminate E]. cbn [bind] in E.
    destruct (load _ p); [|discriminate E]. cbn [bind] in E.
    destruct (Qlt_bool _ _); injection E as <-; right; exact M. }
  destruct (algoStepIndex s1 =? 3).
  { destruct (store _ p _); [|discriminate E]. cbn [bind] in E.
    destruct (load _ p); [|discriminate E]. cbn [bind] in E.
    destruct (Qle_bool _ _); injection E as <-; right; exact M. }
  destruct (algoStepIndex s1 =? 4); injection E as <-; [now left | right; exact M].
Qed.

Lemma ticks_flash_inv (dts : list Q) :
  Forall (fun dt => (0 <= dt)%Q) dts ->
  forall s s', (mode s = DELETING \/ mode s = IDLE) -> flash_inv s ->
               ticks dts s = Ok s' -> flash_inv s'.
Proof.
  induction 1 as [|dt dts Hdt _ IH]; intros s s' Hm Hinv E.
  - injection E as <-. exact Hinv.
  - simpl in E. unfold update_mode in E.
    destruct Hm as [Hm|Hm]; rewrite Hm in E.
    + destruct (UpdateDelete dt s) as [s1|] eqn:E1; [|discriminate E].
      cbn [bind] in E.
      apply (IH s1 s'); auto.
      * destruct (UpdateDelete_mode dt s s1 E1) as [ -> | -> ]; auto.
      * apply (UpdateDelete_flash_inv dt s s1); auto.
    + apply (IH s s'); auto.
Qed.

(** X8.  In no run of the delete animation does the Flash phase reach its
    own end condition.  Whatever the (non-negative) frame times, the number
    of colour toggles never exceeds 5, so the test [delFlashCount > 6] is
    never true: the pacing block ends Flash after at most 0.5 s, and 0.5 s
    hold at most five intervals of more than 0.12 s. *)
Theorem flash_toggles_at_most_five (s0 : State) (dts : list Q) :
  Forall (fun dt => (0 <= dt)%Q) dts ->
  toggles (ticks dts (StartDeleteAnimation s0)) <= 5.
Proof.
  intros Hall.
  destruct (ticks dts (StartDeleteAnimation s0)) as [s'|] eqn:E; [|simpl; lia].
  simpl. apply flash_inv_count.
  apply (ticks_flash_inv dts Hall (StartDeleteAnimation s0) s'); auto.
  - unfold StartDeleteAnimation, start_steps. cbn.
    destruct (locate (root s0) [] (inputValue s0)); cbn; auto.
  - apply flash_inv_start.
Qed.

Lemma flash_toggles_at_most_five_witness :
  toggles (ticks [(1 # 60); (1 # 2); (1 # 8); (1 # 8); (1 # 8)]%Q
             (StartDeleteAnimation
                (with_inputValue 30
                   (with_root (insert_all [50; 30; 70] Null) initial)))) <= 5.
Proof.
  apply (flash_toggles_at_most_five
           (with_inputValue 30
              (with_root (insert_all [50; 30; 70] Null) initial))).
  repeat constructor; vm_compute; discriminate.
Defined.

(* ----------------------------------------------------------------- *)
(** ** The layout pass *)

Lemma node_at_SetPositions (p : ptr) :
  forall (t : tree) (x0 y0 o : Z),
    node_at (SetPositions t x0 y0 o) (Some p)
    = option_map
        (fun n => set_target n (inject_Z (fst (target_of p x0 y0 o)))
                               (inject_Z (snd (target_of p x0 y0 o))))
        (node_at t (Some p)).
Proof.
  induction p as [|d q IH]; intros t x0 y0 o.
  - destruct t; reflexivity.
  - destruct t as [|l n r]; [reflexivity|].
    destruct d; cbn [SetPositions node_at deref target_of];
      [apply (IH l) | apply (IH r)].
Qed.

(** X9.  [SetPositions] is a function of position alone: the node at
    position [p] receives the target computed from [p] and the start
    arguments, whatever the keys and whatever the previous coordinates, and
    keeps every other field; no node is added or removed. *)
Theorem SetPositions_by_position (p : ptr) (t : tree) (x0 y0 o : Z) :
  node_at (SetPositions t x0 y0 o) (Some p)
  = option_map
      (fun n => set_target n (inject_Z (fst (target_of p x0 y0 o)))
                             (inject_Z (snd (target_of p x0 y0 o))))
      (node_at t (Some p)).
Proof. apply node_at_SetPositions. Qed.

Lemma target_of_app (p q : ptr) :
  forall x0 y0 o,
    exists x1 y1,
      target_of p x0 y0 o = (x1, y1)
      /\ target_of (p ++ q) x0 y0 o
         = target_of q x1 y1 (o ÷ 2 ^ Z.of_nat (length p)).
Proof.
  induction p as [|d p IH]; intros x0 y0 o.
  - exists x0, y0. split; [reflexivity|]. simpl. now rewrite Z.quot_1_r.
  - assert (E : o ÷ 2 ^ Z.of_nat (length (d :: p))
                = (o ÷ 2) ÷ 2 ^ Z.of_nat (length p)).
    { cbn [length]. rewrite Nat2Z.inj_succ, Z.pow_succ_r by lia.
      rewrite Z.quot_quot; [reflexivity | lia |].
      apply Z.pow_nonzero; lia. }
    rewrite E.
    destruct d; cbn [app target_of]; apply IH.
Qed.

(** X10.  The offset starts at 200 and is halved with truncation, so it is
    0 from the ninth level on: below depth 8 the left and right child of a
    node receive the same target. *)
Theorem SetPositions_children_overlap (t : tree) (p : ptr) (nl nr : Node) :
  (8 <= length p)%nat ->
  node_at (SetPositions t TREE_START_X TREE_START_Y 200) (Some (p ++ [L]))
    = Some nl ->
  node_at (SetPositions t TREE_START_X TREE_START_Y 200) (Some (p ++ [R]))
    = Some nr ->
  tx nl = tx nr /\ ty nl = ty nr.
Proof.
  intros Hlen Hl Hr.
  rewrite node_at_SetPositions in Hl, Hr.
  destruct (target_of_app p [L] TREE_START_X TREE_START_Y 200)
    as (x1 & y1 & _ & EL).
  destruct (target_of_app p [R] TREE_START_X TREE_START_Y 200)
    as (x2 & y2 & E2 & ER).
  destruct (target_of_app p [L] TREE_START_X TREE_START_Y 200)
    as (x3 & y3 & E3 & EL').
  rewrite E2 in E3. injection E3 as <- <-.
  assert (Z0 : 200 ÷ 2 ^ Z.of_nat (length p) = 0).
  { apply Z.quot_small. split; [lia|].
    apply Z.lt_le_trans with (2 ^ 8); [reflexivity|].
    apply Z.pow_le_mono_r; lia. }
  rewrite Z0 in EL', ER. cbn [target_of] in EL', ER.
  rewrite EL' in Hl. rewrite ER in Hr. unfold node_at in Hl, Hr.
  destruct (deref t (p ++ [L])); [simpl in Hl; discriminate Hl|].
  destruct (deref t (p ++ [R])); [simpl in Hr; discriminate Hr|].
  simpl in Hl, Hr. injection Hl as <-. injection Hr as <-. cbn.
  rewrite Z.sub_0_r, Z.add_0_r. split; reflexivity.
Qed.

Lemma SetPositions_children_overlap_witness :
  let nl := set_target (fresh 0) (inject_Z (-47)) (inject_Z 800) in
  let nr := set_target (fresh 2) (inject_Z (-47)) (inject_Z 800) in
  tx nl = tx nr /\ ty nl = ty nr.
Proof.
  apply (SetPositions_children_overlap
           (insert_all [10; 9; 8; 7; 6; 5; 4; 3; 1; 0; 2] Null)
           [L; L; L; L; L; L; L; L]).
  - simpl. lia.
  - vm_compute. reflexivity.
  - vm_compute. reflexivity.
Defined.

(* ----------------------------------------------------------------- *)
(** ** Locating a key *)

Lemma locate_sound (t : tree) :
  forall p0 v p,
    locate t p0 v = Some p ->
    exists q l n r, p = p0 ++ q /\ deref t q = Nd l n r /\ value n = v.
Proof.
  induction t as [|l IHl n r IHr]; intros p0 v p H; [discriminate|].
  simpl in H. destruct (value n =? v) eqn:E.
  - injection H as <-. apply Z.eqb_eq in E.
    exists [], l, n, r. rewrite app_nil_r. auto.
  - destruct (v <? value n).
    + destruct (IHl _ _ _ H) as (q & l' & n' & r' & -> & D & V).
      exists (L :: q), l', n', r'. rewrite <- app_assoc. auto.
    + destruct (IHr _ _ _ H) as (q & l' & n' & r' & -> & D & V).
      exists (R :: q), l', n', r'. rewrite <- app_assoc. auto.
Qed.

Lemma locate_complete (t : tree) :
  forall p0 v, BST t -> InT v t -> locate t p0 v <> None.
Proof.
  induction t as [|l IHl n r IHr]; intros p0 v B H; [destruct H|].
  destruct B as (Hl & Hr & Bl & Br). simpl.
  destruct (value n =? v) eqn:E; [discriminate|]. apply Z.eqb_neq in E.
  destruct (v <? value n) eqn:E1.
  - apply Z.ltb_lt in E1. apply IHl; auto.
    destruct H as [H|[H|H]]; [auto | congruence | apply Hr in H; lia].
  - apply Z.ltb_ge in E1. apply IHr; auto.
    destruct H as [H|[H|H]]; [apply Hl in H; lia | congruence | auto].
Qed.



(* ----------------------------------------------------------------- *)
(** ** What [Insert] leaves alone *)

Lemma node_at_Insert (p : ptr) :
  forall t v n, node_at t (Some p) = Some n ->
                node_at (Insert t v) (Some p) = Some n.
Proof.
  induction p as [|d p IH]; intros t v n H.
  - destruct t as [|l m r]; [discriminate|]. simpl in *.
    destruct (v <? value m); [exact H|]. destruct (v >? value m); exact H.
  - destruct t as [|l m r]; [discriminate|].
    cbn [Insert].
    destruct (v <? value m); [|destruct (v >? value m)];
      destruct d; cbn [node_at deref] in *; auto; now apply IH.
Qed.

Lemma size_Insert (t : tree) (v : Z) :
  ~ InT v t -> size (Insert t v) = S (size t).
Proof.
  induction t as [|l IHl n r IHr]; intros H; [reflexivity|].
  simpl in H. simpl.
  destruct (v <? value n) eqn:E1; [|destruct (v >? value n) eqn:E2]; simpl.
  - rewrite IHl; tauto.
  - rewrite IHr; [lia | tauto].
  - exfalso. cmp. apply H. right. left. lia.
Qed.

(** X12.  [Insert] never moves or changes an existing node: every pointer
    to a node of the tree leads to the same node afterwards.  The keys
    afterwards are the old keys and the inserted one, and inserting an
    absent key adds exactly one node. *)
Theorem Insert_adds_at_most_a_leaf (t : tree) (v : Z) :
  (forall p n, node_at t (Some p) = Some n ->
               node_at (Insert t v) (Some p) = Some n)
  /\ (forall u, InT u (Insert t v) <-> u = v \/ InT u t)
  /\ (~ InT v t -> size (Insert t v) = S (size t)).
Proof.
  split; [intros p n; apply node_at_Insert|].
  split; [intros u; apply InT_Insert | apply size_Insert].
Qed.

(* ----------------------------------------------------------------- *)
(** ** Sorted listing *)

Lemma StronglySorted_app (l1 l2 : list Z) (a : Z) :
  StronglySorted Z.lt l1 -> StronglySorted Z.lt l2 ->
  (forall u, In u l1 -> u < a) -> (forall u, In u l2 -> a < u) ->
  StronglySorted Z.lt (l1 ++ a :: l2).
Proof.
  intros S1 S2 H1 H2. induction S1 as [|b l1 S1 IH Hb]; simpl.
  - constructor; [exact S2|]. apply Forall_forall. exact H2.
  - constructor.
    + apply IH. intros u Hu. apply H1. now right.
    + apply Forall_forall. intros u Hu. apply in_app_iff in Hu.
      destruct Hu as [Hu|[<-|Hu]].
      * rewrite Forall_forall in Hb. now apply Hb.
      * apply H1. now left.
      * assert (b < a) by (apply H1; now left).
        apply H2 in Hu. lia.
Qed.

Lemma BST_sorted (t : tree) : BST t -> StronglySorted Z.lt (inorder t).
Proof.
  induction t as [|l IHl n r IHr]; simpl; [constructor|].
  intros (Hl & Hr & Bl & Br).
  apply StronglySorted_app; auto; intros u Hu; apply In_inorder in Hu; auto.
Qed.

(** X13.  The in-order listing of a tree built by insertions is strictly
    increasing, and lists exactly the values that were inserted. *)
Theorem inserted_keys_listed_in_order (vs : list Z) :
  StronglySorted Z.lt (inorder (insert_all vs Null))
  /\ forall u, In u (inorder (insert_all vs Null)) <-> In u vs.
Proof.
  split.
  - apply BST_sorted, BST_insert_all. exact I.
  - intros u. rewrite In_inorder, InT_insert_all. simpl. tauto.
Qed.

(** X14.  [MinNode] on a non-empty search tree returns a node without left
    child whose key is in the tree and is the least key; it returns null
    only for the empty tree. *)
Theorem MinNode_is_least (t : tree) :
  BST t -> t <> Null ->
  exists m mr,
    MinNode t = Nd Null m mr /\ InT (value m) t
    /\ forall u, InT u t -> value m <= u.
Proof.
  intros B N. destruct (MinNode t) as [|ml m mr] eqn:E.
  - exfalso. revert E. now apply MinNode_not_Null.
  - destruct (MinNode_spec _ _ _ _ B E) as (-> & H1 & H2).
    exists m, mr. auto.
Qed.

Lemma MinNode_is_least_witness :
  let t := insert_all [50; 30; 70; 20; 40] Null in
  exists m mr,
    MinNode t = Nd Null m mr /\ InT (value m) t
    /\ forall u, InT u t -> value m <= u.
Proof.
  apply (MinNode_is_least (insert_all [50; 30; 70; 20; 40] Null)).
  - apply BST_insert_all. exact I.
  - discriminate.
Defined.

(* ----------------------------------------------------------------- *)
(** ** Interpolation *)

(** X15.  Each call of [AnimateNodes] multiplies a node's distance to its
    target by [1 - 5 dt] in each coordinate and changes nothing else, so
    after [k] frames of length [dt] the distance is the initial one times
    [(1 - 5 dt) ^ k]. *)
Theorem animate_contracts (k : nat) (dt : Q) (n : Node) :
  (x (Nat.iter k (animate dt) n) - tx n
   == (1 - dt * 5) ^ Z.of_nat k * (x n - tx n))%Q
  /\ (y (Nat.iter k (animate dt) n) - ty n
      == (1 - dt * 5) ^ Z.of_nat k * (y n - ty n))%Q
  /\ tx (Nat.iter k (animate dt) n) = tx n
  /\ ty (Nat.iter k (animate dt) n) = ty n
  /\ value (Nat.iter k (animate dt) n) = value n
  /\ alpha (Nat.iter k (animate dt) n) = alpha n
  /\ color (Nat.iter k (animate dt) n) = color n.
Proof.
  induction k as [|k (IHx & IHy & IHtx & IHty & IHv & IHa & IHc)].
  - simpl. repeat split; try reflexivity; ring.
  - change (Nat.iter (S k) (animate dt) n)
      with (animate dt (Nat.iter k (animate dt) n)).
    set (m := Nat.iter k (animate dt) n) in *.
    assert (P : ((1 - dt * 5) ^ Z.of_nat (S k)
                 == (1 - dt * 5) * (1 - dt * 5) ^ Z.of_nat k)%Q).
    { rewrite Nat2Z.inj_succ. unfold Z.succ.
      rewrite Z.add_comm, Qpower_plus' by lia. reflexivity. }
    assert (Ex : (x (animate dt m) == x m + (tx m - x m) * (dt * 5))%Q)
      by (simpl; unfold lerp; apply Qred_correct).
    assert (Ey : (y (animate dt m) == y m + (ty m - y m) * (dt * 5))%Q)
      by (simpl; unfold lerp; apply Qred_correct).
    split; [|split; [|repeat split; assumption]].
    + rewrite Ex, IHtx, P.
      setoid_replace (x m + (tx n - x m) * (dt * 5) - tx n)%Q
        with ((1 - dt * 5) * (x m - tx n))%Q by ring.
      rewrite IHx. ring.
    + rewrite Ey, IHty, P.
      setoid_replace (y m + (ty n - y m) * (dt * 5) - ty n)%Q
        with ((1 - dt * 5) * (y m - ty n))%Q by ring.
      rewrite IHy. ring.
Qed.

(* ----------------------------------------------------------------- *)
(** ** The step cursor *)

(** X16.  The pacing block moves the cursor of the side panel forward by
    at most one label, never past the last label, and only when more than
    0.5 s have accumulated, in which case it restarts the timer. *)
Theorem pace_cursor_bounds (dt : Q) (s : State) :
  0 <= algoStepIndex s < Z.of_nat (length (algoSteps s)) ->
  Z.of_nat (length (algoSteps s)) < 2 ^ 64 ->
  algoStepIndex s <= algoStepIndex (pace dt s) <= algoStepIndex s + 1
  /\ algoStepIndex (pace dt s) < Z.of_nat (length (algoSteps s))
  /\ (algoStepIndex (pace dt s) = algoStepIndex s + 1 ->
      (0.5 < algoTimer s + dt)%Q /\ algoTimer (pace dt s) = 0%Q)
  /\ (algoStepIndex (pace dt s) = algoStepIndex s ->
      algoTimer (pace dt s) = (algoTimer s + dt)%Q).
Proof.
  intros Hi Hl. unfold pace. cbn.
  assert (E1 : to_size_t (algoStepIndex s) = algoStepIndex s)
    by (unfold to_size_t; apply Z.mod_small; lia).
  assert (E2 : to_size_t (Z.of_nat (length (algoSteps s)) - 1)
               = Z.of_nat (length (algoSteps s)) - 1)
    by (unfold to_size_t; apply Z.mod_small; lia).
  rewrite E1, E2.
  destruct (Qlt_bool algoSpeed (algoTimer s + dt)) eqn:Q1;
    destruct (algoStepIndex s <? Z.of_nat (length (algoSteps s)) - 1) eqn:Z1;
    cbn; cmp; repeat split; try lia; try reflexivity; intros;
    try lia; try (now apply Qlt_bool_true in Q1).
Qed.

Lemma pace_cursor_bounds_witness :
  let s := StartSearchAnimation initial in
  algoStepIndex s <= algoStepIndex (pace 1 s) <= algoStepIndex s + 1
  /\ algoStepIndex (pace 1 s) < Z.of_nat (length (algoSteps s))
  /\ (algoStepIndex (pace 1 s) = algoStepIndex s + 1 ->
      (0.5 < algoTimer s + 1)%Q /\ algoTimer (pace 1 s) = 0%Q)
  /\ (algoStepIndex (pace 1 s) = algoStepIndex s ->
      algoTimer (pace 1 s) = (algoTimer s + 1)%Q).
Proof.
  apply (pace_cursor_bounds 1%Q (StartSearchAnimation initial)).
  - simpl. lia.
  - simpl. lia.
Defined.

(* ----------------------------------------------------------------- *)
(** ** The traversal dwell *)

Lemma UpdateTraversal_wait (dt : Q) (s : State) :
  travStack s <> [] -> (travTimer s + dt < 0.8)%Q ->
  UpdateTraversal dt s = Ok (with_travTimer (travTimer s + dt)%Q (pace dt s)).
Proof.
  intros Hst Ht. unfold UpdateTraversal.
  destruct (travStack s) as [|fr below] eqn:E; [congruence|].
  cbn. autorewrite with pace.
  now rewrite (proj2 (Qlt_bool_true _ _) Ht).
Qed.

Lemma traversal_waits (dts : list Q) :
  forall s : State,
    traversing (mode s) -> travStack s <> [] ->
    Forall (fun dt => (0 <= dt)%Q) dts ->
    (travTimer s + total dts < 0.8)%Q ->
    exists s',
      ticks dts s = Ok s'
      /\ travStack s' = travStack s /\ root s' = root s
      /\ travLog s' = travLog s /\ mode s' = mode s
      /\ travHighlight s' = travHighlight s
      /\ edgeA s' = edgeA s /\ edgeB s' = edgeB s.
Proof.
  induction dts as [|dt rest IH]; intros s Hm Hst Hall Ht.
  - exists s. repeat split.
  - inversion Hall as [|? ? Hdt Hrest]; subst.
    pose proof (total_nonneg rest Hrest) as Hn. simpl in Ht.
    assert (Hw : (travTimer s + dt < 0.8)%Q) by lra.
    assert (E : update_mode dt s = UpdateTraversal dt s)
      by (unfold update_mode; destruct Hm as [->|[->| ->]]; reflexivity).
    simpl. rewrite E, (UpdateTraversal_wait dt s Hst Hw). cbn [bind].
    destruct (pace_assigns dt s) as (a & i & Ep).
    destruct (IH (with_travTimer (travTimer s + dt)%Q (pace dt s)))
      as (s' & R & H1 & H2 & H3 & H4 & H5 & H6 & H7).
    + cbn. now autorewrite with pace.
    + cbn. now autorewrite with pace.
    + exact Hrest.
    + cbn. lra.
    + exists s'. split; [exact R|].
      cbn in H1, H2, H3, H4, H5, H6, H7.
      autorewrite with pace in H1, H2, H3, H4, H5, H6, H7.
      rewrite Ep in H6, H7. cbn in H6, H7.
      repeat split; assumption.
Qed.



(* ----------------------------------------------------------------- *)
(** ** RESET *)

(** X18.  A frame with a click on RESET always succeeds, even when the tree
    is too deep for the helper stack: [root] is cleared before
    [ResetTreeColors] and [AnimateNodes] run.  It leaves an empty tree in
    mode [IDLE] with no cursor, no traversal frames and no labels; it does
    not touch [inputValue], [found], [delNode] or the edge highlight. *)
Theorem reset_always_succeeds (grow : nat -> nat) (dt : Q) (s : State) :
  exists s',
    main_frame grow (do_reset dt) s = Ok s'
    /\ root s' = Null /\ mode s' = IDLE /\ current s' = None
    /\ travStack s' = [] /\ travHighlight s' = None /\ algoSteps s' = []
    /\ algoStepIndex s' = 0
    /\ inputValue s' = inputValue s /\ found s' = found s
    /\ delNode s' = delNode s /\ edgeA s' = edgeA s /\ edgeB s' = edgeB s.
Proof.
  unfold main_frame, do_reset, when.
  cbn [frame_time key_up key_down click_insert click_search click_delete
       click_reset click_in click_pre click_post bind].
  unfold on_reset. cbn.
  eexists; split; [reflexivity|].
  cbn; repeat split.
Qed.

(* ----------------------------------------------------------------- *)
(** ** Shape and keys *)

Lemma skel_update (t : tree) (p : ptr) (f : Node -> Node) :
  (forall n, value (f n) = value n) -> skel (update t p f) = skel t.
Proof.
  intros Hf. revert p. induction t as [|l IHl n r IHr]; intros p; [reflexivity|].
  destruct p as [|[] q]; unfold skel in *; cbn [update tmap];
    rewrite ?IHl, ?IHr, ?Hf; reflexivity.
Qed.

Lemma skel_SetPositions (t : tree) :
  forall x0 y0 o, skel (SetPositions t x0 y0 o) = skel t.
Proof.
  induction t as [|l IHl n r IHr]; intros; [reflexivity|].
  unfold skel in *. cbn [SetPositions tmap]. now rewrite IHl, IHr.
Qed.

Lemma skel_Null (t : tree) : skel t = Null <-> t = Null.
Proof. destruct t; simpl; split; intros H; try reflexivity; discriminate H. Qed.

Lemma skel_MinNode (t : tree) : skel (MinNode t) = MinNode (skel t).
Proof.
  induction t as [|l IHl n r _]; [reflexivity|].
  destruct l as [|ll ln lr]; [reflexivity|]. exact IHl.
Qed.

Lemma skel_DeleteNode (t : tree) :
  forall v, skel (DeleteNode t v) = DeleteNode (skel t) v.
Proof.
  induction t as [|l IHl n r IHr]; intros v; [reflexivity|].
  rewrite DeleteNode_Nd.
  change (skel (Nd l n r)) with (Nd (skel l) (fresh (value n)) (skel r)).
  rewrite DeleteNode_Nd. cbn [value fresh].
  destruct (v <? value n).
  { change (skel (Nd (DeleteNode l v) n r))
      with (Nd (skel (DeleteNode l v)) (fresh (value n)) (skel r)).
    now rewrite IHl. }
  destruct (v >? value n).
  { change (skel (Nd l n (DeleteNode r v)))
      with (Nd (skel l) (fresh (value n)) (skel (DeleteNode r v))).
    now rewrite IHr. }
  destruct l as [|ll ln lr]; [destruct r; reflexivity|].
  destruct r as [|rl rn rr]; [reflexivity|].
  set (l0 := Nd ll ln lr) in *. set (r0 := Nd rl rn rr) in *.
  change (match skel l0 with
          | Null => match skel r0 with Null => Null | Nd _ _ _ => skel r0 end
          | Nd _ _ _ =>
              match skel r0 with
              | Null => skel l0
              | Nd _ _ _ =>
                  match MinNode (skel r0) with
                  | Null => Nd (skel l0) (fresh (value n)) (skel r0)
                  | Nd _ t _ =>
                      Nd (skel l0) (set_value (fresh (value n)) (value t))
                        (DeleteNode (skel r0) (value t))
                  end
              end
          end)
    with (match MinNode (skel r0) with
          | Null => Nd (skel l0) (fresh (value n)) (skel r0)
          | Nd _ t _ =>
              Nd (skel l0) (set_value (fresh (value n)) (value t))
                (DeleteNode (skel r0) (value t))
          end).
  rewrite <- skel_MinNode.
  destruct (MinNode r0) as [|ml m mr]; [reflexivity|].
  change (skel (Nd ml m mr)) with (Nd (skel ml) (fresh (value m)) (skel mr)).
  cbn iota. cbn [value fresh].
  change (skel (Nd l0 (set_value n (value m)) (DeleteNode r0 (value m))))
    with (Nd (skel l0) (fresh (value m)) (skel (DeleteNode r0 (value m)))).
  now rewrite IHr.
Qed.

Lemma deref_skel (t : tree) (p : ptr) : deref (skel t) p = skel (deref t p).
Proof.
  revert t. induction p as [|d p IH]; intros t; [reflexivity|].
  destruct t as [|l n r]; [reflexivity|].
  destruct d; simpl; apply IH.
Qed.

Lemma inorder_skel (t : tree) : inorder (skel t) = inorder t.
Proof.
  induction t as [|l IHl n r IHr]; [reflexivity|].
  unfold skel in *. simpl. now rewrite IHl, IHr.
Qed.

Lemma deref_update_same (t : tree) (p : ptr) (f : Node -> Node) l n r :
  deref t p = Nd l n r -> deref (update t p f) p = Nd l (f n) r.
Proof.
  intros H. rewrite (update_graft _ _ f _ _ _ H).
  apply deref_graft. rewrite H. discriminate.
Qed.

Lemma update_id (t : tree) (p : ptr) : update t p (fun m => m) = t.
Proof.
  revert p. induction t as [|l IHl n r IHr]; intros p; [reflexivity|].
  destruct p as [|[] q]; simpl; now rewrite ?IHl, ?IHr.
Qed.

(* ----------------------------------------------------------------- *)
(** ** The delete animation from start to commit *)

(** One call of [UpdateDelete] while the animation runs: it commits when
    the phase index (after pacing) is 4, and otherwise keeps the animation
    running on the same node and tree shape, without lowering the index. *)
Lemma UpdateDelete_call (dt : Q) (v : Z) (p : ptr) (t0 : tree) (s : State) :
  (0 <= dt)%Q -> deleting v p t0 s ->
  exists s',
    UpdateDelete dt s = Ok s'
    /\ ((algoStepIndex (pace dt s) = 4 /\ mode s' = IDLE
         /\ root s' = SetPositions (DeleteNode (root s) v)
                        TREE_START_X TREE_START_Y 200)
        \/ (algoStepIndex (pace dt s) <> 4 /\ deleting v p t0 s'
            /\ algoStepIndex (pace dt s) <= algoStepIndex s'
            /\ algoTimer s' = algoTimer (pace dt s))).
Proof.
  intros Hdt (Hm & Hd & Hv & Hsk & Hp & Hlen & Hi & HA).
  unfold UpdateDelete. rewrite Hd. cbn zeta.
  assert (Hder : exists l n r, deref (root s) p = Nd l n r).
  { destruct (deref (root s) p) as [|l n r] eqn:E; [|eauto].
    exfalso. apply Hp. apply skel_Null.
    rewrite <- deref_skel, <- Hsk, deref_skel, E. reflexivity. }
  destruct Hder as (l & n & r & Hder).
  assert (V : mode (pace dt s) = DELETING /\ delNode (pace dt s) = Some p
              /\ inputValue (pace dt s) = v /\ root (pace dt s) = root s
              /\ length (algoSteps (pace dt s)) = 5%nat)
    by (autorewrite with pace; auto).
  assert (W : 0 <= algoStepIndex (pace dt s) <= 4
              /\ (0 <= algoTimer (pace dt s))%Q).
  { destruct (pace_cases dt s Hlen Hi) as [(-> & ? & ?)|(-> & ?)]; cbn;
      split; try lia; lra. }
  remember (pace dt s) as s1 eqn:Hs1. clear Hs1.
  destruct V as (Hm1 & Hd1 & Hv1 & Hr1 & Hlen1). destruct W as (Hi1 & HA1).
  assert (St : forall f, store (root s1) p f = Ok (update (root s) p f)).
  { intros f. unfold store. now rewrite Hr1, Hder. }
  assert (Ld : forall f, load (update (root s) p f) p = Ok (f n)).
  { intros f. unfold load. now rewrite (deref_update_same _ _ f _ _ _ Hder). }
  assert (Keep : forall s2 f,
             (forall m, value (f m) = value m) ->
             mode s2 = DELETING -> delNode s2 = Some p -> inputValue s2 = v ->
             root s2 = update (root s) p f ->
             length (algoSteps s2) = 5%nat ->
             algoStepIndex s1 <= algoStepIndex s2 <= 4 ->
             algoTimer s2 = algoTimer s1 ->
             algoStepIndex s1 <> 4 ->
             (algoStepIndex s1 = 4 /\ mode s2 = IDLE
              /\ root s2 = SetPositions (DeleteNode (root s) v)
                             TREE_START_X TREE_START_Y 200)
             \/ (algoStepIndex s1 <> 4 /\ deleting v p t0 s2
                 /\ algoStepIndex s1 <= algoStepIndex s2
                 /\ algoTimer s2 = algoTimer s1)).
  { intros s2 f Hf M2 D2 V2 R2 L2 I2 A2 N4. right.
    split; [exact N4|]. split; [|split; [lia | exact A2]].
    unfold deleting. rewrite M2, D2, V2, R2, L2, A2, (skel_update _ _ _ Hf).
    repeat split; auto; lia. }
  destruct (algoStepIndex s1 =? 1) eqn:I1.
  { apply Z.eqb_eq in I1. cbn. 
    destruct (Qlt_bool 0.12 (delFlashTimer s1 + dt)).
    - rewrite St. cbn.
      destruct (6 <? delFlashCount s1 + 1); eexists; (split; [reflexivity|]);
        eapply Keep; cbn; auto; try reflexivity; lia.
    - cbn. destruct (6 <? delFlashCount s1); eexists; (split; [reflexivity|]);
        apply (Keep _ (fun m => m)); cbn; auto; try lia;
        now rewrite Hr1, update_id. }
  destruct (algoStepIndex s1 =? 2) eqn:I2.
  { apply Z.eqb_eq in I2. rewrite St. cbn [bind]. rewrite Ld. cbn [bind].
    destruct (Qlt_bool 900 _); eexists; (split; [reflexivity|]);
      eapply Keep; cbn; auto; try reflexivity; lia. }
  destruct (algoStepIndex s1 =? 3) eqn:I3.
  { apply Z.eqb_eq in I3. rewrite St. cbn [bind]. rewrite Ld. cbn [bind].
    destruct (Qle_bool _ 0); eexists; (split; [reflexivity|]);
      eapply Keep; cbn; auto; try reflexivity; lia. }
  destruct (algoStepIndex s1 =? 4) eqn:I4.
  { apply Z.eqb_eq in I4. eexists. split; [reflexivity|]. left.
    cbn. rewrite Hr1, Hv1. auto. }
  apply Z.eqb_neq in I1, I2, I3, I4.
  eexists. split; [reflexivity|].
  apply (Keep _ (fun m => m)); auto; try lia.
  now rewrite Hr1, update_id.
Qed.

(* ----------------------------------------------------------------- *)
(** ** A delete, frame by frame *)

Lemma skel_tmap (f : Node -> Node) (t : tree) :
  (forall n, value (f n) = value n) -> skel (tmap f t) = skel t.
Proof.
  intros Hf. induction t as [|l IHl n r IHr]; [reflexivity|].
  unfold skel in *. cbn [tmap]. now rewrite IHl, IHr, Hf.
Qed.

Lemma height_skel (t : tree) : height (skel t) = height t.
Proof. apply height_tmap. Qed.

Lemma height_DeleteNode (t : tree) :
  forall v, (height (DeleteNode t v) <= height t)%nat.
Proof.
  induction t as [|l IHl n r IHr]; intros v; [apply Nat.le_refl|].
  rewrite DeleteNode_Nd.
  destruct (v <? value n).
  { specialize (IHl v). cbn [height]. lia. }
  destruct (v >? value n).
  { specialize (IHr v). cbn [height]. lia. }
  destruct l as [|ll ln lr]; [destruct r; cbn [height]; lia|].
  destruct r as [|rl rn rr]; [cbn [height]; lia|].
  destruct (MinNode (Nd rl rn rr)) as [|ml m mr]; [apply Nat.le_refl|].
  specialize (IHr (value m)). cbn [height] in *. lia.
Qed.

Lemma pace_with_root (dt : Q) (rt : tree) (s : State) :
  pace dt (with_root rt s) = with_root rt (pace dt s).
Proof.
  unfold pace. cbn.
  destruct (Qlt_bool algoSpeed (algoTimer s + dt) && _); reflexivity.
Qed.

(** A frame without input: the animation pass, then the update function of
    the current mode. *)
Lemma quiet_frame (grow : nat -> nat) (dt : Q) (s : State) :
  main_frame grow (quiet dt) s
  = do rt <- AnimateNodes dt (root s) ;; update_mode dt (with_root rt s).
Proof.
  unfold main_frame, quiet, when.
  cbn [frame_time key_up key_down click_insert click_search click_delete
       click_reset click_in click_pre click_post bind].
  destruct s; reflexivity.
Qed.

(** The frame of the click on DELETE is a frame without input on the state
    [StartDeleteAnimation] has prepared. *)
Lemma delete_frame (grow : nat -> nat) (dt : Q) (s : State) :
  main_frame grow (do_delete dt) s
  = main_frame grow (quiet dt) (StartDeleteAnimation s).
Proof.
  unfold main_frame, quiet, do_delete, when.
  cbn [frame_time key_up key_down click_insert click_search click_delete
       click_reset click_in click_pre click_post bind].
  reflexivity.
Qed.

Lemma run_app (grow : nat -> nat) (i1 i2 : list Input) (s : State) :
  run grow (i1 ++ i2) s = do s' <- run grow i1 s ;; run grow i2 s'.
Proof.
  revert s. induction i1 as [|i i1 IH]; intros s; [reflexivity|].
  simpl. destruct (main_frame grow i s); [apply IH | reflexivity].
Qed.

Lemma run_cons (grow : nat -> nat) (i : Input) (rest : list Input) (s : State) :
  run grow (i :: rest) s = do s' <- main_frame grow i s ;; run grow rest s'.
Proof. reflexivity. Qed.

Section DeleteRun.

Variable grow : nat -> nat.
Variable delta : Q.
Hypothesis delta_pos : (0 < delta)%Q.
Variables (v : Z) (p : ptr) (t0 : tree).
Hypothesis fits : (height t0 <= 100)%nat.

Lemma commit_skel (s s' : State) :
  skel (root s) = skel t0 ->
  root s' = SetPositions (DeleteNode (root s) v) TREE_START_X TREE_START_Y 200 ->
  skel (root s') = skel (DeleteNode t0 v).
Proof.
  intros Hsk ->. now rewrite skel_SetPositions, !skel_DeleteNode, Hsk.
Qed.

(** One frame of the running animation: it commits when the phase index
    after pacing is 4, and stays in the animation otherwise. *)
Lemma frame_call (dt : Q) (s : State) :
  (0 <= dt)%Q -> deleting v p t0 s ->
  exists s',
    main_frame grow (quiet dt) s = Ok s'
    /\ ((algoStepIndex (pace dt s) = 4 /\ delete_committed v t0 s')
        \/ (algoStepIndex (pace dt s) <> 4 /\ deleting v p t0 s'
            /\ algoStepIndex (pace dt s) <= algoStepIndex s'
            /\ algoTimer s' = algoTimer (pace dt s))).
Proof.
  intros Hdt Hd. pose proof Hd as (Hm & Hdn & Hv & Hsk & Hp & Hlen & Hi & HA).
  assert (Hh : (height (root s) <= HELPER_STACK_SIZE)%nat).
  { rewrite <- height_skel, Hsk, height_skel. exact fits. }
  rewrite quiet_frame. unfold AnimateNodes.
  rewrite (full_walk_tmap _ _ Hh). cbn [bind].
  assert (Va : forall n, value (animate dt n) = value n) by reflexivity.
  assert (Sk : skel (tmap (animate dt) (root s)) = skel t0)
    by (rewrite <- Hsk; exact (skel_tmap (animate dt) (root s) Va)).
  assert (Hd' : deleting v p t0 (with_root (tmap (animate dt) (root s)) s)).
  { unfold deleting.
    repeat split; try assumption; try exact Sk; destruct Hi; assumption. }
  destruct (UpdateDelete_call dt v p t0 _ Hdt Hd')
    as (s' & E & [(I4 & Hm' & Hr')|(N4 & Hd2 & Hi' & HA')]);
    rewrite pace_with_root in *; cbn in *;
    exists s'; (split; [unfold update_mode; cbn; rewrite Hm; exact E|]).
  - left. split; [exact I4|]. split; [exact Hm'|].
    apply (commit_skel (with_root (tmap (animate dt) (root s)) s)); auto.
  - right. auto.
Qed.

(** Once committed, frames without input leave the program idle and the
    tree as it is, up to the coordinates the animation pass moves. *)
Lemma frames_committed (dts : list Q) :
  forall s, delete_committed v t0 s ->
            exists s', run grow (map quiet dts) s = Ok s'
                       /\ delete_committed v t0 s'.
Proof.
  induction dts as [|dt dts IH]; intros s C; [exists s; now split|].
  destruct C as (Hm & Hsk).
  assert (Hh : (height (root s) <= HELPER_STACK_SIZE)%nat).
  { rewrite <- height_skel, Hsk, height_skel.
    apply Nat.le_trans with (height t0); [apply height_DeleteNode | exact fits]. }
  cbn [map run]. rewrite quiet_frame. unfold AnimateNodes.
  rewrite (full_walk_tmap _ _ Hh). cbn [bind].
  unfold update_mode. cbn. rewrite Hm. cbn [bind].
  apply IH. split; [exact Hm|]. rewrite <- Hsk.
  exact (skel_tmap (animate dt) (root s) (fun _ => eq_refl)).
Qed.

(** Within [S j] frames that outlast what is left of the pacing interval,
    the animation commits or reaches a later phase. *)
Lemma delete_advances (j : nat) :
  forall (dts : list Q) (s : State),
    deleting v p t0 s ->
    (0.5 < algoTimer s + times (S j) delta)%Q ->
    Forall (fun dt => (delta <= dt)%Q) dts ->
    (S j <= length dts)%nat ->
    exists d1 d2 s1,
      dts = d1 ++ d2 /\ (length d1 <= S j)%nat
      /\ run grow (map quiet d1) s = Ok s1
      /\ (delete_committed v t0 s1
          \/ (deleting v p t0 s1 /\ algoStepIndex s < algoStepIndex s1)).
Proof.
  induction j as [|j IH]; intros dts s Hd Ht Hall Hlen;
    (destruct dts as [|dt rest]; [simpl in Hlen; lia|]);
    inversion Hall as [|? ? Hdt Hrest]; subst;
    assert (Hdt0 : (0 <= dt)%Q) by lra;
    destruct (frame_call dt s Hdt0 Hd)
      as (s' & E & [(I4 & C)|(N4 & Hd' & Hi' & HA')]);
    pose proof Hd as (Hm & _ & _ & Hsk & _ & Hlen5 & Hi & HA);
    assert (T1 : run grow (map quiet [dt]) s = Ok s')
      by (cbn [map run]; rewrite E; reflexivity).
  - exists [dt], rest, s'. split; [reflexivity|].
    split; [simpl; lia|]. split; [exact T1|]. now left.
  - exists [dt], rest, s'. split; [reflexivity|].
    split; [simpl; lia|]. split; [exact T1|].
    right. split; [exact Hd'|].
    destruct (pace_cases dt s Hlen5 Hi) as [(Ep & _ & _)|(Ep & [I|A])];
      rewrite Ep in Hi', HA', N4; cbn in Hi', HA', N4; try lia.
    simpl in Ht. lra.
  - exists [dt], rest, s'. split; [reflexivity|].
    split; [simpl; lia|]. split; [exact T1|]. now left.
  - destruct (pace_cases dt s Hlen5 Hi) as [(Ep & _ & _)|(Ep & [I|A])];
      rewrite Ep in Hi', HA', N4; cbn in Hi', HA', N4.
    + exists [dt], rest, s'. split; [reflexivity|].
      split; [simpl; lia|]. split; [exact T1|].
      right. split; [exact Hd' | lia].
    + lia.
    + destruct (Z.eq_dec (algoStepIndex s') (algoStepIndex s)) as [Eq|Ne].
      * destruct (IH rest s' Hd') as (d1 & d2 & s1 & -> & L1 & R1 & C1).
        { rewrite HA'.
          change (times (S (S j)) delta) with (delta + times (S j) delta)%Q in Ht.
          lra. }
        { exact Hrest. }
        { simpl in Hlen. lia. }
        exists (dt :: d1), d2, s1. split; [reflexivity|].
        split; [simpl; lia|]. split.
        { cbn [map run]. rewrite E. exact R1. }
        destruct C1 as [C1|(C1 & C2)]; [now left|right]. split; [exact C1|lia].
      * exists [dt], rest, s'. split; [reflexivity|].
        split; [simpl; lia|]. split; [exact T1|].
        right. split; [exact Hd' | lia].
Qed.

Variable M : nat.
Hypothesis pacing_filled : (0.5 < times (S M) delta)%Q.

Lemma delete_runs (k : nat) :
  forall (dts : list Q) (s : State),
    deleting v p t0 s -> 4 <= algoStepIndex s + Z.of_nat k ->
    Forall (fun dt => (delta <= dt)%Q) dts ->
    (S (k * S M) <= length dts)%nat ->
    exists s', run grow (map quiet dts) s = Ok s' /\ delete_committed v t0 s'.
Proof.
  induction k as [|k IH]; intros dts s Hd Hk Hall Hlen.
  - destruct dts as [|dt rest]; [simpl in Hlen; lia|].
    inversion Hall as [|? ? Hdt Hrest]; subst.
    assert (Hdt0 : (0 <= dt)%Q) by lra.
    pose proof Hd as (Hm & _ & _ & Hsk & _ & Hlen5 & Hi & HA).
    destruct (frame_call dt s Hdt0 Hd) as (s' & E & [(I4 & C)|(N4 & _)]).
    + cbn [map run]. rewrite E. cbn [bind]. now apply frames_committed.
    + exfalso. apply N4.
      destruct (pace_cases dt s Hlen5 Hi) as [(Ep & ? & _)|(-> & _)];
        [lia | cbn; lia].
  - pose proof Hd as (_ & _ & _ & _ & _ & _ & _ & HA).
    destruct (delete_advances M dts s Hd) as (d1 & d2 & s1 & -> & L1 & R1 & C1);
      auto; [lra | simpl in Hlen; lia |].
    rewrite map_app, run_app, R1. cbn [bind].
    apply Forall_app in Hall as [_ Hall2]. rewrite length_app in Hlen.
    destruct C1 as [C1|(C1 & C2)].
    + now apply frames_committed.
    + apply (IH d2 s1 C1); auto; [lia | simpl in Hlen; lia].
Qed.

End DeleteRun.

(** X19.  A click on DELETE for a key that is in the tree, followed by
    frames without input, always ends in the deletion.  On a search tree of
    height at most 100, with frames of at least [delta] seconds, [delta]
    at least 1 ms, of which [M + 1] exceed the pacing interval of 0.5 s,
    the program never faults and is back in [IDLE] after at most
    [4 * (M + 2) + 1] frames (one frame per pacing interval more than the
    exact sums need, which leaves room for the rounding of [algoTimer] in
    the code), with a tree that has the shape and keys of [DeleteNode]
    applied to the tree at the click; this holds whatever the phases
    Flash, Drop and Fade did to the node in between, and whatever
    [AnimateNodes] did to the coordinates. *)
Theorem delete_animation_completes
    (grow : nat -> nat) (s0 : State) (delta : Q) (M : nat)
    (dt0 : Q) (dts : list Q) :
  BST (root s0) -> InT (inputValue s0) (root s0) ->
  (height (root s0) <= 100)%nat ->
  (1 # 1000 <= delta)%Q -> (0.5 < inject_Z (Z.of_nat (S M)) * delta)%Q ->
  Forall (fun dt => (delta <= dt)%Q) (dt0 :: dts) ->
  (4 * S (S M) <= length dts)%nat ->
  exists s',
    run grow (do_delete dt0 :: map quiet dts) s0 = Ok s' /\ mode s' = IDLE
    /\ skel (root s') = skel (DeleteNode (root s0) (inputValue s0))
    /\ inorder (root s') = inorder (DeleteNode (root s0) (inputValue s0)).
Proof.
  intros B Hin Hh Hd1 HM Hall Hlen.
  assert (Hd : (0 < delta)%Q) by lra.
  destruct (locate (root s0) [] (inputValue s0)) as [p|] eqn:E.
  2:{ exfalso. revert E. now apply locate_complete. }
  destruct (locate_sound _ _ _ _ E) as (q & l & n & r & Hq & Hder & Hv).
  simpl in Hq. subst q.
  assert (D : deleting (inputValue s0) p (root s0) (StartDeleteAnimation s0)).
  { unfold StartDeleteAnimation, start_steps. cbn. rewrite E. cbn.
    unfold deleting. cbn. rewrite Hder.
    repeat split; auto; try lia; try discriminate; lra. }
  assert (HM' : (0.5 < times (S (S M)) delta)%Q).
  { change (times (S (S M)) delta) with (delta + times (S M) delta)%Q.
    rewrite times_inject. lra. }
  destruct (delete_runs grow delta Hd (inputValue s0) p (root s0) Hh (S M) HM'
              4 (dt0 :: dts) (StartDeleteAnimation s0) D)
    as (s' & R & Hm & Hsk); auto.
  - pose proof D as (_ & _ & _ & _ & _ & _ & Hi & _). lia.
  - cbn [length]. lia.
  - exists s'. split.
    + rewrite run_cons, delete_frame. rewrite map_cons, run_cons in R. exact R.
    + repeat split; auto.
      rewrite <- (inorder_skel (root s')), Hsk. apply inorder_skel.
Qed.

Lemma delete_animation_completes_witness :
  let s0 := with_inputValue 30
              (with_root (insert_all [50; 30; 70; 20; 40] Null) initial) in
  exists s',
    run grow_double (do_delete (1 # 64) :: map quiet (repeat (1 # 64)%Q 136)) s0
    = Ok s'
    /\ mode s' = IDLE
    /\ skel (root s') = skel (DeleteNode (root s0) (inputValue s0))
    /\ inorder (root s') = inorder (DeleteNode (root s0) (inputValue s0)).
Proof.
  apply (delete_animation_completes grow_double
           (with_inputValue 30
              (with_root (insert_all [50; 30; 70; 20; 40] Null) initial))
           (1 # 64)%Q 32%nat (1 # 64)%Q (repeat (1 # 64)%Q 136)).
  - apply BST_insert_all. exact I.
  - simpl. tauto.
  - simpl. lia.
  - vm_compute. discriminate.
  - vm_compute. reflexivity.
  - apply Forall_forall. intros d Hd.
    change ((1 # 64)%Q :: repeat (1 # 64)%Q 136)
      with (repeat (1 # 64)%Q 137) in Hd.
    apply repeat_spec in Hd. subst d. apply Qle_refl.
  - simpl. lia.
Defined.

(* ----------------------------------------------------------------- *)
(** ** Before the commit *)



(* ----------------------------------------------------------------- *)
(** ** An insert, frame by frame *)

Lemma Insert_not_Null (t : tree) (v : Z) : Insert t v <> Null.
Proof.
  destruct t as [|l n r]; simpl; [discriminate|].
  destruct (v <? value n); [discriminate|].
  destruct (v >? value n); discriminate.
Qed.

(** The frame of the click on INSERT is a frame without input on the state
    the button action has prepared. *)
Lemma insert_frame (grow : nat -> nat) (dt : Q) (s : State) :
  main_frame grow (do_insert dt) s
  = main_frame grow (quiet dt)
      (StartInsertAnimation
         (with_root (SetPositions (Insert (root s) (inputValue s))
                       TREE_START_X TREE_START_Y 200) s)).
Proof.
  unfold main_frame, quiet, do_insert, when.
  cbn [frame_time key_up key_down click_insert click_search click_delete
       click_reset click_in click_pre click_post bind].
  unfold on_insert. cbn [bind]. reflexivity.
Qed.

Lemma inserting_frames (grow : nat -> nat) (t0 : tree) (dts : list Q) :
  (height t0 <= 100)%nat ->
  forall s, inserting t0 s ->
            exists s', run grow (map quiet dts) s = Ok s' /\ inserting t0 s'.
Proof.
  intros fits. induction dts as [|dt dts IH]; intros s Hs;
    [exists s; now split|].
  destruct Hs as (Hm & Hsk & Hc & Hlen & Hi).
  assert (Hh : (height (root s) <= HELPER_STACK_SIZE)%nat).
  { rewrite <- height_skel, Hsk, height_skel. exact fits. }
  rewrite map_cons, run_cons, quiet_frame. unfold AnimateNodes.
  rewrite (full_walk_tmap _ _ Hh). cbn [bind].
  unfold update_mode.
  change (mode (with_root (tmap (animate dt) (root s)) s)) with (mode s).
  rewrite Hm. cbn [bind]. apply IH.
  rewrite pace_with_root. unfold inserting.
  change (mode (with_root ?r ?x)) with (mode x).
  change (root (with_root ?r ?x)) with r.
  change (current (with_root ?r ?x)) with (current x).
  change (algoSteps (with_root ?r ?x)) with (algoSteps x).
  change (algoStepIndex (with_root ?r ?x)) with (algoStepIndex x).
  autorewrite with pace.
  split; [exact Hm|]. split.
  { rewrite <- Hsk. exact (skel_tmap (animate dt) (root s) (fun _ => eq_refl)). }
  split; [exact Hc|]. split; [exact Hlen|].
  destruct (pace_cases dt s Hlen Hi) as [(-> & ? & _)|(-> & _)]; cbn; lia.
Qed.

(** X21.  The insert animation never ends by itself and never walks the
    tree.  After a click on INSERT, on a tree that fits the helper stack,
    any number of frames without input succeed and leave the program in
    mode [INSERTING], with the cursor [current] on the root, the step label
    among the five of the side panel, and the tree of [Insert] (shape and
    keys) unchanged. *)
Theorem insert_mode_never_ends
    (grow : nat -> nat) (s0 : State) (dt0 : Q) (dts : list Q) :
  (height (Insert (root s0) (inputValue s0)) <= 100)%nat ->
  exists s',
    run grow (do_insert dt0 :: map quiet dts) s0 = Ok s'
    /\ mode s' = INSERTING /\ current s' = Some []
    /\ skel (root s') = skel (Insert (root s0) (inputValue s0))
    /\ 0 <= algoStepIndex s' < Z.of_nat (length (algoSteps s')).
Proof.
  intros fits.
  assert (I0 : inserting (Insert (root s0) (inputValue s0))
                 (StartInsertAnimation
                    (with_root (SetPositions (Insert (root s0) (inputValue s0))
                                  TREE_START_X TREE_START_Y 200) s0))).
  { pose proof (Insert_not_Null (root s0) (inputValue s0)) as N.
    unfold inserting, StartInsertAnimation, start_steps. cbn.
    fold (skel (SetPositions (Insert (root s0) (inputValue s0))
                  TREE_START_X TREE_START_Y 200)).
    fold (skel (Insert (root s0) (inputValue s0))).
    rewrite skel_SetPositions.
    destruct (Insert (root s0) (inputValue s0)); [congruence|].
    cbn. repeat split; lia. }
  destruct (inserting_frames grow _ (dt0 :: dts) fits _ I0)
    as (s' & R & Hm & Hsk & Hc & Hlen & Hi).
  exists s'. split.
  - rewrite run_cons, insert_frame. rewrite map_cons, run_cons in R. exact R.
  - rewrite Hlen. repeat split; auto; lia.
Qed.

Lemma insert_mode_never_ends_witness :
  let s0 := with_inputValue 60
              (with_root (insert_all [50; 30; 70] Null) initial) in
  exists s',
    run grow_double (do_insert 1 :: map quiet (repeat 1%Q 1000)) s0 = Ok s'
    /\ mode s' = INSERTING /\ current s' = Some []
    /\ skel (root s') = skel (Insert (root s0) (inputValue s0))
    /\ 0 <= algoStepIndex s' < Z.of_nat (length (algoSteps s')).
Proof.
  apply (insert_mode_never_ends grow_double
           (with_inputValue 60
              (with_root (insert_all [50; 30; 70] Null) initial))
           1%Q (repeat 1%Q 1000)).
  simpl. lia.
Defined.
